(** * Erebus cognitive runtime: a shallow embedding of the Go core

    The development follows the Go packages of
    [backend/internal/cognitive]: [atomspace] (atoms and the indexed
    store), [sharding] (the shard manager), [inference] (rules and the
    fixpoint driver), [agents] (agents and their scheduler), [pipeline]
    and the [cognitive] facade.

    Conventions of the embedding.
    - Go [int], [int64] are [Z]; [int16] is a [Z] whose wrap-around is
      written out with [wrap16]; [uint64] and [uint32] values are a [Z]
      reduced with [Z.land] or [mod].
    - [float64] is Rocq's primitive binary64 [float]: multiplication and
      comparison are the IEEE operations the Go code executes.
    - Go maps are [gmap]s.  The order in which Go ranges over a map, and
      the order in which goroutines deliver their answers, is not fixed
      by the language: every function that depends on such an order takes
      it as an explicit argument (an [Order], or a [Sched] for the
      inference driver) and theorems quantify over it.
    - Atoms are handled by pointer in Go.  A store keeps the atom
      objects it references in [cells]; its maps hold indices into
      [cells], so the three maps that hold one pointer alias one cell.
    - Mutexes, channels and worker pools serialise the operations; the
      embedding is the sequential behaviour of one operation at a time.
      Wall-clock fields ([CreatedAt], [UpdatedAt], [LastUsed], [LastRun],
      [TotalTime]) are left out: no function reads them back. *)

From Stdlib Require Import ZArith String Ascii List Lia Permutation Sorted.
From Stdlib Require Import PrimFloat SpecFloat FloatOps Uint63 DecimalString.
From stdpp Require Import gmap strings list.
Import ListNotations.

Set Warnings "-inexact-float,-register-all,-abstract-large-number".
Open Scope Z_scope.

(* ===================================================================== *)
(** * Library code used by the repository                                *)
(* ===================================================================== *)

(** [crypto/sha256] (FIPS 180-4) on byte strings, with the lower-case
    hexadecimal rendering of [fmt.Sprintf("%x", ...)]. *)
Module Sha256.

Definition mask32 : Z := 2 ^ 32 - 1.
Definition add32 (a b : Z) : Z := Z.land (a + b) mask32.
Definition rotr (n x : Z) : Z :=
  Z.lor (Z.shiftr x n) (Z.land (Z.shiftl x (32 - n)) mask32).
Definition Ch (x y z : Z) : Z :=
  Z.lxor (Z.land x y) (Z.land (Z.lxor x mask32) z).
Definition Maj (x y z : Z) : Z :=
  Z.lxor (Z.lxor (Z.land x y) (Z.land x z)) (Z.land y z).
Definition bsig0 (x : Z) : Z := Z.lxor (Z.lxor (rotr 2 x) (rotr 13 x)) (rotr 22 x).
Definition bsig1 (x : Z) : Z := Z.lxor (Z.lxor (rotr 6 x) (rotr 11 x)) (rotr 25 x).
Definition ssig0 (x : Z) : Z := Z.lxor (Z.lxor (rotr 7 x) (rotr 18 x)) (Z.shiftr x 3).
Definition ssig1 (x : Z) : Z := Z.lxor (Z.lxor (rotr 17 x) (rotr 19 x)) (Z.shiftr x 10).

(** The round constants and the initial hash value of FIPS 180-4, in decimal. *)
Definition K : list Z :=
 [1116352408; 1899447441; 3049323471; 3921009573; 961987163; 1508970993; 2453635748; 2870763221;
  3624381080; 310598401; 607225278; 1426881987; 1925078388; 2162078206; 2614888103; 3248222580;
  3835390401; 4022224774; 264347078; 604807628; 770255983; 1249150122; 1555081692; 1996064986;
  2554220882; 2821834349; 2952996808; 3210313671; 3336571891; 3584528711; 113926993; 338241895;
  666307205; 773529912; 1294757372; 1396182291; 1695183700; 1986661051; 2177026350; 2456956037;
  2730485921; 2820302411; 3259730800; 3345764771; 3516065817; 3600352804; 4094571909; 275423344;
  430227734; 506948616; 659060556; 883997877; 958139571; 1322822218; 1537002063; 1747873779;
  1955562222; 2024104815; 2227730452; 2361852424; 2428436474; 2756734187; 3204031479; 3329325298].

Definition H0 : list Z :=
 [1779033703; 3144134277; 1013904242; 2773480762; 1359893119; 2600822924; 528734635; 1541459225].

(** The message schedule is kept as a window of the last sixteen words,
    oldest first. *)
Definition next_w (win : list Z) : Z :=
  add32 (add32 (ssig1 (nth 14 win 0)) (nth 9 win 0))
        (add32 (ssig0 (nth 1 win 0)) (nth 0 win 0)).

Definition round (st : list Z) (k w : Z) : list Z :=
  match st with
  | [a; b; c; d; e; f; g; h] =>
      let t1 := add32 (add32 (add32 h (bsig1 e)) (add32 (Ch e f g) k)) w in
      let t2 := add32 (bsig0 a) (Maj a b c) in
      [add32 t1 t2; a; b; c; add32 d t1; e; f; g]
  | _ => st
  end.

Fixpoint rounds (ks : list Z) (win : list Z) (st : list Z) : list Z :=
  match ks with
  | [] => st
  | k :: ks' =>
      match win with
      | w :: _ => rounds ks' (tl win ++ [next_w win]) (round st k w)
      | [] => st
      end
  end.

Fixpoint words (bs : list Z) (n : nat) : list Z :=
  match n with
  | O => []
  | S n' =>
      match bs with
      | b0 :: b1 :: b2 :: b3 :: r =>
          Z.lor (Z.lor (Z.shiftl b0 24) (Z.shiftl b1 16)) (Z.lor (Z.shiftl b2 8) b3)
          :: words r n'
      | _ => []
      end
  end.

Definition compress (st : list Z) (block : list Z) : list Z :=
  List.map (fun p => add32 (fst p) (snd p))
           (combine st (rounds K (words block 16) st)).

Fixpoint blocks (bs : list Z) (n : nat) (st : list Z) : list Z :=
  match n with
  | O => st
  | S n' => blocks (skipn 64 bs) n' (compress st (firstn 64 bs))
  end.

Definition be64 (n : Z) : list Z :=
  List.map (fun i => Z.land (Z.shiftr n (8 * i)) 255) [7; 6; 5; 4; 3; 2; 1; 0].

Definition pad (msg : list Z) : list Z :=
  let l := Z.of_nat (length msg) in
  msg ++ [128] ++ repeat 0 (Z.to_nat ((55 - l) mod 64)) ++ be64 (8 * l).

Definition digest (msg : list Z) : list Z :=
  let p := pad msg in
  blocks p (Nat.div (length p) 64) H0.

Definition hexdigit (n : Z) : ascii :=
  if n <? 10 then ascii_of_N (Z.to_N (48 + n)) else ascii_of_N (Z.to_N (87 + n)).

Definition hexword (w : Z) : string :=
  fold_right (fun i s => String (hexdigit (Z.land (Z.shiftr w (4 * i)) 15)) s)
             EmptyString [7; 6; 5; 4; 3; 2; 1; 0].

Definition bytes_of (s : string) : list Z :=
  List.map (fun c => Z.of_N (N_of_ascii c)) (list_ascii_of_string s).

(** [hex s] is [fmt.Sprintf("%x", sha256.Sum256([]byte(s)))]. *)
Definition hex (s : string) : string :=
  fold_right (fun w acc => String.append (hexword w) acc) EmptyString
             (digest (bytes_of s)).

End Sha256.

(** [hash/fnv], [New64a]: the 64-bit FNV-1a hash. *)
Module Fnv.

Definition offset64 : Z := 14695981039346656037.
Definition prime64 : Z := 1099511628211.
Definition two64 : Z := 2 ^ 64.

(** One step of [Write]: [hash ^= byte; hash *= prime64] on [uint64]. *)
Definition step (h b : Z) : Z := (Z.lxor h b * prime64) mod two64.

Definition Write (h : Z) (bs : list Z) : Z := fold_left step bs h.

Definition Sum64 (s : string) : Z := Write offset64 (Sha256.bytes_of s).

End Fnv.

(** [fmt.Sprintf("%d", n)] for a Go [int]. *)
Definition sprint_d (n : Z) : string :=
  NilEmpty.string_of_int (Z.to_int n).

(** The order in which a [range] over a Go map, or a set of goroutines,
    delivers its elements.  Any permutation may occur. *)
Definition Order (A : Type) : Type := list A -> list A.

Definition is_order {A : Type} (ord : Order A) : Prop :=
  forall l : list A, Permutation (ord l) l.

(* ===================================================================== *)
(** * Package [atomspace]: interface.go                                  *)
(* ===================================================================== *)
Module atomspace.

(** [type AtomType int] with its [iota] constants. *)
Abbreviation AtomType := Z (only parsing).
Definition NodeType : AtomType := 0.
Definition ConceptNodeType : AtomType := 1.
Definition PredicateNodeType : AtomType := 2.
Definition VariableNodeType : AtomType := 3.
Definition LinkType : AtomType := 4.
Definition InheritanceLinkType : AtomType := 5.
Definition SimilarityLinkType : AtomType := 6.
Definition ExecutionLinkType : AtomType := 7.
Definition EvaluationLinkType : AtomType := 8.

Record TruthValue : Type := mkTruthValue {
  Strength : float;
  Confidence : float
}.

(** The three fields are [int16]. *)
Record AttentionValue : Type := mkAttentionValue {
  STI : Z;
  LTI : Z;
  VLTI : Z
}.

Record BaseAtom : Type := mkBaseAtom {
  ID : string;
  AType : AtomType;
  Name : string;
  TruthVal : TruthValue;
  AttentionVal : AttentionValue;
  TenantID : string
}.

(** [Node] and [Link] are the two implementations of the [Atom]
    interface.  [Outgoing] holds the connected atoms; the code reads
    nothing but their ids through it. *)
Inductive Atom : Type :=
| Node (b : BaseAtom)
| Link (b : BaseAtom) (Outgoing : list Atom).

Definition base (a : Atom) : BaseAtom :=
  match a with
  | Node b => b
  | Link b _ => b
  end.

Definition with_base (f : BaseAtom -> BaseAtom) (a : Atom) : Atom :=
  match a with
  | Node b => Node (f b)
  | Link b out => Link (f b) out
  end.

Definition GetID (a : Atom) : string := ID (base a).
Definition GetType (a : Atom) : AtomType := AType (base a).
Definition GetName (a : Atom) : string := Name (base a).
Definition GetTruthValue (a : Atom) : TruthValue := TruthVal (base a).
Definition GetAttentionValue (a : Atom) : AttentionValue := AttentionVal (base a).
Definition GetTenantID (a : Atom) : string := TenantID (base a).

Definition SetTruthValue (tv : TruthValue) (a : Atom) : Atom :=
  with_base (fun b => mkBaseAtom (ID b) (AType b) (Name b) tv (AttentionVal b) (TenantID b)) a.

Definition SetAttentionValue (av : AttentionValue) (a : Atom) : Atom :=
  with_base (fun b => mkBaseAtom (ID b) (AType b) (Name b) (TruthVal b) av (TenantID b)) a.

Definition NewNode (id name tenantID : string) (atomType : AtomType) : Atom :=
  Node {| ID := id; AType := atomType; Name := name;
          TruthVal := mkTruthValue 1.0 1.0;
          AttentionVal := mkAttentionValue 0 0 0;
          TenantID := tenantID |}.

Definition NewLink (id name tenantID : string) (atomType : AtomType)
    (outgoing : list Atom) : Atom :=
  Link {| ID := id; AType := atomType; Name := name;
          TruthVal := mkTruthValue 1.0 1.0;
          AttentionVal := mkAttentionValue 0 0 0;
          TenantID := tenantID |} outgoing.

(** [GetOutgoing] of a link; a [Node] has no such method and no outgoing set. *)
Definition GetOutgoing (a : Atom) : list Atom :=
  match a with
  | Node _ => []
  | Link _ out => out
  end.

(** The type assertion of an [Atom] to a pointer to [Link]. *)
Definition isLink (a : Atom) : bool :=
  match a with
  | Node _ => false
  | Link _ _ => true
  end.

(** [Clone] builds a new object with the same field values and a copy of
    the outgoing slice. *)
Definition Clone (a : Atom) : Atom :=
  match a with
  | Node b => Node (mkBaseAtom (ID b) (AType b) (Name b) (TruthVal b) (AttentionVal b) (TenantID b))
  | Link b out =>
      Link (mkBaseAtom (ID b) (AType b) (Name b) (TruthVal b) (AttentionVal b) (TenantID b))
           (firstn (length out) out)
  end.

(** The errors the packages build with [fmt.Errorf], by message. *)
Inductive Error : Type :=
| ErrAlreadyExists (atomID : string)      (* "atom with ID %s already exists" *)
| ErrNotFound (atomID : string)           (* "atom with ID %s not found" *)
| ErrTenantMismatch (tenantID : string)   (* "atom does not belong to tenant %s" *)
| ErrCanceled                             (* ctx.Err(): context.Canceled or DeadlineExceeded *)
| ErrInvalidShard (shardID : Z)           (* "invalid shard ID: %d" *)
| ErrTenantExists (tenantID : string)     (* "tenant %s already initialized" *)
| ErrTenantNotInitialized (tenantID : string) (* "tenant %s not initialized" *)
| ErrSourceNotFound (e : Error)           (* "source atom not found: %w" *)
| ErrTargetNotFound (e : Error)           (* "target atom not found: %w" *)
| ErrPipelineExists (pipelineID : string) (* "pipeline %s already exists" *)
| ErrPipelineNotFound (pipelineID : string) (* "pipeline %s not found" *)
| ErrPipelineCancelled (stage : Z)        (* "pipeline execution cancelled at stage %d" *)
| ErrStageFailed (stage : string) (e : Error) (* "stage %s failed: %w" *)
| ErrBadInput                             (* "expected []Atom, got %T" *)
| ErrPanic                                (* a run-time panic of the Go program *)
| ErrOther (msg : string).                (* an error made by caller-supplied code *)

(** [GenerateAtomID]: SHA-256 over ["%d:%s"] of type and name followed
    by the ids of the outgoing atoms, in hexadecimal. *)
Definition GenerateAtomID (atomType : AtomType) (name : string)
    (outgoing : list Atom) : string :=
  Sha256.hex
    (String.append (String.append (sprint_d atomType) (String.append ":" name))
                   (fold_right (fun a acc => String.append (GetID a) acc)
                               EmptyString outgoing)).

(* --------------------------------------------------------------------- *)
(** ** atomspace.go: the indexed store                                   *)
(* --------------------------------------------------------------------- *)

(** A pointer to a stored atom object: its index in [cells]. *)
Abbreviation loc := nat (only parsing).

Record AtomSpace : Type := mkAtomSpace {
  cells : list Atom;                      (* the atom objects the maps point to *)
  atoms : gmap string loc;                (* atomID -> Atom *)
  byTenant : gmap string (gmap string loc); (* tenantID -> atomID -> Atom *)
  byType : gmap Z (gmap string loc);      (* atomType -> atomID -> Atom *)
  indices : gmap string (gmap string bool)  (* name -> atomID -> exists *)
}.

Definition NewAtomSpace : AtomSpace :=
  {| cells := []; atoms := ∅; byTenant := ∅; byType := ∅; indices := ∅ |}.

(** The object behind a pointer, and assignment through a pointer. *)
Definition load (s : AtomSpace) (l : loc) : option Atom := cells s !! l.

Definition store (l : loc) (a : Atom) (s : AtomSpace) : AtomSpace :=
  {| cells := <[l := a]> (cells s); atoms := atoms s; byTenant := byTenant s;
     byType := byType s; indices := indices s |}.

(** [addAtomInternal].  The atom object becomes a new cell; the four maps
    are extended as in the source, the inner maps being made on demand. *)
Definition addAtomInternal (atom : Atom) (s : AtomSpace) : AtomSpace * option Error :=
  let atomID := GetID atom in
  let tenantID := GetTenantID atom in
  let atomType := GetType atom in
  match atoms s !! atomID with
  | Some _ => (s, Some (ErrAlreadyExists atomID))
  | None =>
      let l := length (cells s) in
      let name := GetName atom in
      ({| cells := cells s ++ [atom];
          atoms := <[atomID := l]> (atoms s);
          byTenant := <[tenantID := <[atomID := l]> (default ∅ (byTenant s !! tenantID))]> (byTenant s);
          byType := <[atomType := <[atomID := l]> (default ∅ (byType s !! atomType))]> (byType s);
          indices := <[name := <[atomID := true]> (default ∅ (indices s !! name))]> (indices s) |},
       None)
  end.

(** [GetAtom] returns the stored pointer. *)
Definition GetAtom (atomID tenantID : string) (s : AtomSpace) : loc + Error :=
  match atoms s !! atomID with
  | None => inr (ErrNotFound atomID)
  | Some l =>
      match load s l with
      | None => inr ErrPanic
      | Some atom =>
          if decide (GetTenantID atom = tenantID) then inl l
          else inr (ErrTenantMismatch tenantID)
      end
  end.

(** A nil [filter] keeps every atom. *)
Definition keeps (filter : option (Atom -> bool)) (atom : Atom) : bool :=
  match filter with
  | None => true
  | Some f => f atom
  end.

(** [queryAtomsInternal]: ranges over the tenant's map in the order
    [ord] and collects the pointers whose atom passes the filter. *)
Definition queryAtomsInternal (ord : Order loc) (tenantID : string)
    (filter : option (Atom -> bool)) (s : AtomSpace) : list loc :=
  let tenantAtoms := default ∅ (byTenant s !! tenantID) in
  List.filter (fun l => match load s l with
                        | Some atom => keeps filter atom
                        | None => false
                        end)
              (ord (List.map snd (map_to_list tenantAtoms))).

Definition GetAtomsByType (ord : Order loc) (tenantID : string) (atomType : AtomType)
    (s : AtomSpace) : list loc :=
  queryAtomsInternal ord tenantID (Some (fun a => Z.eqb (GetType a) atomType)) s.

(** [GetAtomsByName] ranges over the name index and reads each atom
    through the primary map. *)
Definition GetAtomsByName (ord : Order string) (tenantID name : string)
    (s : AtomSpace) : list loc :=
  let atomIDs := default ∅ (indices s !! name) in
  omap (fun atomID =>
          match atoms s !! atomID with
          | Some l =>
              match load s l with
              | Some atom => if decide (GetTenantID atom = tenantID) then Some l else None
              | None => None
              end
          | None => None
          end)
       (ord (List.map fst (map_to_list atomIDs))).

(** [updateAtomInternal].  The updater receives the atom object and
    mutates it in place; it is a function from the object's value to its
    new value and the error it returns. *)
Definition updateAtomInternal (atomID tenantID : string)
    (updater : Atom -> Atom * option Error) (s : AtomSpace) : AtomSpace * option Error :=
  match atoms s !! atomID with
  | None => (s, Some (ErrNotFound atomID))
  | Some l =>
      match load s l with
      | None => (s, Some ErrPanic)
      | Some atom =>
          if decide (GetTenantID atom = tenantID) then
            let (atom', err) := updater atom in
            (store l atom' s, err)
          else (s, Some (ErrTenantMismatch tenantID))
      end
  end.

(** [deleteAtomInternal].  [delete] on a missing inner map does nothing;
    an emptied name bucket is removed, emptied tenant and type buckets
    stay. *)
Definition deleteAtomInternal (atomID tenantID : string) (s : AtomSpace)
    : AtomSpace * option Error :=
  match atoms s !! atomID with
  | None => (s, Some (ErrNotFound atomID))
  | Some l =>
      match load s l with
      | None => (s, Some ErrPanic)
      | Some atom =>
          if decide (GetTenantID atom = tenantID) then
            let name := GetName atom in
            let idx := alter (delete atomID) name (indices s) in
            ({| cells := cells s;
                atoms := delete atomID (atoms s);
                byTenant := alter (delete atomID) tenantID (byTenant s);
                byType := alter (delete atomID) (GetType atom) (byType s);
                indices := if Nat.eqb (size (default ∅ (idx !! name))) 0
                           then delete name idx else idx |},
             None)
          else (s, Some (ErrTenantMismatch tenantID))
      end
  end.

(** [GetStats]: the two entries of the returned map. *)
Record Stats : Type := mkStats {
  total_atoms : Z;
  atoms_by_type : gmap Z Z
}.

Definition countType (typeCount : gmap Z Z) (t : AtomType) : gmap Z Z :=
  <[t := default 0 (typeCount !! t) + 1]> typeCount.

Definition GetStats (tenantID : string) (s : AtomSpace) : Stats :=
  let tenantAtoms := default ∅ (byTenant s !! tenantID) in
  {| total_atoms := Z.of_nat (size tenantAtoms);
     atoms_by_type :=
       fold_left (fun typeCount l =>
                    match load s l with
                    | Some atom => countType typeCount (GetType atom)
                    | None => typeCount
                    end)
                 (List.map snd (map_to_list tenantAtoms)) ∅ |}.

(** [AtomSpaceInterface].  [S] is the state of the implementation and
    [P] its pointers to stored atoms; [deref] and [assign] read and write
    the object behind a pointer, as the callers do through the [Atom]
    methods. *)
Class AtomSpaceInterface (S P : Type) : Type := {
  AddAtom : Atom -> S -> S * option Error;
  GetAtomI : string -> string -> S -> P + Error;
  QueryAtoms : Order P -> string -> option (Atom -> bool) -> S -> list P;
  UpdateAtom : string -> string -> (Atom -> Atom * option Error) -> S -> S * option Error;
  DeleteAtom : string -> string -> S -> S * option Error;
  deref : S -> P -> option Atom;
  assign : P -> Atom -> S -> S
}.

(** The public methods of [AtomSpace] hand the request to a worker, which
    calls the internal implementation. *)
#[global] Instance AtomSpace_interface : AtomSpaceInterface AtomSpace nat := {|
  AddAtom := addAtomInternal;
  GetAtomI := GetAtom;
  QueryAtoms := queryAtomsInternal;
  UpdateAtom := updateAtomInternal;
  DeleteAtom := deleteAtomInternal;
  deref := load;
  assign := store
|}.

(** The atoms behind a list of pointers. *)
Definition values {S P : Type} `{AtomSpaceInterface S P} (s : S) (ps : list P) : list Atom :=
  omap (deref s) ps.

End atomspace.

(* ===================================================================== *)
(** * Package [sharding]: sharding.go                                    *)
(* ===================================================================== *)
Module sharding.
Import atomspace.

Record Shard : Type := mkShard {
  ShardID : Z;
  Space : AtomSpace;      (* the field AtomSpace *)
  Load : Z                (* current number of atoms in this shard *)
}.

Record ShardManager : Type := mkShardManager {
  shards : list Shard;
  numShards : Z;
  rebalanceThreshold : Z
}.

Definition NewShardManager (numShards : Z) : ShardManager :=
  {| shards := List.map (fun i => mkShard (Z.of_nat i) NewAtomSpace 0)
                        (seq 0 (Z.to_nat numShards));
     numShards := numShards;
     rebalanceThreshold := 1000 |}.

(** [getShardIDInternal]: FNV-1a of [tenantID + ":" + atomID] modulo the
    shard count.  With [numShards = 0] the Go division panics; a manager
    has no shard then, and [GetShard] below finds none. *)
Definition getShardIDInternal (sm : ShardManager) (atomID tenantID : string) : Z :=
  Fnv.Sum64 (String.append tenantID (String.append ":" atomID)) mod numShards sm.

Definition GetShardID (sm : ShardManager) (atomID tenantID : string) : Z :=
  getShardIDInternal sm atomID tenantID.

Definition GetShard (sm : ShardManager) (atomID tenantID : string) : option Shard :=
  shards sm !! Z.to_nat (GetShardID sm atomID tenantID).

Definition GetShardByID (shardID : Z) (sm : ShardManager) : Shard + Error :=
  if (shardID <? 0) || (numShards sm <=? shardID) then inr (ErrInvalidShard shardID)
  else match shards sm !! Z.to_nat shardID with
       | Some sh => inl sh
       | None => inr ErrPanic
       end.

(** Writing a shard back at its index. *)
Definition setShard (i : nat) (sh : Shard) (sm : ShardManager) : ShardManager :=
  {| shards := <[i := sh]> (shards sm); numShards := numShards sm;
     rebalanceThreshold := rebalanceThreshold sm |}.

Definition AddAtom (atom : Atom) (sm : ShardManager) : ShardManager * option Error :=
  let i := Z.to_nat (GetShardID sm (GetID atom) (GetTenantID atom)) in
  match shards sm !! i with
  | None => (sm, Some ErrPanic)
  | Some shard =>
      let (sp, err) := addAtomInternal atom (Space shard) in
      match err with
      | None => (setShard i (mkShard (ShardID shard) sp (Load shard + 1)) sm, None)
      | Some e => (setShard i (mkShard (ShardID shard) sp (Load shard)) sm, Some e)
      end
  end.

(** A pointer to an atom stored by the manager: the shard that holds the
    object and the cell in that shard. *)
Definition GetAtom (atomID tenantID : string) (sm : ShardManager) : (nat * nat) + Error :=
  let i := Z.to_nat (GetShardID sm atomID tenantID) in
  match shards sm !! i with
  | None => inr ErrPanic
  | Some shard =>
      match atomspace.GetAtom atomID tenantID (Space shard) with
      | inl l => inl (i, l)
      | inr e => inr e
      end
  end.

(** [QueryAtoms] asks every shard in its own goroutine and appends the
    answers as they arrive; [ord] is the resulting order of the atoms. *)
Definition QueryAtoms (ord : Order (nat * nat)) (tenantID : string)
    (filter : option (Atom -> bool)) (sm : ShardManager) : list (nat * nat) :=
  ord (concat (imap (fun i shard =>
                       List.map (pair i)
                                (queryAtomsInternal (fun l => l) tenantID filter (Space shard)))
                    (shards sm))).

Definition UpdateAtom (atomID tenantID : string)
    (updater : Atom -> Atom * option Error) (sm : ShardManager)
    : ShardManager * option Error :=
  let i := Z.to_nat (GetShardID sm atomID tenantID) in
  match shards sm !! i with
  | None => (sm, Some ErrPanic)
  | Some shard =>
      let (sp, err) := updateAtomInternal atomID tenantID updater (Space shard) in
      (setShard i (mkShard (ShardID shard) sp (Load shard)) sm, err)
  end.

Definition DeleteAtom (atomID tenantID : string) (sm : ShardManager)
    : ShardManager * option Error :=
  let i := Z.to_nat (GetShardID sm atomID tenantID) in
  match shards sm !! i with
  | None => (sm, Some ErrPanic)
  | Some shard =>
      let (sp, err) := deleteAtomInternal atomID tenantID (Space shard) in
      match err with
      | None => (setShard i (mkShard (ShardID shard) sp (Load shard - 1)) sm, None)
      | Some e => (setShard i (mkShard (ShardID shard) sp (Load shard)) sm, Some e)
      end
  end.

(** [needsRebalance]: the spread between the most and the least loaded
    shard exceeds the threshold. *)
Definition needsRebalance (sm : ShardManager) : bool :=
  match shards sm with
  | [] => false
  | first :: _ =>
      let '(minLoad, maxLoad) :=
        fold_left (fun '(minLoad, maxLoad) shard =>
                     let load := Load shard in
                     let minLoad := if load <? minLoad then load else minLoad in
                     let maxLoad := if maxLoad <? load then load else maxLoad in
                     (minLoad, maxLoad))
                  (shards sm) (Load first, Load first) in
      rebalanceThreshold sm <? maxLoad - minLoad
  end.

(** [rebalance] computes the overloaded and the underloaded shards and
    migrates nothing: the manager is left as it is.  The two lists are
    returned for inspection.  [/] on [int64] truncates toward zero. *)
Definition rebalance (sm : ShardManager) : ShardManager * (list Shard * list Shard) :=
  let total := fold_left (fun acc shard => acc + Load shard) (shards sm) 0 in
  let avgLoad := Z.quot total (Z.of_nat (length (shards sm))) in
  let half := Z.quot (rebalanceThreshold sm) 2 in
  (sm,
   fold_left (fun '(overloaded, underloaded) shard =>
                let load := Load shard in
                if avgLoad + half <? load then (overloaded ++ [shard], underloaded)
                else if load <? avgLoad - half then (overloaded, underloaded ++ [shard])
                else (overloaded, underloaded))
             (shards sm) ([], [])).

(** [GetShardStats]: the entries of the returned map. *)
Record ShardStats : Type := mkShardStats {
  stat_num_shards : Z;
  stat_total_load : Z;
  stat_average_load : Z;
  stat_shards : list (Z * Z)      (* shard_id, load *)
}.

Definition GetShardStats (sm : ShardManager) : ShardStats :=
  let totalLoad := fold_left (fun acc shard => acc + Load shard) (shards sm) 0 in
  {| stat_num_shards := numShards sm;
     stat_total_load := totalLoad;
     stat_average_load :=
       if (0 <? length (shards sm))%nat
       then Z.quot totalLoad (Z.of_nat (length (shards sm))) else 0;
     stat_shards := List.map (fun shard => (ShardID shard, Load shard)) (shards sm) |}.

(** [GetTenantStats]: totals over all shards. *)
Record TenantStats : Type := mkTenantStats {
  stat_tenant_id : string;
  stat_total_atoms : Z;
  stat_atoms_by_type : gmap Z Z;
  stat_shard_distribution : gmap Z Z
}.

Definition GetTenantStats (arrival : Order (Z * Stats)) (tenantID : string)
    (sm : ShardManager) : TenantStats :=
  let results :=
    arrival (imap (fun i shard => (Z.of_nat i, GetStats tenantID (Space shard))) (shards sm)) in
  fold_left (fun acc '(shardID, stats) =>
               {| stat_tenant_id := tenantID;
                  stat_total_atoms := stat_total_atoms acc + total_atoms stats;
                  stat_atoms_by_type :=
                    fold_left (fun m '(atomType, count) =>
                                 <[atomType := default 0 (m !! atomType) + count]> m)
                              (map_to_list (atoms_by_type stats)) (stat_atoms_by_type acc);
                  stat_shard_distribution :=
                    <[shardID := total_atoms stats]> (stat_shard_distribution acc) |})
            results
            {| stat_tenant_id := tenantID; stat_total_atoms := 0;
               stat_atoms_by_type := ∅; stat_shard_distribution := ∅ |}.

Definition deref (sm : ShardManager) (p : nat * nat) : option Atom :=
  match shards sm !! fst p with
  | Some shard => load (Space shard) (snd p)
  | None => None
  end.

Definition assign (p : nat * nat) (a : Atom) (sm : ShardManager) : ShardManager :=
  match shards sm !! fst p with
  | Some shard => setShard (fst p) (mkShard (ShardID shard) (store (snd p) a (Space shard)) (Load shard)) sm
  | None => sm
  end.

(** The manager behind the [AtomSpaceInterface], as the facade's
    [tenantAtomSpaceWrapper] forwards it. *)
#[global] Instance ShardManager_interface : AtomSpaceInterface ShardManager (nat * nat) := {|
  atomspace.AddAtom := AddAtom;
  atomspace.GetAtomI := GetAtom;
  atomspace.QueryAtoms := QueryAtoms;
  atomspace.UpdateAtom := UpdateAtom;
  atomspace.DeleteAtom := DeleteAtom;
  atomspace.deref := deref;
  atomspace.assign := assign
|}.

End sharding.

(* ===================================================================== *)
(** * Package [inference]                                                *)
(* ===================================================================== *)
Module inference.
Import atomspace.

(** [InferenceRule].  [Apply] gets, besides the atoms, the order in which
    a [range] over a map of link groups runs while the rule executes. *)
Record InferenceRule : Type := mkRule {
  GetName : string;
  GetPriority : Z;
  CanApply : list Atom -> bool;
  Apply : Order (string * list Atom) -> list Atom -> list Atom * option Error
}.

Record inferenceResult : Type := mkResult {
  newAtoms : list Atom;
  err : option Error;
  rule : string
}.

(** The links both rules collect first: atoms of type
    [InheritanceLinkType] that are [Link] objects. *)
Definition inheritanceLinks (atoms : list Atom) : list Atom :=
  List.filter (fun atom => (GetType atom =? InheritanceLinkType) && isLink atom) atoms.

Definition hasType (t : AtomType) (atom : Atom) : bool := GetType atom =? t.

(* ---- DeductionRule ---- *)

Definition DeductionRule_CanApply (atoms : list Atom) : bool :=
  existsb (hasType InheritanceLinkType) atoms && (2 <=? length atoms)%nat.

(** The link made from [link1 : A -> B] and [link2 : B -> C]. *)
Definition deduce (link1 link2 A C : Atom) : Atom :=
  let tenantID := GetTenantID link1 in
  let newOutgoing := [A; C] in
  let newID := GenerateAtomID InheritanceLinkType "inheritance" newOutgoing in
  let newLink := NewLink newID "inheritance" tenantID InheritanceLinkType newOutgoing in
  let tv1 := GetTruthValue link1 in
  let tv2 := GetTruthValue link2 in
  SetTruthValue
    (mkTruthValue (Strength tv1 * Strength tv2)%float
                  (Confidence tv1 * Confidence tv2 * 0.9)%float)
    newLink.

(** The body of the inner loop for the links at positions [i] and [j]. *)
Definition chain (i : nat) (link1 : Atom) (j : nat) (link2 : Atom) : list Atom :=
  if (i =? j)%nat then []
  else
    match GetOutgoing link1, GetOutgoing link2 with
    | [A; B], [B'; C] =>
        if decide (GetID B = GetID B') then [deduce link1 link2 A C] else []
    | _, _ => []
    end.

(** The two nested loops over the collected links. *)
Definition chainLinks (links : list Atom) : list Atom :=
  concat (imap (fun i link1 =>
                  if (length (GetOutgoing link1) =? 2)%nat
                  then concat (imap (fun j link2 => chain i link1 j link2) links)
                  else [])
               links).

Definition DeductionRule_Apply (atoms : list Atom) : list Atom * option Error :=
  (chainLinks (inheritanceLinks atoms), None).

Definition NewDeductionRule : InferenceRule :=
  {| GetName := "deduction"; GetPriority := 10;
     CanApply := DeductionRule_CanApply;
     Apply := fun _ atoms => DeductionRule_Apply atoms |}.

(* ---- InductionRule ---- *)

Definition InductionRule_CanApply (atoms : list Atom) : bool :=
  (3 <=? length (List.filter (hasType InheritanceLinkType) atoms))%nat.

(** [targetGroups]: the links with two outgoing atoms, grouped under the
    id of the second one, each group in the order of the links. *)
Definition targetGroups (links : list Atom) : gmap string (list Atom) :=
  fold_left (fun groups link =>
               match GetOutgoing link with
               | [_; target] =>
                   let targetID := GetID target in
                   <[targetID := default [] (groups !! targetID) ++ [link]]> groups
               | _ => groups
               end)
            links ∅.

(** The similarity link made for two links of one group. *)
Definition similar (link1 link2 : Atom) : list Atom :=
  match GetOutgoing link1, GetOutgoing link2 with
  | source1 :: _, source2 :: _ =>
      let tenantID := GetTenantID link1 in
      let newOutgoing := [source1; source2] in
      let newID := GenerateAtomID SimilarityLinkType "similarity" newOutgoing in
      [SetTruthValue (mkTruthValue 0.7 0.8)
                     (NewLink newID "similarity" tenantID SimilarityLinkType newOutgoing)]
  | _, _ => []
  end.

(** The two nested loops [i < j] over one group. *)
Fixpoint groupPairs (group : list Atom) : list Atom :=
  match group with
  | [] => []
  | link_i :: rest => flat_map (similar link_i) rest ++ groupPairs rest
  end.

(** The loop over the groups, in the order [ord] of the map range. *)
Definition similarityLinks (ord : Order (string * list Atom))
    (groups : gmap string (list Atom)) : list Atom :=
  flat_map (fun '(_, group) =>
              if (2 <=? length group)%nat then groupPairs group else [])
           (ord (map_to_list groups)).

Definition InductionRule_Apply (ord : Order (string * list Atom)) (atoms : list Atom)
    : list Atom * option Error :=
  (similarityLinks ord (targetGroups (inheritanceLinks atoms)), None).

Definition NewInductionRule : InferenceRule :=
  {| GetName := "induction"; GetPriority := 5;
     CanApply := InductionRule_CanApply;
     Apply := InductionRule_Apply |}.

(* ---- AbductionRule ---- *)

Definition AbductionRule_CanApply (atoms : list Atom) : bool :=
  (2 <=? length atoms)%nat.

Definition AbductionRule_Apply (atoms : list Atom) : list Atom * option Error :=
  ([], None).

Definition NewAbductionRule : InferenceRule :=
  {| GetName := "abduction"; GetPriority := 3;
     CanApply := AbductionRule_CanApply;
     Apply := fun _ atoms => AbductionRule_Apply atoms |}.

(* ---- InferenceEngine ---- *)

Record InferenceEngine : Type := mkEngine {
  rules : list InferenceRule;
  workers : Z
}.

Definition NewInferenceEngine (workers : Z) : InferenceEngine :=
  {| rules := []; workers := workers |}.

Definition AddRule (r : InferenceRule) (ie : InferenceEngine) : InferenceEngine :=
  {| rules := rules ie ++ [r]; workers := workers ie |}.

(** What one call of [RunInference] meets from outside, per iteration
    [i] of its loop: whether [ctx.Done()] is ready at the top of the
    iteration, the order in which [QueryAtoms] lists the atoms, the order
    of map ranges inside the rule tasks, and the order in which the
    workers deliver their results. *)
Record Sched (P : Type) : Type := mkSched {
  ctxDone : nat -> bool;
  queryOrder : nat -> Order P;
  rangeOrder : nat -> Order (string * list Atom);
  arrival : nat -> Order inferenceResult
}.
Arguments ctxDone {P}.
Arguments queryOrder {P}.
Arguments rangeOrder {P}.
Arguments arrival {P}.

Definition fair {P : Type} (sc : Sched P) : Prop :=
  forall i, is_order (queryOrder sc i) /\ is_order (rangeOrder sc i) /\ is_order (arrival sc i).

(** Why the loop of [RunInference] was left. *)
Inductive Stop : Type :=
| StopCap          (* iteration < maxIterations failed *)
| StopCancelled    (* ctx.Done() *)
| StopEmpty        (* len(atoms) == 0 *)
| StopNoTask       (* tasksSubmitted == 0 *)
| StopFixpoint     (* newAtomsThisIteration == 0 *)
| StopBlocked.     (* a send to taskChan or a receive from resultChan waits for ever *)

(** The two results of [RunInference], the store it leaves, and two
    observations on the run: how many times the loop body was entered and
    why the loop was left.  A call that waits for ever on one of the two
    channels of the engine does not return: this is [StopBlocked], and the
    other fields are then the variables of the call where it waits. *)
Record Outcome (S : Type) : Type := mkOutcome {
  allNewAtoms : list Atom;
  error : option Error;
  final : S;
  iterations : nat;
  stop : Stop
}.
Arguments allNewAtoms {S}.
Arguments error {S}.
Arguments final {S}.
Arguments iterations {S}.
Arguments stop {S}.

Section Engine.
Context {S P : Type} `{AtomSpaceInterface S P}.

(** The worker: applies the rule of a task. *)
Definition runTask (ord : Order (string * list Atom)) (atoms : list Atom)
    (r : InferenceRule) : inferenceResult :=
  let (new, e) := Apply r ord atoms in
  {| newAtoms := new; err := e; rule := GetName r |}.

(** Reinsertion of the atoms of one result: every atom that [AddAtom]
    accepts is appended to the new atoms. *)
Definition reinsertAtoms (new : list Atom) (st : S * list Atom) : S * list Atom :=
  fold_left (fun '(s, added) atom =>
               let (s', e) := AddAtom atom s in
               match e with
               | None => (s', added ++ [atom])
               | Some _ => (s', added)
               end)
            new st.

(** The collection loop over the results; a result with an error is skipped. *)
Definition collect (results : list inferenceResult) (s : S) : S * list Atom :=
  fold_left (fun st result =>
               match err result with
               | Some _ => st
               | None => reinsertAtoms (newAtoms result) st
               end)
            results (s, []).

(** The tasks of an iteration are answered by the workers that
    [NewInferenceEngine] started, one for each [i < workers]; [taskChan]
    and [resultChan] hold 1000 entries each.  The call receives no result
    before it has submitted all its tasks.  With no worker it waits for
    ever for the first result.  With [workers] workers, each of which can
    hold one task in hand once [resultChan] is full, 2000 + [workers] tasks
    are taken in; the send of one more waits for ever. *)
Definition blocks (workers : Z) (tasksSubmitted : nat) : bool :=
  (workers <=? 0) || (2000 + workers <? Z.of_nat tasksSubmitted).

(** The body of the loop after the cancellation check, for the atoms
    [QueryAtoms] delivered: either the loop is left, or the store after
    reinsertion and the atoms added in this iteration are returned. *)
Definition iterationOn (ie : InferenceEngine) (range : Order (string * list Atom))
    (arrive : Order inferenceResult) (atoms : list Atom) (s : S) : Stop + S * list Atom :=
  if (length atoms =? 0)%nat then inl StopEmpty
  else
    let tasks := List.filter (fun r => CanApply r atoms) (rules ie) in
    if (length tasks =? 0)%nat then inl StopNoTask
    else if blocks (workers ie) (length tasks) then inl StopBlocked
    else inr (collect (arrive (List.map (runTask range atoms) tasks)) s).

Definition iteration (sc : Sched P) (ie : InferenceEngine) (tenantID : string)
    (i : nat) (s : S) : Stop + S * list Atom :=
  iterationOn ie (rangeOrder sc i) (arrival sc i)
              (values s (QueryAtoms (queryOrder sc i) tenantID None s)) s.

(** The loop of [RunInference]: [n] iterations are left, [i] is the
    value of the variable [iteration]. *)
Fixpoint loop (sc : Sched P) (ie : InferenceEngine) (tenantID : string)
    (n i : nat) (s : S) (allNew : list Atom) : Outcome S :=
  match n with
  | O => mkOutcome S allNew None s i StopCap
  | Datatypes.S n' =>
      if ctxDone sc i then mkOutcome S allNew (Some ErrCanceled) s (Datatypes.S i) StopCancelled
      else
        match iteration sc ie tenantID i s with
        | inl why => mkOutcome S allNew None s (Datatypes.S i) why
        | inr (s', added) =>
            if (length added =? 0)%nat
            then mkOutcome S allNew None s' (Datatypes.S i) StopFixpoint
            else loop sc ie tenantID n' (Datatypes.S i) s' (allNew ++ added)
        end
  end.

Definition RunInference (sc : Sched P) (ie : InferenceEngine) (tenantID : string)
    (maxIterations : Z) (s : S) : Outcome S :=
  loop sc ie tenantID (Z.to_nat maxIterations) 0 s [].

(** [PatternMatcher.MatchPattern]: atoms of the pattern's type and, when
    the pattern has a name, of its name. *)
Definition MatchPattern (ord : Order P) (tenantID : string) (pattern : Atom) (s : S) : list P :=
  QueryAtoms ord tenantID
    (Some (fun a => (GetType a =? GetType pattern)
                    && (bool_decide (atomspace.GetName pattern = EmptyString)
                        || bool_decide (atomspace.GetName a = atomspace.GetName pattern))))
    s.

End Engine.

(** [InferenceStats] and its two recorders. *)
Record InferenceStats : Type := mkInferenceStats {
  TotalInferences : Z;
  SuccessfulRules : gmap string Z;
  FailedRules : gmap string Z
}.

Definition NewInferenceStats : InferenceStats :=
  {| TotalInferences := 0; SuccessfulRules := ∅; FailedRules := ∅ |}.

Definition RecordSuccess (ruleName : string) (st : InferenceStats) : InferenceStats :=
  {| TotalInferences := TotalInferences st + 1;
     SuccessfulRules := <[ruleName := default 0 (SuccessfulRules st !! ruleName) + 1]> (SuccessfulRules st);
     FailedRules := FailedRules st |}.

Definition RecordFailure (ruleName : string) (st : InferenceStats) : InferenceStats :=
  {| TotalInferences := TotalInferences st;
     SuccessfulRules := SuccessfulRules st;
     FailedRules := <[ruleName := default 0 (FailedRules st !! ruleName) + 1]> (FailedRules st) |}.

End inference.

(* ===================================================================== *)
(** * Package [agents]                                                   *)
(* ===================================================================== *)
Module agents.
Import atomspace.

Inductive AgentState : Type :=
| AgentStateIdle
| AgentStateRunning
| AgentStateStopped
| AgentStateError.

Record BaseAgent : Type := mkBaseAgent {
  ID : string;
  Name : string;
  TenantID : string;
  Priority : Z;
  State : AgentState;
  RunCount : Z
}.

(** The two implementations of the [Agent] interface.  The atom space an
    agent works on is shared with its creator and is passed to [Run]. *)
Inductive Agent : Type :=
| MindAgent (b : BaseAgent) (engine : inference.InferenceEngine)
| AttentionAgent (b : BaseAgent) (focusSize : Z).

Definition agentBase (a : Agent) : BaseAgent :=
  match a with
  | MindAgent b _ => b
  | AttentionAgent b _ => b
  end.

Definition GetID (a : Agent) : string := ID (agentBase a).
Definition GetName (a : Agent) : string := Name (agentBase a).
Definition GetTenantID (a : Agent) : string := TenantID (agentBase a).
Definition GetPriority (a : Agent) : Z := Priority (agentBase a).

Definition NewMindAgent (id name tenantID : string)
    (inferenceEngine : inference.InferenceEngine) : Agent :=
  MindAgent {| ID := id; Name := name; TenantID := tenantID; Priority := 10;
               State := AgentStateIdle; RunCount := 0 |} inferenceEngine.

Definition NewAttentionAgent (id name tenantID : string) : Agent :=
  AttentionAgent {| ID := id; Name := name; TenantID := tenantID; Priority := 8;
                    State := AgentStateIdle; RunCount := 0 |} 100.

(** The deferred function of both [Run] methods runs last: it counts the
    run and sets the state to idle. *)
Definition finishRun (b : BaseAgent) : BaseAgent :=
  {| ID := ID b; Name := Name b; TenantID := TenantID b; Priority := Priority b;
     State := AgentStateIdle; RunCount := RunCount b + 1 |}.

(** The first statement of both [Run] methods. *)
Definition startRun (b : BaseAgent) : BaseAgent :=
  {| ID := ID b; Name := Name b; TenantID := TenantID b; Priority := Priority b;
     State := AgentStateRunning; RunCount := RunCount b |}.

(* ---- int16 and float64 conversions of the attention update ---- *)

(** Reduction of an integer to [int16]. *)
Definition wrap16 (z : Z) : Z := (z + 32768) mod 65536 - 32768.

(** [float64(x)] for an [int16] [x]; the conversion is exact. *)
Definition float64_of_int16 (z : Z) : float :=
  if z <? 0 then (- PrimFloat.of_uint63 (Uint63.of_Z (- z)))%float
  else PrimFloat.of_uint63 (Uint63.of_Z z).

(** The integer part of a finite [float64], rounding toward zero, which
    is what a Go conversion to an integer type does. *)
Definition truncate (f : float) : Z :=
  match Prim2SF f with
  | S754_finite sign m e =>
      let magnitude := match e with
                       | Z0 => Zpos m
                       | Zpos p => Z.shiftl (Zpos m) (Zpos p)
                       | Zneg p => Z.shiftr (Zpos m) (Zpos p)
                       end in
      if sign then - magnitude else magnitude
  | _ => 0
  end.

Definition int16_of_float64 (f : float) : Z := wrap16 (truncate f).

(** [int16(float64(sti) * 0.95)]. *)
Definition decay (sti : Z) : Z := int16_of_float64 (float64_of_int16 sti * 0.95)%float.

(** The attention value [AttentionAgent.Run] writes back for one atom. *)
Definition attend (atom : Atom) : AttentionValue :=
  let av := GetAttentionValue atom in
  let sti := decay (STI av) in
  let tv := GetTruthValue atom in
  if (0.8 <? Strength tv)%float && (0.8 <? Confidence tv)%float
  then mkAttentionValue (wrap16 (sti + 10)) (wrap16 (LTI av + 1)) (VLTI av)
  else mkAttentionValue sti (LTI av) (VLTI av).

Section Run.
Context {S P : Type} `{AtomSpaceInterface S P}.

(** The loop of [AttentionAgent.Run] over the pointers [QueryAtoms] returned. *)
Definition attendAll (atoms : list P) (s : S) : S :=
  fold_left (fun s p =>
               match deref s p with
               | Some atom => assign p (SetAttentionValue (attend atom) atom) s
               | None => s
               end)
            atoms s.

Definition AttentionAgent_Run (ord : Order P) (b : BaseAgent) (s : S)
    : S * BaseAgent * option Error :=
  let atoms := QueryAtoms ord (TenantID b) None s in
  (attendAll atoms s, finishRun b, None).

(** [MindAgent.Run]: one inference cycle with cap 5.  On an error the
    state is set to [AgentStateError] before the deferred function sets
    it to idle.  When the call of [RunInference] does not return
    ([StopBlocked]) neither does [Run]: the deferred function is not
    reached and the agent is left in the running state. *)
Definition MindAgent_Run (sc : inference.Sched P) (b : BaseAgent)
    (engine : inference.InferenceEngine) (s : S) : S * BaseAgent * option Error :=
  let out := inference.RunInference sc engine (TenantID b) 5 s in
  match inference.stop out with
  | inference.StopBlocked => (inference.final out, startRun b, None)
  | _ => (inference.final out, finishRun b, inference.error out)
  end.

(** [Run] through the interface. *)
Definition Run (sc : inference.Sched P) (ord : Order P) (a : Agent) (s : S)
    : S * Agent * option Error :=
  match a with
  | MindAgent b engine =>
      let '(s', b', e) := MindAgent_Run sc b engine s in (s', MindAgent b' engine, e)
  | AttentionAgent b focusSize =>
      let '(s', b', e) := AttentionAgent_Run ord b s in (s', AttentionAgent b' focusSize, e)
  end.

End Run.

(* ---- AgentScheduler ---- *)

(** The scheduler with the messages that wait on its two channels,
    oldest first.  [RegisterAgent] and [UnregisterAgent] only send; the
    goroutine [manage] receives and changes the registry. *)
Record AgentScheduler : Type := mkScheduler {
  agents : gmap string Agent;
  priority : list Agent;          (* sorted by priority *)
  registerChan : list Agent;
  unregisterChan : list string;
  workers : Z
}.

Definition NewAgentScheduler (workers : Z) : AgentScheduler :=
  {| agents := ∅; priority := []; registerChan := []; unregisterChan := [];
     workers := workers |}.

(** The body of the inner sorting loop: exchange the entries at [i] and
    [j] when the first has the lower priority. *)
Definition exchange (i j : nat) (p : list Agent) : list Agent :=
  match p !! i, p !! j with
  | Some a_i, Some a_j =>
      if GetPriority a_i <? GetPriority a_j then <[j := a_i]> (<[i := a_j]> p) else p
  | _, _ => p
  end.

(** [for j := i + 1; j < len(p); j++]. *)
Definition innerLoop (i : nat) (p : list Agent) : list Agent :=
  fold_left (fun p j => exchange i j p) (seq (i + 1) (length p - (i + 1))) p.

(** [for i := 0; i < len(p); i++]. *)
Definition sortByPriority (p : list Agent) : list Agent :=
  fold_left (fun p i => innerLoop i p) (seq 0 (length p)) p.

(** [rebuildPriorityQueue]: the agents of the map, in the order [ord] in
    which the map is ranged over, then sorted. *)
Definition rebuildPriorityQueue (ord : Order Agent) (sch : AgentScheduler) : AgentScheduler :=
  {| agents := agents sch;
     priority := sortByPriority (ord (List.map snd (map_to_list (agents sch))));
     registerChan := registerChan sch; unregisterChan := unregisterChan sch;
     workers := workers sch |}.

Definition registerInternal (ord : Order Agent) (agent : Agent) (sch : AgentScheduler)
    : AgentScheduler :=
  rebuildPriorityQueue ord
    {| agents := <[GetID agent := agent]> (agents sch); priority := priority sch;
       registerChan := registerChan sch; unregisterChan := unregisterChan sch;
       workers := workers sch |}.

Definition unregisterInternal (ord : Order Agent) (agentID : string) (sch : AgentScheduler)
    : AgentScheduler :=
  rebuildPriorityQueue ord
    {| agents := delete agentID (agents sch); priority := priority sch;
       registerChan := registerChan sch; unregisterChan := unregisterChan sch;
       workers := workers sch |}.

(** [RegisterAgent] sends the agent to [registerChan] and returns: the
    registry is as it was.  (The channel holds 100 messages; the send is
    modelled for a channel with room.) *)
Definition RegisterAgent (agent : Agent) (sch : AgentScheduler) : AgentScheduler :=
  {| agents := agents sch; priority := priority sch;
     registerChan := registerChan sch ++ [agent]; unregisterChan := unregisterChan sch;
     workers := workers sch |}.

(** [UnregisterAgent] sends the id to [unregisterChan] and returns. *)
Definition UnregisterAgent (agentID : string) (sch : AgentScheduler) : AgentScheduler :=
  {| agents := agents sch; priority := priority sch;
     registerChan := registerChan sch; unregisterChan := unregisterChan sch ++ [agentID];
     workers := workers sch |}.

Definition SpawnAgent (agent : Agent) (sch : AgentScheduler) : AgentScheduler * option Error :=
  (RegisterAgent agent sch, None).

Definition TerminateAgent (agentID : string) (sch : AgentScheduler)
    : AgentScheduler * option Error :=
  (UnregisterAgent agentID sch, None).

(** The two receiving cases of the [select] in [manage]: the oldest
    message is taken from its channel and served. *)
Definition serveRegister (ord : Order Agent) (sch : AgentScheduler) : AgentScheduler :=
  match registerChan sch with
  | [] => sch
  | agent :: waiting =>
      registerInternal ord agent
        {| agents := agents sch; priority := priority sch;
           registerChan := waiting; unregisterChan := unregisterChan sch;
           workers := workers sch |}
  end.

Definition serveUnregister (ord : Order Agent) (sch : AgentScheduler) : AgentScheduler :=
  match unregisterChan sch with
  | [] => sch
  | agentID :: waiting =>
      unregisterInternal ord agentID
        {| agents := agents sch; priority := priority sch;
           registerChan := registerChan sch; unregisterChan := waiting;
           workers := workers sch |}
  end.

(** [scheduleAgents] copies the priority list and submits a run request
    for each agent in turn, awaiting each: the agents in dispatch order. *)
Definition scheduleAgents (sch : AgentScheduler) : list Agent :=
  firstn (length (priority sch)) (priority sch).

Definition GetAgent (agentID : string) (sch : AgentScheduler) : option Agent :=
  agents sch !! agentID.

Definition GetAgentsByTenant (ord : Order Agent) (tenantID : string) (sch : AgentScheduler)
    : list Agent :=
  List.filter (fun agent => bool_decide (GetTenantID agent = tenantID))
              (ord (List.map snd (map_to_list (agents sch)))).

Definition GetAllAgents (ord : Order Agent) (sch : AgentScheduler) : list Agent :=
  ord (List.map snd (map_to_list (agents sch))).

(** A sequence of registrations, each with the map order its rebuild meets. *)
Definition registerAll (regs : list (Order Agent * Agent)) (sch : AgentScheduler)
    : AgentScheduler :=
  fold_left (fun sch '(ord, agent) => registerInternal ord agent sch) regs sch.

(** The cases of the [select] in [manage], each with the orders its
    service meets. *)
Inductive Event (P : Type) : Type :=
| OnRegister (ord : Order Agent)      (* case agent := <-as.registerChan *)
| OnUnregister (ord : Order Agent)    (* case agentID := <-as.unregisterChan *)
| OnTick (scs : nat -> inference.Sched P) (ords : nat -> Order P).   (* case <-ticker.C *)
Arguments OnRegister {P}.
Arguments OnUnregister {P}.
Arguments OnTick {P}.

Section Manage.
Context {S P : Type} `{AtomSpaceInterface S P}.

(** One run request of [scheduleAgents], served by a worker of the
    scheduler: the agent at position [k] of the dispatch list runs on the
    atom space.  The dispatch list holds the objects of the registry
    ([rebuildPriorityQueue]), so the state and the run count that [Run]
    writes show under the agent's id as well. *)
Definition runAt (sc : inference.Sched P) (ord : Order P) (k : nat)
    (st : AgentScheduler * S) : AgentScheduler * S :=
  match priority (fst st) !! k with
  | None => st
  | Some agent =>
      let '(s', agent', _) := Run sc ord agent (snd st) in
      ({| agents := alter (fun _ => agent') (GetID agent) (agents (fst st));
          priority := <[k := agent']> (priority (fst st));
          registerChan := registerChan (fst st);
          unregisterChan := unregisterChan (fst st);
          workers := workers (fst st) |},
       s')
  end.

(** The ticker case of [manage], every 100 ms: [scheduleAgents] submits
    a run request for each agent of the dispatch list in turn and waits
    for the answer, for 5 s at most.  [scs k] and [ords k] are what the
    run of the agent at position [k] meets; the end of the 5 s shows in
    [ctxDone (scs k)].  A scheduler made with no worker runs no agent.
    Each run is taken to have ended when the next begins; the requests
    that wait in [runChan] and the worker that a run which does not
    return keeps busy are not counted. *)
Definition tick (scs : nat -> inference.Sched P) (ords : nat -> Order P)
    (st : AgentScheduler * S) : AgentScheduler * S :=
  if workers (fst st) <=? 0 then st
  else fold_left (fun st k => runAt (scs k) (ords k) k st)
                 (seq 0 (length (priority (fst st)))) st.

(** One turn of the loop of [manage]. *)
Definition manage (ev : Event P) (st : AgentScheduler * S) : AgentScheduler * S :=
  match ev with
  | OnRegister ord => (serveRegister ord (fst st), snd st)
  | OnUnregister ord => (serveUnregister ord (fst st), snd st)
  | OnTick scs ords => tick scs ords st
  end.

End Manage.

End agents.

(* ===================================================================== *)
(** * Package [pipeline]: pipeline.go                                    *)
(* ===================================================================== *)
Module pipeline.
Import atomspace.

Inductive PipelineState : Type :=
| PipelineStateCreated
| PipelineStateRunning
| PipelineStateCompleted
| PipelineStateFailed
| PipelineStatePaused.

(** The [interface{}] values that travel between stages: nothing, a
    slice of atoms, or a value of some other type. *)
Inductive Value : Type :=
| VNil
| VAtoms (atoms : list Atom)
| VOther (typeName : string).

(** [PipelineStage] over a world [W] that the stages act on. *)
Record PipelineStage (W : Type) : Type := mkStage {
  GetName : string;
  Execute : Value -> W -> W * (Value + Error)
}.
Arguments GetName {W}.
Arguments Execute {W}.

Record Pipeline (W : Type) : Type := mkPipeline {
  ID : string;
  Name : string;
  TenantID : string;
  Stages : list (PipelineStage W);
  State : PipelineState
}.
Arguments ID {W}.
Arguments Name {W}.
Arguments TenantID {W}.
Arguments Stages {W}.
Arguments State {W}.

Definition NewPipeline {W : Type} (id name tenantID : string) : Pipeline W :=
  {| ID := id; Name := name; TenantID := tenantID; Stages := [];
     State := PipelineStateCreated |}.

Definition setState {W : Type} (st : PipelineState) (p : Pipeline W) : Pipeline W :=
  {| ID := ID p; Name := Name p; TenantID := TenantID p; Stages := Stages p; State := st |}.

Definition AddStage {W : Type} (stage : PipelineStage W) (p : Pipeline W) : Pipeline W :=
  {| ID := ID p; Name := Name p; TenantID := TenantID p;
     Stages := Stages p ++ [stage]; State := State p |}.

(** The loop of [Pipeline.Execute] from stage number [i] on; [ctxDone i]
    tells whether the context is done when stage [i] is reached.  The
    result is the world, the final pipeline state and what is returned. *)
Fixpoint runStages {W : Type} (ctxDone : nat -> bool) (stages : list (PipelineStage W))
    (i : nat) (currentInput : Value) (w : W) : W * PipelineState * (Value + Error) :=
  match stages with
  | [] => (w, PipelineStateCompleted, inl currentInput)
  | stage :: rest =>
      if ctxDone i then (w, PipelineStateFailed, inr (ErrPipelineCancelled (Z.of_nat i)))
      else
        match Execute stage currentInput w with
        | (w', inr e) => (w', PipelineStateFailed, inr (ErrStageFailed (GetName stage) e))
        | (w', inl output) => runStages ctxDone rest (Datatypes.S i) output w'
        end
  end.

(** [Pipeline.Execute]: the state is [Running] while the stages run. *)
Definition PipelineExecute {W : Type} (ctxDone : nat -> bool) (initialInput : Value)
    (p : Pipeline W) (w : W) : W * Pipeline W * (Value + Error) :=
  let '(w', st, r) := runStages ctxDone (Stages (setState PipelineStateRunning p)) 0 initialInput w in
  (w', setState st p, r).

(* ---- the stages over an atom space ---- *)
Section Stages.
Context {S P : Type} `{AtomSpaceInterface S P}.

(** [AtomIngestionStage]: adds every atom and ignores the errors. *)
Definition AtomIngestionStage_Execute (input : Value) (s : S) : S * (Value + Error) :=
  match input with
  | VAtoms atoms =>
      (fold_left (fun s atom => fst (AddAtom atom s)) atoms s, inl (VAtoms atoms))
  | _ => (s, inr ErrBadInput)
  end.

Definition NewAtomIngestionStage (tenantID : string) : PipelineStage S :=
  {| GetName := "atom-ingestion"; Execute := AtomIngestionStage_Execute |}.

(** [InferenceStage], for a call of [RunInference] that returns. *)
Definition InferenceStage_Execute (sc : inference.Sched P) (engine : inference.InferenceEngine)
    (tenantID : string) (maxIterations : Z) (input : Value) (s : S) : S * (Value + Error) :=
  let out := inference.RunInference sc engine tenantID maxIterations s in
  match inference.error out with
  | Some e => (inference.final out, inr e)
  | None => (inference.final out, inl (VAtoms (inference.allNewAtoms out)))
  end.

Definition NewInferenceStage (sc : inference.Sched P) (engine : inference.InferenceEngine)
    (tenantID : string) (maxIterations : Z) : PipelineStage S :=
  {| GetName := "inference";
     Execute := InferenceStage_Execute sc engine tenantID maxIterations |}.

(** The attention value [AttentionAllocationStage] writes back: a boost
    of 5 for a confidence above 0.8, then the decay. *)
Definition allocate (atom : Atom) : AttentionValue :=
  let av := GetAttentionValue atom in
  let tv := GetTruthValue atom in
  let sti := if (0.8 <? Confidence tv)%float then agents.wrap16 (STI av + 5) else STI av in
  mkAttentionValue (agents.decay sti) (LTI av) (VLTI av).

Definition AttentionAllocationStage_Execute (ord : Order P) (tenantID : string)
    (input : Value) (s : S) : S * (Value + Error) :=
  let atoms := QueryAtoms ord tenantID None s in
  let s' := fold_left (fun s p =>
                         match deref s p with
                         | Some atom => assign p (SetAttentionValue (allocate atom) atom) s
                         | None => s
                         end)
                      atoms s in
  (s', inl (VAtoms (values s' atoms))).

Definition NewAttentionAllocationStage (ord : Order P) (tenantID : string) : PipelineStage S :=
  {| GetName := "attention-allocation";
     Execute := AttentionAllocationStage_Execute ord tenantID |}.

End Stages.

(* ---- PipelineOrchestrator ---- *)

(** The orchestrator with the ids that wait on [deleteChan], oldest
    first: [DeletePipeline] only sends, the goroutine [manage] deletes. *)
Record PipelineOrchestrator (W : Type) : Type := mkOrchestrator {
  pipelines : gmap string (Pipeline W);
  deleteChan : list string;
  workers : Z
}.
Arguments pipelines {W}.
Arguments deleteChan {W}.
Arguments workers {W}.

Definition NewPipelineOrchestrator {W : Type} (workers : Z) : PipelineOrchestrator W :=
  {| pipelines := ∅; deleteChan := []; workers := workers |}.

Definition createPipelineInternal {W : Type} (p : Pipeline W) (po : PipelineOrchestrator W)
    : PipelineOrchestrator W * option Error :=
  match pipelines po !! ID p with
  | Some _ => (po, Some (ErrPipelineExists (ID p)))
  | None => ({| pipelines := <[ID p := p]> (pipelines po); deleteChan := deleteChan po;
                workers := workers po |}, None)
  end.

Definition GetPipeline {W : Type} (pipelineID : string) (po : PipelineOrchestrator W)
    : Pipeline W + Error :=
  match pipelines po !! pipelineID with
  | Some p => inl p
  | None => inr (ErrPipelineNotFound pipelineID)
  end.

Definition deletePipelineInternal {W : Type} (pipelineID : string)
    (po : PipelineOrchestrator W) : PipelineOrchestrator W :=
  {| pipelines := delete pipelineID (pipelines po); deleteChan := deleteChan po;
     workers := workers po |}.

(** [DeletePipeline] sends the id to [deleteChan] and returns: the
    registry is as it was.  (The channel holds 100 ids; the send is
    modelled for a channel with room.) *)
Definition DeletePipeline {W : Type} (pipelineID : string)
    (po : PipelineOrchestrator W) : PipelineOrchestrator W :=
  {| pipelines := pipelines po; deleteChan := deleteChan po ++ [pipelineID];
     workers := workers po |}.

(** The deleting case of the [select] in [manage]: the oldest id is
    taken from the channel and deleted. *)
Definition serveDelete {W : Type} (po : PipelineOrchestrator W) : PipelineOrchestrator W :=
  match deleteChan po with
  | [] => po
  | pipelineID :: waiting =>
      deletePipelineInternal pipelineID
        {| pipelines := pipelines po; deleteChan := waiting; workers := workers po |}
  end.

Definition GetPipelinesByTenant {W : Type} (ord : Order (Pipeline W)) (tenantID : string)
    (po : PipelineOrchestrator W) : list (Pipeline W) :=
  List.filter (fun p => bool_decide (TenantID p = tenantID))
              (ord (List.map snd (map_to_list (pipelines po)))).

(** [ExecutePipeline] as the worker serves it; the pipeline object in the
    registry is the one that is executed, so its state changes there. *)
Definition ExecutePipeline {W : Type} (ctxDone : nat -> bool) (pipelineID : string)
    (input : Value) (po : PipelineOrchestrator W) (w : W)
    : W * PipelineOrchestrator W * (Value + Error) :=
  match pipelines po !! pipelineID with
  | None => (w, po, inr (ErrPipelineNotFound pipelineID))
  | Some p =>
      let '(w', p', r) := PipelineExecute ctxDone input p w in
      (w', {| pipelines := <[pipelineID := p']> (pipelines po); deleteChan := deleteChan po;
              workers := workers po |}, r)
  end.

End pipeline.

(* ===================================================================== *)
(** * Package [cognitive]: the facade                                    *)
(* ===================================================================== *)
Module cognitive.
Import atomspace.

Record Config : Type := mkConfig {
  NumShards : Z;
  WorkersPerShard : Z;
  InferenceWorkers : Z;
  AgentWorkers : Z;
  PipelineWorkers : Z
}.

Definition DefaultConfig : Config :=
  {| NumShards := 8; WorkersPerShard := 4; InferenceWorkers := 16;
     AgentWorkers := 8; PipelineWorkers := 8 |}.

Record CognitiveEngine : Type := mkCognitiveEngine {
  shardManager : sharding.ShardManager;
  inferenceEngines : gmap string inference.InferenceEngine;   (* tenantID -> engine *)
  agentScheduler : agents.AgentScheduler;
  pipelineOrch : pipeline.PipelineOrchestrator sharding.ShardManager;
  config : Config
}.

Definition NewCognitiveEngine (cfg : option Config) : CognitiveEngine :=
  let cfg := default DefaultConfig cfg in
  {| shardManager := sharding.NewShardManager (NumShards cfg);
     inferenceEngines := ∅;
     agentScheduler := agents.NewAgentScheduler (AgentWorkers cfg);
     pipelineOrch := pipeline.NewPipelineOrchestrator (PipelineWorkers cfg);
     config := cfg |}.

Definition withShardManager (sm : sharding.ShardManager) (ce : CognitiveEngine)
    : CognitiveEngine :=
  {| shardManager := sm; inferenceEngines := inferenceEngines ce;
     agentScheduler := agentScheduler ce; pipelineOrch := pipelineOrch ce;
     config := config ce |}.

(** The engine [InitializeTenant] builds: the three default rules in
    this order. *)
Definition defaultEngine (workers : Z) : inference.InferenceEngine :=
  inference.AddRule inference.NewAbductionRule
    (inference.AddRule inference.NewInductionRule
       (inference.AddRule inference.NewDeductionRule
          (inference.NewInferenceEngine workers))).

(** [InitializeTenant]: the engine is installed at once; the mind agent
    is handed to [RegisterAgent], which only sends it to the scheduler's
    channel, so the registry is as it was when [InitializeTenant]
    returns. *)
Definition InitializeTenant (tenantID : string)
    (ce : CognitiveEngine) : CognitiveEngine * option Error :=
  match inferenceEngines ce !! tenantID with
  | Some _ => (ce, Some (ErrTenantExists tenantID))
  | None =>
      let inferenceEngine := defaultEngine (InferenceWorkers (config ce)) in
      let mindAgent :=
        agents.NewMindAgent (String.append "mind-" tenantID) "MindAgent" tenantID inferenceEngine in
      ({| shardManager := shardManager ce;
          inferenceEngines := <[tenantID := inferenceEngine]> (inferenceEngines ce);
          agentScheduler := agents.RegisterAgent mindAgent (agentScheduler ce);
          pipelineOrch := pipelineOrch ce;
          config := config ce |},
       None)
  end.

(** One turn of the scheduler's [manage] goroutine, which runs beside
    the calls of the facade: it serves a registration, an unregistration
    or a tick; the agents work on the shard manager of the engine. *)
Definition manage (ev : agents.Event (nat * nat)) (ce : CognitiveEngine) : CognitiveEngine :=
  let st := agents.manage ev (agentScheduler ce, shardManager ce) in
  {| shardManager := snd st;
     inferenceEngines := inferenceEngines ce;
     agentScheduler := fst st;
     pipelineOrch := pipelineOrch ce;
     config := config ce |}.

Definition AddAtom (atom : Atom) (ce : CognitiveEngine) : CognitiveEngine * option Error :=
  let (sm, e) := sharding.AddAtom atom (shardManager ce) in (withShardManager sm ce, e).

Definition GetAtom (atomID tenantID : string) (ce : CognitiveEngine) : (nat * nat) + Error :=
  sharding.GetAtom atomID tenantID (shardManager ce).

Definition QueryAtoms (ord : Order (nat * nat)) (tenantID : string)
    (filter : option (Atom -> bool)) (ce : CognitiveEngine) : list (nat * nat) :=
  sharding.QueryAtoms ord tenantID filter (shardManager ce).

Definition UpdateAtom (atomID tenantID : string) (updater : Atom -> Atom * option Error)
    (ce : CognitiveEngine) : CognitiveEngine * option Error :=
  let (sm, e) := sharding.UpdateAtom atomID tenantID updater (shardManager ce) in
  (withShardManager sm ce, e).

Definition DeleteAtom (atomID tenantID : string) (ce : CognitiveEngine)
    : CognitiveEngine * option Error :=
  let (sm, e) := sharding.DeleteAtom atomID tenantID (shardManager ce) in
  (withShardManager sm ce, e).

(** [RunInference] of the facade: the new atoms and the error, for a
    call of the engine that returns and that no run of the tenant's mind
    agent overlaps (the scheduler's runs between the calls are turns of
    [manage]). *)
Definition RunInference (sc : inference.Sched (nat * nat)) (tenantID : string)
    (maxIterations : Z) (ce : CognitiveEngine)
    : CognitiveEngine * (list Atom * option Error) :=
  match inferenceEngines ce !! tenantID with
  | None => (ce, ([], Some (ErrTenantNotInitialized tenantID)))
  | Some inferenceEngine =>
      let out := inference.RunInference sc inferenceEngine tenantID maxIterations
                                        (shardManager ce) in
      (withShardManager (inference.final out) ce,
       (inference.allNewAtoms out, inference.error out))
  end.

(** [CreateConceptNode]: the node on success. *)
Definition CreateConceptNode (name tenantID : string) (ce : CognitiveEngine)
    : CognitiveEngine * (Atom + Error) :=
  let atomID := GenerateAtomID ConceptNodeType name [] in
  let node := NewNode atomID name tenantID ConceptNodeType in
  match AddAtom node ce with
  | (ce', Some e) => (ce', inr e)
  | (ce', None) => (ce', inl node)
  end.

(** [CreateInheritanceLink]: both ends are fetched for the tenant, then
    the link is built over them and added. *)
Definition CreateInheritanceLink (sourceID targetID tenantID : string)
    (ce : CognitiveEngine) : CognitiveEngine * (Atom + Error) :=
  match GetAtom sourceID tenantID ce with
  | inr e => (ce, inr (ErrSourceNotFound e))
  | inl ps =>
      match GetAtom targetID tenantID ce with
      | inr e => (ce, inr (ErrTargetNotFound e))
      | inl pt =>
          match sharding.deref (shardManager ce) ps, sharding.deref (shardManager ce) pt with
          | Some source, Some target =>
              let outgoing := [source; target] in
              let atomID := GenerateAtomID InheritanceLinkType "inheritance" outgoing in
              let link := NewLink atomID "inheritance" tenantID InheritanceLinkType outgoing in
              match AddAtom link ce with
              | (ce', Some e) => (ce', inr e)
              | (ce', None) => (ce', inl link)
              end
          | _, _ => (ce, inr ErrPanic)
          end
      end
  end.

(** [Health]: the number of tenants and of shards reported. *)
Definition Health (ce : CognitiveEngine) : Z * Z :=
  (Z.of_nat (size (inferenceEngines ce)), NumShards (config ce)).

End cognitive.

(* ===================================================================== *)
(** * Notions used to state the properties                               *)
(* ===================================================================== *)
Module props.
Import atomspace.

(** The range the comments of [TruthValue] give for both fields. *)
Definition inUnit (x : float) : bool := (0 <=? x)%float && (x <=? 1)%float.

Definition validTruthValue (tv : TruthValue) : bool :=
  inUnit (Strength tv) && inUnit (Confidence tv).

(** The operations that can put a truth value into a store: [AddAtom],
    [UpdateAtom], and [SetTruthValue] called on a pointer to a stored
    atom. *)
Inductive Op : Type :=
| OpAddAtom (atom : Atom)
| OpUpdateAtom (atomID tenantID : string) (updater : Atom -> Atom * option Error)
| OpSetTruthValue (l : nat) (tv : TruthValue).

Definition perform (op : Op) (s : AtomSpace) : AtomSpace * option Error :=
  match op with
  | OpAddAtom atom => addAtomInternal atom s
  | OpUpdateAtom atomID tenantID updater => updateAtomInternal atomID tenantID updater s
  | OpSetTruthValue l tv =>
      match load s l with
      | Some atom => (store l (SetTruthValue tv atom) s, None)
      | None => (s, None)
      end
  end.

Definition performAll (ops : list Op) (s : AtomSpace) : AtomSpace :=
  fold_left (fun s op => fst (perform op s)) ops s.

(** An operation that hands over truth values of the range only. *)
Definition suppliesValid (op : Op) : Prop :=
  match op with
  | OpAddAtom atom => validTruthValue (GetTruthValue atom) = true
  | OpUpdateAtom _ _ updater =>
      forall atom, validTruthValue (GetTruthValue atom) = true ->
                   validTruthValue (GetTruthValue (fst (updater atom))) = true
  | OpSetTruthValue _ tv => validTruthValue tv = true
  end.

(** [stored sm a p]: the manager holds the object [a] at the pointer
    [p], in the shard its own id and tenant route to, under its id. *)
Definition stored (sm : sharding.ShardManager) (a : Atom) (p : nat * nat) : Prop :=
  fst p = Z.to_nat (sharding.GetShardID sm (GetID a) (GetTenantID a)) /\
  match sharding.shards sm !! fst p with
  | Some shard => atoms (sharding.Space shard) !! GetID a
  | None => None
  end = Some (snd p) /\
  sharding.deref sm p = Some a.

(** The results the three default rules hand back for a snapshot, in
    dispatch order: a rule whose guard fails submits no task. *)
Definition defaultResults (range : Order (string * list Atom)) (atoms : list Atom)
    : list inference.inferenceResult :=
  (if inference.DeductionRule_CanApply atoms
   then [inference.mkResult (inference.chainLinks (inference.inheritanceLinks atoms))
                            None "deduction"]
   else []) ++
  (if inference.InductionRule_CanApply atoms
   then [inference.mkResult
           (inference.similarityLinks range
              (inference.targetGroups (inference.inheritanceLinks atoms)))
           None "induction"]
   else []) ++
  (if inference.AbductionRule_CanApply atoms
   then [inference.mkResult [] None "abduction"]
   else []).

(** The low three bits of one step of the routing hash: the state and
    the byte are combined and multiplied by the prime, which is 3 modulo 8. *)
Definition lowStep (v b : Z) : Z := (Z.lxor v b * 3) mod 8.

(** A character as the byte the hash consumes. *)
Definition byte (c : ascii) : Z := Z.of_N (N_of_ascii c).

(** Every atom object of a store has a truth value of the range. *)
Definition allValid (s : AtomSpace) : Prop :=
  Forall (fun a => validTruthValue (GetTruthValue a) = true) (cells s).

(** The collection loop of [RunInference] from any state. *)
Definition collectFrom {S P : Type} `{AtomSpaceInterface S P}
    (results : list inference.inferenceResult) (st : S * list Atom) : S * list Atom :=
  fold_left (fun st result =>
               match inference.err result with
               | Some _ => st
               | None => inference.reinsertAtoms (inference.newAtoms result) st
               end) results st.

(** The snapshot of a tenant in the store's own order. *)
Definition snapshot {S P : Type} `{AtomSpaceInterface S P} (tenantID : string) (s : S)
    : list Atom :=
  values s (QueryAtoms (fun l => l) tenantID None s).

(** The snapshot as the default rules see it: its length, the three
    guards and the inheritance links. *)
Definition view {S P : Type} `{AtomSpaceInterface S P} (tenantID : string) (s : S) (n : nat)
    (induction : bool) (links : list Atom) : Prop :=
  length (snapshot tenantID s) = n /\
  inference.DeductionRule_CanApply (snapshot tenantID s) = true /\
  inference.InductionRule_CanApply (snapshot tenantID s) = induction /\
  inference.AbductionRule_CanApply (snapshot tenantID s) = true /\
  inference.inheritanceLinks (snapshot tenantID s) = links.

(** The values of the Go type [int16]. *)
Definition int16 (z : Z) : Prop := -32768 <= z <= 32767.

(** What the maps of a store built by its own operations satisfy: every
    pointer of the primary map names an allocated object, distinct ids
    name distinct objects, and the tenant, type and name indices only
    list atoms of the primary map, under the same pointer. *)
Definition wellFormed (s : AtomSpace) : Prop :=
  (forall id l, atoms s !! id = Some l -> (l < length (cells s))%nat) /\
  (forall id1 id2 l, atoms s !! id1 = Some l -> atoms s !! id2 = Some l -> id1 = id2) /\
  (forall t m id l, byTenant s !! t = Some m -> m !! id = Some l -> atoms s !! id = Some l) /\
  (forall ty m id l, byType s !! ty = Some m -> m !! id = Some l -> atoms s !! id = Some l) /\
  (forall n m id b, indices s !! n = Some m -> m !! id = Some b -> is_Some (atoms s !! id)).

(** [dominated k p]: each of the first [k] agents of [p] has a priority
    at least that of every agent after it. *)
Definition dominated (k : nat) (p : list agents.Agent) : Prop :=
  forall a b x y, (a < k)%nat -> (a < b)%nat -> p !! a = Some x -> p !! b = Some y ->
                  agents.GetPriority y <= agents.GetPriority x.

(** The truth-value test of [AttentionAgent.Run]. *)
Definition important (atom : Atom) : bool :=
  (0.8 <? Strength (GetTruthValue atom))%float && (0.8 <? Confidence (GetTruthValue atom))%float.

(** The requests an [AtomSpace] serves. *)
Inductive Request : Type :=
| ReqAdd (atom : Atom)
| ReqUpdate (atomID tenantID : string) (updater : Atom -> Atom * option Error)
| ReqDelete (atomID tenantID : string).

Definition serve (r : Request) (s : AtomSpace) : AtomSpace * option Error :=
  match r with
  | ReqAdd atom => addAtomInternal atom s
  | ReqUpdate atomID tenantID updater => updateAtomInternal atomID tenantID updater s
  | ReqDelete atomID tenantID => deleteAtomInternal atomID tenantID s
  end.

Definition serveAll (rs : list Request) (s : AtomSpace) : AtomSpace :=
  fold_left (fun s r => fst (serve r s)) rs s.

(** An updater that works through the methods of the [Atom] interface
    can set the truth value and the attention value only: id, tenant,
    type and name stay. *)
Definition keepsIdentity (updater : Atom -> Atom * option Error) : Prop :=
  forall a, GetID (fst (updater a)) = GetID a /\
            GetTenantID (fst (updater a)) = GetTenantID a /\
            GetType (fst (updater a)) = GetType a /\
            GetName (fst (updater a)) = GetName a.

Definition throughInterface (r : Request) : Prop :=
  match r with
  | ReqUpdate _ _ updater => keepsIdentity updater
  | _ => True
  end.

(** The four maps of a store agree: the primary map points to the atom
    of that id, and the tenant, type and name indices hold exactly the
    atoms of the primary map under their tenant, type and name. *)
Definition indexed (s : AtomSpace) : Prop :=
  (forall id l, atoms s !! id = Some l -> exists a, load s l = Some a /\ GetID a = id) /\
  (forall t id l,
      (exists m, byTenant s !! t = Some m /\ m !! id = Some l) <->
      (atoms s !! id = Some l /\ exists a, load s l = Some a /\ GetTenantID a = t)) /\
  (forall ty id l,
      (exists m, byType s !! ty = Some m /\ m !! id = Some l) <->
      (atoms s !! id = Some l /\ exists a, load s l = Some a /\ GetType a = ty)) /\
  (forall n id,
      (exists m b, indices s !! n = Some m /\ m !! id = Some b) <->
      (exists l a, atoms s !! id = Some l /\ load s l = Some a /\ GetName a = n)).

(** The same requests, served by a [ShardManager]. *)
Definition route (r : Request) (sm : sharding.ShardManager)
    : sharding.ShardManager * option Error :=
  match r with
  | ReqAdd atom => sharding.AddAtom atom sm
  | ReqUpdate atomID tenantID updater => sharding.UpdateAtom atomID tenantID updater sm
  | ReqDelete atomID tenantID => sharding.DeleteAtom atomID tenantID sm
  end.

Definition routeAll (rs : list Request) (sm : sharding.ShardManager) : sharding.ShardManager :=
  fold_left (fun sm r => fst (route r sm)) rs sm.

(** A manager in order: it has as many shards as it counts, at least
    one; the maps of every shard agree; the load of a shard is the number
    of atoms it holds; and every atom sits in the shard its id and tenant
    route to. *)
Definition managed (sm : sharding.ShardManager) : Prop :=
  0 < sharding.numShards sm /\
  length (sharding.shards sm) = Z.to_nat (sharding.numShards sm) /\
  forall i shard,
    sharding.shards sm !! i = Some shard ->
    indexed (sharding.Space shard) /\
    sharding.Load shard = Z.of_nat (size (atoms (sharding.Space shard))) /\
    (forall id l a,
        atoms (sharding.Space shard) !! id = Some l ->
        load (sharding.Space shard) l = Some a ->
        Z.to_nat (sharding.GetShardID sm id (GetTenantID a)) = i).

(** [before x y l]: [x] stands in [l] at an earlier position than [y]. *)
Definition before {A : Type} (x y : A) (l : list A) : Prop :=
  exists l1 l2 l3, l = l1 ++ x :: l2 ++ y :: l3.

(** The key under which the induction rule groups a link: the id of its
    second outgoing atom, for a link with exactly two. *)
Definition targetOf (link : Atom) : option string :=
  match GetOutgoing link with
  | [_; target] => Some (GetID target)
  | _ => None
  end.

(** The links of the group of key [k]. *)
Definition grouped (k : string) (link : Atom) : bool := bool_decide (targetOf link = Some k).

(** The shard an atom routes to holds an atom of its id. *)
Definition present (sm : sharding.ShardManager) (a : Atom) : Prop :=
  exists shard,
    sharding.shards sm !! Z.to_nat (sharding.GetShardID sm (GetID a) (GetTenantID a)) = Some shard /\
    is_Some (atoms (sharding.Space shard) !! GetID a).

(** A manager with as many shards as it counts, at least one. *)
Definition sized (sm : sharding.ShardManager) : Prop :=
  0 < sharding.numShards sm /\
  length (sharding.shards sm) = Z.to_nat (sharding.numShards sm).

(** The step of the loop of [needsRebalance]. *)
Definition minmaxStep : Z * Z -> sharding.Shard -> Z * Z :=
  fun '(minLoad, maxLoad) shard =>
    let load := sharding.Load shard in
    let minLoad := if load <? minLoad then load else minLoad in
    let maxLoad := if maxLoad <? load then load else maxLoad in
    (minLoad, maxLoad).

(** Exhaustive check of a predicate on [n] consecutive integers from [z]. *)
Fixpoint allFrom (f : Z -> bool) (n : nat) (z : Z) : bool :=
  match n with
  | O => true
  | S n' => f z && allFrom f n' (z + 1)
  end.

End props.

(* ===================================================================== *)
(** * Concrete runs                                                      *)
(* ===================================================================== *)
Module scenario.
Import atomspace.

(** A schedule that never cancels and keeps every order as it comes. *)
Definition plain {P : Type} : inference.Sched P :=
  {| inference.ctxDone := fun _ => false;
     inference.queryOrder := fun _ l => l;
     inference.rangeOrder := fun _ l => l;
     inference.arrival := fun _ l => l |}.

(** A context that is already cancelled. *)
Definition cancelled {P : Type} : inference.Sched P :=
  {| inference.ctxDone := fun _ => true;
     inference.queryOrder := fun _ l => l;
     inference.rangeOrder := fun _ l => l;
     inference.arrival := fun _ l => l |}.

(** A schedule under which [QueryAtoms] lists the atoms in the reverse order. *)
Definition reversed {P : Type} : inference.Sched P :=
  {| inference.ctxDone := fun _ => false;
     inference.queryOrder := fun _ l => rev l;
     inference.rangeOrder := fun _ l => l;
     inference.arrival := fun _ l => l |}.

(** Transitive deduction: tenant "demo" with the concepts Cat, Mammal and
    Animal and the links Cat -> Mammal and Mammal -> Animal, built
    through the facade. *)
Definition cat : Atom := NewNode (GenerateAtomID ConceptNodeType "Cat" []) "Cat" "demo" ConceptNodeType.
Definition mammal : Atom :=
  NewNode (GenerateAtomID ConceptNodeType "Mammal" []) "Mammal" "demo" ConceptNodeType.
Definition animal : Atom :=
  NewNode (GenerateAtomID ConceptNodeType "Animal" []) "Animal" "demo" ConceptNodeType.

Abbreviation demo :=
  (fst (cognitive.CreateInheritanceLink (GetID mammal) (GetID animal) "demo"
     (fst (cognitive.CreateInheritanceLink (GetID cat) (GetID mammal) "demo"
        (fst (cognitive.CreateConceptNode "Animal" "demo"
           (fst (cognitive.CreateConceptNode "Mammal" "demo"
              (fst (cognitive.CreateConceptNode "Cat" "demo"
                 (fst (cognitive.InitializeTenant "demo"
                    (cognitive.NewCognitiveEngine None))))))))))))).

(** The store of the tenant before inference. *)
Abbreviation demoStore := (cognitive.shardManager demo).

Definition inheritance (source target : Atom) (strength confidence : float) : Atom :=
  SetTruthValue (mkTruthValue strength confidence)
    (NewLink (GenerateAtomID InheritanceLinkType "inheritance" [source; target])
             "inheritance" "demo" InheritanceLinkType [source; target]).

Definition similarity (source1 source2 : Atom) : Atom :=
  SetTruthValue (mkTruthValue 0.7 0.8)
    (NewLink (GenerateAtomID SimilarityLinkType "similarity" [source1; source2])
             "similarity" "demo" SimilarityLinkType [source1; source2]).

Definition catMammal : Atom := inheritance cat mammal 1.0 1.0.
Definition mammalAnimal : Atom := inheritance mammal animal 1.0 1.0.
Definition catAnimal : Atom := inheritance cat animal 1.0 0.9.
Definition simMammalCat : Atom := similarity mammal cat.
Definition simCatMammal : Atom := similarity cat mammal.

(** The same five atoms in an atom space of their own, which no
    cognitive engine and no agent works on, and the atom spaces an
    inference on it passes through. *)
Abbreviation demoSpace :=
  (props.serveAll [props.ReqAdd cat; props.ReqAdd mammal; props.ReqAdd animal;
                   props.ReqAdd catMammal; props.ReqAdd mammalAnimal] NewAtomSpace).
Abbreviation space1 := (fst (addAtomInternal catAnimal demoSpace)).
Abbreviation space2a := (fst (addAtomInternal simMammalCat space1)).
Abbreviation space2b := (fst (addAtomInternal simCatMammal space1)).
Abbreviation space3a := (fst (addAtomInternal simCatMammal space2a)).
Abbreviation space3b := (fst (addAtomInternal simMammalCat space2b)).

(** A link from Cat to itself, as [CreateInheritanceLink] makes it when
    it is given the id of Cat twice. *)
Definition catCat : Atom := inheritance cat cat 1.0 1.0.

(** Tenant isolation: tenants "a" and "b", the concept Cat created in "a". *)
Definition isolation : cognitive.CognitiveEngine * (Atom + Error) :=
  let ce := cognitive.NewCognitiveEngine None in
  let ce := fst (cognitive.InitializeTenant "a" ce) in
  let ce := fst (cognitive.InitializeTenant "b" ce) in
  cognitive.CreateConceptNode "Cat" "a" ce.

Definition catID : string := GenerateAtomID ConceptNodeType "Cat" [].

Definition catA : Atom := NewNode catID "Cat" "a" ConceptNodeType.

(** A node whose strength is 2. *)
Definition overconfident : Atom :=
  SetTruthValue (mkTruthValue 2.0 1.0) (NewNode "n1" "N" "t" ConceptNodeType).

(** Three small nodes: two of tenant "t", one of tenant "u" that shares
    its name with the first. *)
Definition n1 : Atom := NewNode "n1" "N" "t" ConceptNodeType.
Definition n2 : Atom := NewNode "n2" "M" "t" ConceptNodeType.
Definition n3 : Atom := NewNode "n3" "N" "u" ConceptNodeType.

Definition small : AtomSpace :=
  props.serveAll [props.ReqAdd n1; props.ReqAdd n2; props.ReqAdd n3] NewAtomSpace.

(** An updater that sets the truth value. *)
Definition setTruth (tv : TruthValue) : Atom -> Atom * option Error :=
  fun a => (SetTruthValue tv a, None).

(** A store with one atom whose short-term importance is -10. *)
Definition negativeSTI : AtomSpace :=
  fst (AddAtom (SetAttentionValue (mkAttentionValue (-10) 0 0) catA) NewAtomSpace).

Definition attentionAgent : agents.BaseAgent :=
  agents.agentBase (agents.NewAttentionAgent "att-a" "AttentionAgent" "a").

(** Three agents, registered in the order [att1], [att2], [mind]. *)
Definition att1 : agents.Agent := agents.NewAttentionAgent "att-1" "AttentionAgent" "t1".
Definition att2 : agents.Agent := agents.NewAttentionAgent "att-2" "AttentionAgent" "t2".
Definition mind : agents.Agent :=
  agents.NewMindAgent "mind-t1" "MindAgent" "t1" (inference.NewInferenceEngine 16).

(** The map of agents is ranged over in the order of registration. *)
Definition inRegistrationOrder : Order agents.Agent := fun _ => [att1; att2; mind].

Definition threeAgents : agents.AgentScheduler :=
  agents.registerAll [((fun l => l), att1); ((fun l => l), att2); (inRegistrationOrder, mind)]
                     (agents.NewAgentScheduler 8).

End scenario.

(* ===================================================================== *)
(** * Properties                                                         *)
(* ===================================================================== *)

Import atomspace.
Import props.

(** ** Routing: the low bits of FNV-1a *)

Lemma bytes_of_append (a b : string) :
  Sha256.bytes_of (String.append a b) = Sha256.bytes_of a ++ Sha256.bytes_of b.
Proof.
  unfold Sha256.bytes_of.
  induction a as [|c a IH]; simpl; [reflexivity|].
  f_equal. exact IH.
Qed.

Lemma land_lxor_distr (a b c : Z) :
  Z.land (Z.lxor a b) c = Z.lxor (Z.land a c) (Z.land b c).
Proof.
  apply Z.bits_inj'. intros n Hn.
  rewrite Z.land_spec, !Z.lxor_spec, !Z.land_spec.
  destruct (Z.testbit a n), (Z.testbit b n), (Z.testbit c n); reflexivity.
Qed.

Lemma mod8_land (x : Z) : x mod 8 = Z.land x 7.
Proof. symmetry. apply (Z.land_ones x 3). lia. Qed.

(** One step of the hash, seen modulo 8: only the low three bits of the
    state and of the byte matter. *)
Lemma step_mod8 (h b : Z) :
  Fnv.step h b mod 8 = (Z.lxor (h mod 8) (b mod 8) * 3) mod 8.
Proof.
  unfold Fnv.step, Fnv.two64.
  rewrite Z.mod_mod_divide by (exists (2 ^ 61); reflexivity).
  rewrite Z.mul_mod by lia.
  rewrite (mod8_land (Z.lxor h b)), land_lxor_distr, <- !mod8_land.
  reflexivity.
Qed.

Lemma lowStep_inj_check :
  forallb (fun b => forallb (fun v => forallb (fun w =>
     implb (lowStep v b =? lowStep w b) (v =? w))
     [0;1;2;3;4;5;6;7]) [0;1;2;3;4;5;6;7]) [0;1;2;3;4;5;6;7] = true.
Proof. vm_compute. reflexivity. Qed.

Lemma lowByte_inj_check :
  forallb (fun v => forallb (fun b => forallb (fun b' =>
     implb (lowStep v b =? lowStep v b') (b =? b'))
     [0;1;2;3;4;5;6;7]) [0;1;2;3;4;5;6;7]) [0;1;2;3;4;5;6;7] = true.
Proof. vm_compute. reflexivity. Qed.

Lemma in_range8 (x : Z) : In (x mod 8) [0;1;2;3;4;5;6;7].
Proof.
  pose proof (Z.mod_pos_bound x 8 ltac:(lia)) as Hb.
  simpl.
  assert (x mod 8 = 0 \/ x mod 8 = 1 \/ x mod 8 = 2 \/ x mod 8 = 3 \/
          x mod 8 = 4 \/ x mod 8 = 5 \/ x mod 8 = 6 \/ x mod 8 = 7) by lia.
  intuition.
Qed.

Lemma lowStep_inj_state (h h' b : Z) :
  lowStep (h mod 8) (b mod 8) = lowStep (h' mod 8) (b mod 8) -> h mod 8 = h' mod 8.
Proof.
  intros Heq.
  pose proof lowStep_inj_check as Hc.
  rewrite forallb_forall in Hc.
  specialize (Hc _ (in_range8 b)). rewrite forallb_forall in Hc.
  specialize (Hc _ (in_range8 h)). rewrite forallb_forall in Hc.
  specialize (Hc _ (in_range8 h')).
  rewrite Heq, Z.eqb_refl in Hc. simpl in Hc.
  apply Z.eqb_eq. exact Hc.
Qed.

Lemma lowStep_inj_byte (h b b' : Z) :
  lowStep (h mod 8) (b mod 8) = lowStep (h mod 8) (b' mod 8) -> b mod 8 = b' mod 8.
Proof.
  intros Heq.
  pose proof lowByte_inj_check as Hc.
  rewrite forallb_forall in Hc.
  specialize (Hc _ (in_range8 h)). rewrite forallb_forall in Hc.
  specialize (Hc _ (in_range8 b)). rewrite forallb_forall in Hc.
  specialize (Hc _ (in_range8 b')).
  rewrite Heq, Z.eqb_refl in Hc. simpl in Hc.
  apply Z.eqb_eq. exact Hc.
Qed.

(** Over the same bytes, two states end in the same residue modulo 8
    exactly when they started in the same one. *)
Lemma Write_mod8 (bs : list Z) (h h' : Z) :
  Fnv.Write h bs mod 8 = Fnv.Write h' bs mod 8 <-> h mod 8 = h' mod 8.
Proof.
  unfold Fnv.Write.
  revert h h'. induction bs as [|b bs IH]; intros h h'; simpl; [tauto|].
  rewrite IH, !step_mod8. split.
  - apply lowStep_inj_state.
  - intros ->. reflexivity.
Qed.

Lemma Write_app (h : Z) (bs1 bs2 : list Z) :
  Fnv.Write h (bs1 ++ bs2) = Fnv.Write (Fnv.Write h bs1) bs2.
Proof. unfold Fnv.Write. apply fold_left_app. Qed.

Lemma Sum64_one_byte (p q rest : string) (c c' : ascii) :
  Fnv.Sum64 (String.append (String.append p (String c q)) rest) mod 8
  = Fnv.Sum64 (String.append (String.append p (String c' q)) rest) mod 8
  <-> byte c mod 8 = byte c' mod 8.
Proof.
  unfold Fnv.Sum64.
  rewrite !bytes_of_append.
  change (Sha256.bytes_of (String c q)) with (byte c :: Sha256.bytes_of q).
  change (Sha256.bytes_of (String c' q)) with (byte c' :: Sha256.bytes_of q).
  rewrite !Write_app, Write_mod8.
  change (Fnv.Write (Fnv.Write Fnv.offset64 (Sha256.bytes_of p)) (byte c :: Sha256.bytes_of q))
    with (Fnv.Write (Fnv.step (Fnv.Write Fnv.offset64 (Sha256.bytes_of p)) (byte c)) (Sha256.bytes_of q)).
  change (Fnv.Write (Fnv.Write Fnv.offset64 (Sha256.bytes_of p)) (byte c' :: Sha256.bytes_of q))
    with (Fnv.Write (Fnv.step (Fnv.Write Fnv.offset64 (Sha256.bytes_of p)) (byte c')) (Sha256.bytes_of q)).
  rewrite Write_mod8, !step_mod8.
  split.
  - apply lowStep_inj_byte.
  - intros ->. reflexivity.
Qed.

(** C5 (as the code has it).  With the default eight shards the shard
    index lies in 0..7, and for two tenant ids that differ in exactly one
    byte the atoms with one and the same id land on the same shard
    exactly when the two bytes agree in their low three bits: dispersion
    holds for tenants such as "a" and "b", and fails for "a" and "i". *)
Theorem C5_shard_dispersion :
  forall (p q atomID : string) (c c' : ascii),
    let sm := sharding.NewShardManager 8 in
    let t := String.append p (String c q) in
    let t' := String.append p (String c' q) in
    0 <= sharding.getShardIDInternal sm atomID t < 8 /\
    (sharding.getShardIDInternal sm atomID t = sharding.getShardIDInternal sm atomID t'
     <-> byte c mod 8 = byte c' mod 8).
Proof.
  intros p q atomID c c'. cbv zeta.
  unfold sharding.getShardIDInternal. simpl sharding.numShards.
  split.
  - apply Z.mod_pos_bound. lia.
  - apply Sum64_one_byte.
Qed.

(** C5 as stated fails: the distinct tenants "a" and "i" share the shard
    of the atom id "x". *)
Lemma C5_counterexample :
  ("a" : string) <> "i" /\
  sharding.getShardIDInternal (sharding.NewShardManager 8) "x" "a"
  = sharding.getShardIDInternal (sharding.NewShardManager 8) "x" "i".
Proof. split; [discriminate | vm_compute; reflexivity]. Qed.

(** ** The store: [GetAtom], [UpdateAtom] and truth values *)

(** C4 (as the code has it).  For an atom [a] held by the shard manager
    and a tenant [t'] other than its own, [GetAtom(id(a), t')] never
    returns [a].  It fails with the tenant-mismatch error when [(id, t')]
    routes to the shard that holds [a]; when it routes to a shard that
    has no atom of that id it fails with the not-found error. *)
Theorem C4_cross_tenant_GetAtom :
  forall (sm : sharding.ShardManager) (a : Atom) (p : nat * nat) (t' : string),
    props.stored sm a p ->
    t' <> GetTenantID a ->
    sharding.GetAtom (GetID a) t' sm <> inl p /\
    (sharding.GetShardID sm (GetID a) t' = sharding.GetShardID sm (GetID a) (GetTenantID a) ->
     sharding.GetAtom (GetID a) t' sm = inr (ErrTenantMismatch t')) /\
    (forall shard',
        sharding.shards sm !! Z.to_nat (sharding.GetShardID sm (GetID a) t') = Some shard' ->
        atoms (sharding.Space shard') !! GetID a = None ->
        sharding.GetAtom (GetID a) t' sm = inr (ErrNotFound (GetID a))).
Proof.
  intros sm a [i l] t' (Hi & Hid & Hload) Hne.
  unfold sharding.deref in Hload. simpl in Hi, Hid, Hload.
  destruct (sharding.shards sm !! i) as [shard|] eqn:Hshard; [|discriminate].
  assert (Hsame : forall shard0,
             sharding.shards sm !! i = Some shard0 ->
             atomspace.GetAtom (GetID a) t' (sharding.Space shard0) = inr (ErrTenantMismatch t')).
  { intros shard0 H0. rewrite Hshard in H0. injection H0 as <-.
    unfold atomspace.GetAtom. rewrite Hid, Hload.
    destruct (decide (GetTenantID a = t')) as [E|E]; [congruence | reflexivity]. }
  split; [|split].
  - unfold sharding.GetAtom.
    destruct (decide (Z.to_nat (sharding.GetShardID sm (GetID a) t') = i)) as [E|E].
    + rewrite E, Hshard, (Hsame _ Hshard). discriminate.
    + destruct (sharding.shards sm !! Z.to_nat (sharding.GetShardID sm (GetID a) t'))
        as [sh|]; [|discriminate].
      destruct (atomspace.GetAtom (GetID a) t' (sharding.Space sh)); [|discriminate].
      intros H. injection H as H1 H2. contradiction.
  - intros E. unfold sharding.GetAtom. rewrite E, <- Hi, Hshard, (Hsame _ Hshard).
    reflexivity.
  - intros shard' Hs Hnone. unfold sharding.GetAtom. rewrite Hs.
    unfold atomspace.GetAtom. rewrite Hnone. reflexivity.
Qed.

(** C4 as stated fails: Cat is created in tenant "a" through the facade;
    [GetAtom] of its id for tenant "b" fails with the not-found error,
    not with the tenant-mismatch error. *)
Lemma C4_counterexample :
  snd scenario.isolation = inl scenario.catA /\
  cognitive.GetAtom (GetID scenario.catA) "b" (fst scenario.isolation)
  = inr (ErrNotFound scenario.catID) /\
  cognitive.GetAtom (GetID scenario.catA) "b" (fst scenario.isolation)
  <> inr (ErrTenantMismatch "b").
Proof.
  assert (H : cognitive.GetAtom (GetID scenario.catA) "b" (fst scenario.isolation)
              = inr (ErrNotFound scenario.catID)) by (vm_compute; reflexivity).
  split; [vm_compute; reflexivity|].
  split; [exact H|]. rewrite H. discriminate.
Qed.

Lemma C4_cross_tenant_GetAtom_witness :
  props.stored (cognitive.shardManager (fst scenario.isolation)) scenario.catA (6%nat, 0%nat) /\
  sharding.GetAtom (GetID scenario.catA) "b" (cognitive.shardManager (fst scenario.isolation))
  <> inl (6%nat, 0%nat).
Proof.
  assert (Hs : props.stored (cognitive.shardManager (fst scenario.isolation))
                            scenario.catA (6%nat, 0%nat)).
  { unfold props.stored. split; [|split]; vm_compute; reflexivity. }
  split; [exact Hs|].
  apply (C4_cross_tenant_GetAtom _ scenario.catA (6%nat, 0%nat) "b" Hs).
  vm_compute. discriminate.
Defined.

(** C10.  [UpdateAtom] adds and removes nothing: the four maps (and with
    them the set of stored ids) and the number of atom objects are the
    same before and after, and every atom object other than the one
    stored under [atomID] keeps its value.  When no atom has that id, or
    the atom found belongs to another tenant, the store is returned as it
    was, with the not-found or the tenant-mismatch error. *)
Theorem C10_UpdateAtom_frame :
  forall (atomID tenantID : string) (updater : Atom -> Atom * option Error) (s : AtomSpace),
    let s' := fst (UpdateAtom atomID tenantID updater s) in
    atoms s' = atoms s /\
    byTenant s' = byTenant s /\
    byType s' = byType s /\
    indices s' = indices s /\
    length (cells s') = length (cells s) /\
    (forall l, atoms s !! atomID <> Some l -> load s' l = load s l) /\
    (atoms s !! atomID = None ->
     UpdateAtom atomID tenantID updater s = (s, Some (ErrNotFound atomID))) /\
    (forall l atom,
        atoms s !! atomID = Some l -> load s l = Some atom ->
        GetTenantID atom <> tenantID ->
        UpdateAtom atomID tenantID updater s = (s, Some (ErrTenantMismatch tenantID))).
Proof.
  intros atomID tenantID updater s. cbv zeta.
  change (UpdateAtom atomID tenantID updater s)
    with (updateAtomInternal atomID tenantID updater s).
  unfold updateAtomInternal.
  destruct (atoms s !! atomID) as [l|] eqn:Hl.
  - destruct (load s l) as [atom|] eqn:Hload.
    + destruct (decide (GetTenantID atom = tenantID)) as [Ht|Ht].
      * destruct (updater atom) as [atom' e]. simpl.
        repeat split; try reflexivity; try discriminate.
        -- apply length_insert.
        -- intros l' Hne. unfold load, store. simpl.
           apply list_lookup_insert_ne. congruence.
        -- intros l' atom0 Hl' Hload' Hne. congruence.
      * simpl. repeat split; try reflexivity; try discriminate.
    + simpl. repeat split; try reflexivity; try discriminate.
      intros l' atom0 Hl' Hload'. congruence.
  - simpl. repeat split; try reflexivity; try discriminate.
Qed.

Lemma C10_UpdateAtom_frame_witness :
  let s := fst (AddAtom scenario.catA NewAtomSpace) in
  let s := fst (AddAtom scenario.overconfident s) in
  load (fst (UpdateAtom "n1" "t" (fun a => (SetTruthValue (mkTruthValue 0.5 0.5) a, None)) s)) 0
  = load s 0 /\
  UpdateAtom "n1" "other" (fun a => (SetTruthValue (mkTruthValue 0.5 0.5) a, None)) s
  = (s, Some (ErrTenantMismatch "other")).
Proof.
  cbv zeta.
  pose proof (C10_UpdateAtom_frame "n1" "t"
                (fun a => (SetTruthValue (mkTruthValue 0.5 0.5) a, None))
                (fst (AddAtom scenario.overconfident (fst (AddAtom scenario.catA NewAtomSpace)))))
    as (_ & _ & _ & _ & _ & Hframe & _ & _).
  pose proof (C10_UpdateAtom_frame "n1" "other"
                (fun a => (SetTruthValue (mkTruthValue 0.5 0.5) a, None))
                (fst (AddAtom scenario.overconfident (fst (AddAtom scenario.catA NewAtomSpace)))))
    as (_ & _ & _ & _ & _ & _ & _ & Hmis).
  split.
  - apply Hframe. vm_compute. discriminate.
  - apply (Hmis 1%nat scenario.overconfident).
    + vm_compute. reflexivity.
    + vm_compute. reflexivity.
    + vm_compute. discriminate.
Defined.

Lemma GetTruthValue_SetTruthValue (tv : TruthValue) (a : Atom) :
  GetTruthValue (SetTruthValue tv a) = tv.
Proof. destruct a; reflexivity. Qed.

Lemma allValid_store (l : nat) (a : Atom) (s : AtomSpace) :
  allValid s -> props.validTruthValue (GetTruthValue a) = true -> allValid (store l a s).
Proof. intros Hs Ha. unfold allValid, store. simpl. apply Forall_insert; assumption. Qed.

Lemma allValid_load (l : nat) (a : Atom) (s : AtomSpace) :
  allValid s -> load s l = Some a -> props.validTruthValue (GetTruthValue a) = true.
Proof.
  unfold allValid, load. intros Hs Hl.
  rewrite Forall_lookup in Hs. exact (Hs l a Hl).
Qed.

Lemma perform_allValid (op : props.Op) (s : AtomSpace) :
  props.suppliesValid op -> allValid s -> allValid (fst (props.perform op s)).
Proof.
  intros Hop Hs. destruct op as [atom|atomID tenantID updater|l tv]; simpl in *.
  - unfold addAtomInternal. destruct (atoms s !! GetID atom); simpl; [exact Hs|].
    unfold allValid. simpl. apply Forall_app. split; [exact Hs|].
    constructor; [exact Hop | constructor].
  - unfold updateAtomInternal.
    destruct (atoms s !! atomID) as [l|]; [|exact Hs].
    destruct (load s l) as [atom|] eqn:Hl; [|exact Hs].
    destruct (decide (GetTenantID atom = tenantID)); [|exact Hs].
    specialize (Hop atom (allValid_load _ _ _ Hs Hl)).
    destruct (updater atom) as [atom' err]. simpl in *.
    apply allValid_store; assumption.
  - destruct (load s l) as [atom|]; simpl; [|exact Hs].
    apply allValid_store; [exact Hs|].
    rewrite GetTruthValue_SetTruthValue. exact Hop.
Qed.




(** ** The attention agent *)

Lemma allFrom_spec (f : Z -> bool) (n : nat) (z : Z) :
  props.allFrom f n z = true -> forall k, z <= k < z + Z.of_nat n -> f k = true.
Proof.
  revert z. induction n as [|n IH]; intros z H k Hk; [lia|].
  simpl in H. apply andb_prop in H as [Hz Hrest].
  destruct (Z.eq_dec k z) as [->|Hne]; [exact Hz|].
  apply (IH (z + 1) Hrest). lia.
Qed.

Lemma decay_check :
  props.allFrom (fun z => agents.decay z =? Z.quot (z * 95) 100) 65536 (-32768) = true.
Proof. vm_compute. reflexivity. Qed.

(** The float computation [int16(float64(sti) * 0.95)] is the integer
    quotient of [sti * 95] by 100, rounded toward zero. *)
Lemma decay_quot (z : Z) : props.int16 z -> agents.decay z = Z.quot (z * 95) 100.
Proof.
  intros Hz. apply Z.eqb_eq.
  apply (allFrom_spec _ _ _ decay_check).
  assert (Hn : Z.of_nat 65536 = 65536) by (vm_compute; reflexivity).
  rewrite Hn. unfold props.int16 in Hz. lia.
Qed.

Lemma wrap16_small (z : Z) : props.int16 z -> agents.wrap16 z = z.
Proof.
  unfold props.int16, agents.wrap16. intros Hz.
  rewrite Z.mod_small; lia.
Qed.

Lemma decay_bound (z : Z) : props.int16 z -> -31129 <= Z.quot (z * 95) 100 <= 31128.
Proof.
  unfold props.int16. intros Hz.
  pose proof (Z.quot_le_mono (z * 95) (32767 * 95) 100 ltac:(lia) ltac:(lia)) as H1.
  pose proof (Z.quot_le_mono (-32768 * 95) (z * 95) 100 ltac:(lia) ltac:(lia)) as H2.
  change (Z.quot (32767 * 95) 100) with 31128 in H1.
  change (Z.quot (-32768 * 95) 100) with (-31129) in H2.
  lia.
Qed.

(** The attention value written back, in integers. *)
Lemma attend_value (atom : Atom) :
  props.int16 (STI (GetAttentionValue atom)) ->
  agents.attend atom
  = if props.important atom
    then mkAttentionValue (Z.quot (STI (GetAttentionValue atom) * 95) 100 + 10)
                          (agents.wrap16 (LTI (GetAttentionValue atom) + 1))
                          (VLTI (GetAttentionValue atom))
    else mkAttentionValue (Z.quot (STI (GetAttentionValue atom) * 95) 100)
                          (LTI (GetAttentionValue atom))
                          (VLTI (GetAttentionValue atom)).
Proof.
  intros Hsti. unfold agents.attend, props.important.
  rewrite (decay_quot _ Hsti).
  pose proof (decay_bound _ Hsti) as Hb.
  destruct ((0.8 <? Strength (GetTruthValue atom))%float
            && (0.8 <? Confidence (GetTruthValue atom))%float); [|reflexivity].
  rewrite wrap16_small by (unfold props.int16; lia). reflexivity.
Qed.

Lemma load_store_eq (l : nat) (a : Atom) (s : AtomSpace) :
  (l < length (cells s))%nat -> load (store l a s) l = Some a.
Proof. intros Hl. unfold load, store. simpl. apply list_lookup_insert_eq. exact Hl. Qed.

Lemma load_store_ne (l l' : nat) (a : Atom) (s : AtomSpace) :
  l <> l' -> load (store l a s) l' = load s l'.
Proof. intros Hne. unfold load, store. simpl. apply list_lookup_insert_ne. exact Hne. Qed.

(** The loop over pointers that are listed once: every listed object is
    updated once, from its value before the loop; no other object changes. *)
Lemma attendAll_spec (ps : list nat) (s : AtomSpace) :
  NoDup ps ->
  forall l,
    load (agents.attendAll ps s) l
    = if bool_decide (l ∈ ps)
      then (fun atom => SetAttentionValue (agents.attend atom) atom) <$> load s l
      else load s l.
Proof.
  unfold agents.attendAll.
  revert s. induction ps as [|p ps IH]; intros s Hnd l; cbn [fold_left].
  - rewrite bool_decide_eq_false_2 by apply not_elem_of_nil. reflexivity.
  - apply NoDup_cons in Hnd as [Hp Hnd].
    rewrite (IH _ Hnd l). clear IH.
    change (deref s p) with (load s p).
    destruct (decide (l = p)) as [->|Hne].
    + rewrite (bool_decide_eq_false_2 (p ∈ ps)) by exact Hp.
      rewrite bool_decide_eq_true_2 by apply list_elem_of_here.
      destruct (load s p) as [atom|] eqn:Hl; simpl; [|exact Hl].
      change (assign p ?a s) with (store p a s).
      apply load_store_eq. unfold load in Hl. apply lookup_lt_Some in Hl. exact Hl.
    + assert (Hsame : load (match load s p with
                            | Some atom => assign p (SetAttentionValue (agents.attend atom) atom) s
                            | None => s
                            end) l = load s l).
      { destruct (load s p); [|reflexivity].
        change (assign p ?a s) with (store p a s). apply load_store_ne. congruence. }
      rewrite Hsame.
      destruct (bool_decide (l ∈ ps)) eqn:Hin.
      * apply bool_decide_eq_true_1 in Hin.
        rewrite bool_decide_eq_true_2 by (apply list_elem_of_further; exact Hin). reflexivity.
      * apply bool_decide_eq_false_1 in Hin.
        rewrite bool_decide_eq_false_2; [reflexivity|].
        intros E. apply elem_of_cons in E as [E|E]; [congruence | contradiction].
Qed.

(** In a well-formed store the pointers of a tenant are listed once. *)
Lemma tenant_pointers_NoDup (s : AtomSpace) (t : string) :
  props.wellFormed s ->
  NoDup (List.map snd (map_to_list (default ∅ (byTenant s !! t)))).
Proof.
  intros (_ & Hinj & Hten & _).
  destruct (byTenant s !! t) as [m|] eqn:Hm; simpl.
  - apply (NoDup_fmap_2_strong snd).
    + intros [id1 l1] [id2 l2] H1 H2 Heq. simpl in Heq. subst l2.
      apply elem_of_map_to_list in H1, H2.
      rewrite (Hinj id1 id2 l1 (Hten _ _ _ _ Hm H1) (Hten _ _ _ _ Hm H2)). reflexivity.
    + apply NoDup_map_to_list.
  - rewrite map_to_list_empty. constructor.
Qed.

Lemma queryAtomsInternal_NoDup (ord : Order nat) (t : string)
    (filter : option (Atom -> bool)) (s : AtomSpace) :
  is_order ord -> props.wellFormed s -> NoDup (queryAtomsInternal ord t filter s).
Proof.
  intros Hord Hwf. unfold queryAtomsInternal.
  apply NoDup_ListNoDup, List.NoDup_filter, NoDup_ListNoDup.
  rewrite (Hord _). apply tenant_pointers_NoDup. exact Hwf.
Qed.

(** C9 (as the code has it).  On [Run], for every atom of the agent's
    tenant in a well-formed store, the stored attention value becomes:
    sti decayed to [sti * 0.95] rounded toward zero (the quotient of
    [sti * 95] by 100, which is the floor only for [sti >= 0]); and,
    exactly when strength and confidence both exceed 0.8, sti increased
    by 10 and lti by 1 in 16-bit arithmetic.  vlti and everything else of
    the atom are unchanged; the value is written to the stored object. *)
Theorem C9_attention_update :
  forall (ord : Order nat) (b : agents.BaseAgent) (s : AtomSpace) (l : nat) (atom : Atom),
    is_order ord ->
    props.wellFormed s ->
    In l (QueryAtoms ord (agents.TenantID b) None s) ->
    load s l = Some atom ->
    props.int16 (STI (GetAttentionValue atom)) ->
    let sti := Z.quot (STI (GetAttentionValue atom) * 95) 100 in
    let lti := LTI (GetAttentionValue atom) in
    let vlti := VLTI (GetAttentionValue atom) in
    load (fst (fst (agents.AttentionAgent_Run ord b s))) l
    = Some (SetAttentionValue
              (if props.important atom
               then mkAttentionValue (sti + 10) (agents.wrap16 (lti + 1)) vlti
               else mkAttentionValue sti lti vlti)
              atom).
Proof.
  intros ord b s l atom Hord Hwf Hin Hload Hsti. cbv zeta.
  unfold agents.AttentionAgent_Run. simpl fst.
  change (QueryAtoms ord (agents.TenantID b) None s)
    with (queryAtomsInternal ord (agents.TenantID b) None s) in *.
  rewrite (attendAll_spec _ s (queryAtomsInternal_NoDup _ _ _ _ Hord Hwf) l).
  rewrite bool_decide_eq_true_2 by (apply list_elem_of_In; exact Hin).
  rewrite Hload. simpl. rewrite (attend_value atom Hsti). reflexivity.
Qed.

(** [wellFormed] holds of the empty store and is kept by [AddAtom] and by
    [UpdateAtom], whatever the updater does to the atom. *)
Lemma wellFormed_NewAtomSpace : props.wellFormed NewAtomSpace.
Proof.
  unfold props.wellFormed, NewAtomSpace. simpl.
  repeat split; intros *; rewrite lookup_empty; discriminate.
Qed.

Lemma default_bucket_lookup {V : Type} (m : gmap string (gmap string V))
    (k id : string) (v : V) :
  default ∅ (m !! k) !! id = Some v -> exists b, m !! k = Some b /\ b !! id = Some v.
Proof.
  destruct (m !! k) as [b|]; simpl; intros H.
  - exists b. auto.
  - rewrite lookup_empty in H. discriminate.
Qed.

Lemma default_bucket_lookupZ {V : Type} (m : gmap Z (gmap string V))
    (k : Z) (id : string) (v : V) :
  default ∅ (m !! k) !! id = Some v -> exists b, m !! k = Some b /\ b !! id = Some v.
Proof.
  destruct (m !! k) as [b|]; simpl; intros H.
  - exists b. auto.
  - rewrite lookup_empty in H. discriminate.
Qed.

Lemma wellFormed_addAtomInternal (atom : Atom) (s : AtomSpace) :
  props.wellFormed s -> props.wellFormed (fst (addAtomInternal atom s)).
Proof.
  intros Hwf. unfold addAtomInternal.
  destruct (atoms s !! GetID atom) as [l0|] eqn:Hfresh; [exact Hwf|].
  destruct Hwf as (Hptr & Hinj & Hten & Hty & Hidx).
  unfold props.wellFormed. simpl.
  assert (Hold : forall id l, atoms s !! id = Some l ->
                              <[GetID atom := length (cells s)]> (atoms s) !! id = Some l).
  { intros id l Hl. rewrite lookup_insert_ne; [exact Hl|]. congruence. }
  split; [|split; [|split; [|split]]].
  - intros id l Hl. rewrite length_app. simpl.
    destruct (decide (GetID atom = id)) as [<-|Hne].
    + rewrite lookup_insert_eq in Hl. injection Hl as <-. lia.
    + rewrite lookup_insert_ne in Hl by exact Hne. specialize (Hptr _ _ Hl). lia.
  - intros id1 id2 l H1 H2.
    destruct (decide (GetID atom = id1)) as [E1|E1];
      destruct (decide (GetID atom = id2)) as [E2|E2].
    + congruence.
    + subst id1. rewrite lookup_insert_eq in H1. injection H1 as <-.
      rewrite lookup_insert_ne in H2 by exact E2. specialize (Hptr _ _ H2). lia.
    + subst id2. rewrite lookup_insert_eq in H2. injection H2 as <-.
      rewrite lookup_insert_ne in H1 by exact E1. specialize (Hptr _ _ H1). lia.
    + rewrite lookup_insert_ne in H1 by exact E1.
      rewrite lookup_insert_ne in H2 by exact E2. exact (Hinj _ _ _ H1 H2).
  - intros t m id l Hm Hl.
    destruct (decide (GetTenantID atom = t)) as [<-|Ht].
    + rewrite lookup_insert_eq in Hm. injection Hm as <-.
      destruct (decide (GetID atom = id)) as [<-|Hid].
      * rewrite lookup_insert_eq in Hl. injection Hl as <-. apply lookup_insert_eq.
      * rewrite lookup_insert_ne in Hl by exact Hid.
        apply default_bucket_lookup in Hl as (b & Hb & Hl).
        apply Hold. exact (Hten _ _ _ _ Hb Hl).
    + rewrite lookup_insert_ne in Hm by exact Ht. apply Hold. exact (Hten _ _ _ _ Hm Hl).
  - intros ty m id l Hm Hl.
    destruct (decide (GetType atom = ty)) as [<-|Ht].
    + rewrite lookup_insert_eq in Hm. injection Hm as <-.
      destruct (decide (GetID atom = id)) as [<-|Hid].
      * rewrite lookup_insert_eq in Hl. injection Hl as <-. apply lookup_insert_eq.
      * rewrite lookup_insert_ne in Hl by exact Hid.
        apply default_bucket_lookupZ in Hl as (b & Hb & Hl).
        apply Hold. exact (Hty _ _ _ _ Hb Hl).
    + rewrite lookup_insert_ne in Hm by exact Ht. apply Hold. exact (Hty _ _ _ _ Hm Hl).
  - intros n m id b Hm Hb.
    destruct (decide (GetID atom = id)) as [<-|Hid].
    + rewrite lookup_insert_eq. eauto.
    + rewrite lookup_insert_ne by exact Hid.
      destruct (decide (GetName atom = n)) as [<-|Hn].
      * rewrite lookup_insert_eq in Hm. injection Hm as <-.
        rewrite lookup_insert_ne in Hb by exact Hid.
        apply default_bucket_lookup in Hb as (b0 & Hb0 & Hb).
        exact (Hidx _ _ _ _ Hb0 Hb).
      * rewrite lookup_insert_ne in Hm by exact Hn. exact (Hidx _ _ _ _ Hm Hb).
Qed.

Lemma wellFormed_updateAtomInternal (atomID tenantID : string)
    (updater : Atom -> Atom * option Error) (s : AtomSpace) :
  props.wellFormed s -> props.wellFormed (fst (updateAtomInternal atomID tenantID updater s)).
Proof.
  intros Hwf. unfold updateAtomInternal.
  destruct (atoms s !! atomID) as [l|]; [|exact Hwf].
  destruct (load s l) as [atom|]; [|exact Hwf].
  destruct (decide (GetTenantID atom = tenantID)); [|exact Hwf].
  destruct (updater atom) as [atom' err]. simpl.
  destruct Hwf as (Hptr & Hrest).
  split; [|exact Hrest].
  intros id l' Hl. simpl. rewrite length_insert. exact (Hptr _ _ Hl).
Qed.

Lemma C9_attention_update_witness :
  load (fst (fst (agents.AttentionAgent_Run (fun l => l) scenario.attentionAgent
                                            scenario.negativeSTI))) 0
  = Some (SetAttentionValue (mkAttentionValue 1 1 0) scenario.catA).
Proof.
  assert (Hwf : props.wellFormed scenario.negativeSTI).
  { apply wellFormed_addAtomInternal, wellFormed_NewAtomSpace. }
  pose proof (C9_attention_update (fun l => l) scenario.attentionAgent scenario.negativeSTI 0%nat
                (SetAttentionValue (mkAttentionValue (-10) 0 0) scenario.catA)
                (fun l => Permutation_refl l) Hwf) as H.
  cbv zeta in H. rewrite H.
  - vm_compute. reflexivity.
  - vm_compute. left. reflexivity.
  - vm_compute. reflexivity.
  - vm_compute. split; discriminate.
Defined.

(** C9 as stated fails on a negative sti: for sti = -10 the code stores
    -9 + 10 = 1, while the floor of -9.5 is -10 and would give 0. *)
Lemma C9_counterexample :
  GetAttentionValue <$>
    load (fst (fst (agents.AttentionAgent_Run (fun l => l) scenario.attentionAgent
                                              scenario.negativeSTI))) 0
  = Some (mkAttentionValue 1 1 0) /\
  GetAttentionValue <$> load scenario.negativeSTI 0 = Some (mkAttentionValue (-10) 0 0) /\
  (-10 * 95) / 100 + 10 = 0.
Proof. split; [|split]; vm_compute; reflexivity. Qed.

(** ** The agent scheduler: the exchange sort of [rebuildPriorityQueue] *)

Section ExchangeSort.
Import agents.

Lemma exchange_length (i j : nat) (p : list Agent) : length (exchange i j p) = length p.
Proof.
  unfold exchange.
  destruct (p !! i) as [x|]; [|reflexivity].
  destruct (p !! j) as [y|]; [|reflexivity].
  destruct (GetPriority x <? GetPriority y); [|reflexivity].
  rewrite !length_insert. reflexivity.
Qed.

Lemma exchange_Permutation (i j : nat) (p : list Agent) : exchange i j p ≡ₚ p.
Proof.
  unfold exchange.
  destruct (p !! i) as [x|] eqn:Hi; [|reflexivity].
  destruct (p !! j) as [y|] eqn:Hj; [|reflexivity].
  destruct (GetPriority x <? GetPriority y); [|reflexivity].
  apply Permutation_insert_swap; assumption.
Qed.

Lemma exchange_lookup_other (i j k : nat) (p : list Agent) :
  k <> i -> k <> j -> exchange i j p !! k = p !! k.
Proof.
  intros Hi Hj. unfold exchange.
  destruct (p !! i) as [x|]; [|reflexivity].
  destruct (p !! j) as [y|]; [|reflexivity].
  destruct (GetPriority x <? GetPriority y); [|reflexivity].
  rewrite !list_lookup_insert_ne by congruence. reflexivity.
Qed.

(** After the exchange the entry at [i] is the one of higher priority,
    and both entries are the old ones. *)
Lemma exchange_pair (i j : nat) (p : list Agent) (x y : Agent) :
  i <> j -> p !! i = Some x -> p !! j = Some y ->
  exists x' y',
    exchange i j p !! i = Some x' /\ exchange i j p !! j = Some y' /\
    GetPriority y' <= GetPriority x' /\ GetPriority x <= GetPriority x' /\
    ((x' = x /\ y' = y) \/ (x' = y /\ y' = x)).
Proof.
  intros Hne Hi Hj. unfold exchange. rewrite Hi, Hj.
  destruct (GetPriority x <? GetPriority y) eqn:Hlt.
  - apply Z.ltb_lt in Hlt. exists y, x.
    rewrite list_lookup_insert_ne by congruence.
    rewrite list_lookup_insert_eq by (eapply lookup_lt_Some; eassumption).
    rewrite list_lookup_insert_eq
      by (rewrite length_insert; eapply lookup_lt_Some; eassumption).
    repeat split; try lia. right. auto.
  - apply Z.ltb_ge in Hlt. exists x, y. repeat split; try assumption; try lia. left. auto.
Qed.

(** The inner loop from [start] on: positions before [i] are untouched,
    positions from [i] on keep holding entries that were there, and the
    entry at [i] dominates every position the loop has passed. *)
Lemma innerLoop_from (i : nat) :
  forall (cnt start : nat) (p : list Agent),
    (i < start)%nat -> (start + cnt <= length p)%nat ->
    (forall j x y, (i < j < start)%nat -> p !! i = Some x -> p !! j = Some y ->
                   GetPriority y <= GetPriority x) ->
    let q := fold_left (fun p j => exchange i j p) (seq start cnt) p in
    length q = length p /\ q ≡ₚ p /\
    (forall k, (k < i)%nat -> q !! k = p !! k) /\
    (forall b, (i <= b)%nat -> (b < length p)%nat ->
               exists b', (i <= b')%nat /\ (b' < length p)%nat /\ q !! b = p !! b') /\
    (forall j x y, (i < j < start + cnt)%nat -> q !! i = Some x -> q !! j = Some y ->
                   GetPriority y <= GetPriority x).
Proof.
  induction cnt as [|cnt IH]; intros start p Hstart Hlen Hdom; cbn [seq fold_left].
  - cbv zeta. repeat split; try reflexivity.
    + intros b Hb Hb'. exists b. auto.
    + intros j x y Hj. apply Hdom. lia.
  - assert (Hi : exists x, p !! i = Some x).
    { apply lookup_lt_is_Some. lia. }
    assert (Hs : exists y, p !! start = Some y).
    { apply lookup_lt_is_Some. lia. }
    destruct Hi as [x Hi]. destruct Hs as [y Hs].
    destruct (exchange_pair i start p x y ltac:(lia) Hi Hs)
      as (x' & y' & Hi' & Hs' & Hle & Hup & Hwhich).
    specialize (IH (S start) (exchange i start p) ltac:(lia)
                   ltac:(rewrite exchange_length; lia)).
    cbv zeta in IH.
    destruct IH as (Hl & Hperm & Hbefore & Hfrom & Hdone).
    { intros j a b Hj Ha Hb. rewrite Hi' in Ha. injection Ha as <-.
      destruct (decide (j = start)) as [->|Hjs].
      - rewrite Hs' in Hb. injection Hb as <-. exact Hle.
      - rewrite exchange_lookup_other in Hb by lia.
        specialize (Hdom j x b ltac:(lia) Hi Hb). lia. }
    cbv zeta. split; [|split; [|split; [|split]]].
    + rewrite Hl. apply exchange_length.
    + rewrite Hperm. apply exchange_Permutation.
    + intros k Hk. rewrite (Hbefore k Hk). apply exchange_lookup_other; lia.
    + intros b Hb Hb'.
      destruct (Hfrom b Hb ltac:(rewrite exchange_length; exact Hb')) as (b' & H1 & H2 & H3).
      rewrite exchange_length in H2. rewrite H3.
      pose proof (lookup_lt_Some _ _ _ Hi) as Hilt.
      pose proof (lookup_lt_Some _ _ _ Hs) as Hslt.
      destruct (decide (b' = i)) as [->|Hbi]; [|destruct (decide (b' = start)) as [->|Hbs]].
      * destruct Hwhich as [[-> ->]|[-> ->]].
        -- exists i. rewrite Hi', Hi. split; [lia|]. split; [lia|]. reflexivity.
        -- exists start. rewrite Hi', Hs. split; [lia|]. split; [lia|]. reflexivity.
      * destruct Hwhich as [[-> ->]|[-> ->]].
        -- exists start. rewrite Hs', Hs. split; [lia|]. split; [lia|]. reflexivity.
        -- exists i. rewrite Hs', Hi. split; [lia|]. split; [lia|]. reflexivity.
      * exists b'. rewrite exchange_lookup_other by assumption.
        split; [lia|]. split; [lia|]. reflexivity.
    + intros j a b Hj. apply Hdone. lia.
Qed.

Lemma innerLoop_spec (i : nat) (p : list Agent) :
  (i < length p)%nat ->
  length (innerLoop i p) = length p /\ innerLoop i p ≡ₚ p /\
  (forall k, (k < i)%nat -> innerLoop i p !! k = p !! k) /\
  (forall b, (i <= b)%nat -> (b < length p)%nat ->
             exists b', (i <= b')%nat /\ (b' < length p)%nat /\ innerLoop i p !! b = p !! b') /\
  (forall j x y, (i < j)%nat -> innerLoop i p !! i = Some x -> innerLoop i p !! j = Some y ->
                 GetPriority y <= GetPriority x).
Proof.
  intros Hi. unfold innerLoop.
  destruct (innerLoop_from i (length p - (i + 1)) (i + 1) p ltac:(lia) ltac:(lia))
    as (Hl & Hperm & Hbefore & Hfrom & Hdone).
  { intros j x y Hj. lia. }
  split; [exact Hl|]. split; [exact Hperm|]. split; [exact Hbefore|]. split; [exact Hfrom|].
  intros j x y Hj Hx Hy. apply (Hdone j x y); [|exact Hx|exact Hy].
  apply lookup_lt_Some in Hy. rewrite Hl in Hy. lia.
Qed.

Lemma outerLoop_from :
  forall (cnt k : nat) (p : list Agent),
    (k + cnt <= length p)%nat -> props.dominated k p ->
    let q := fold_left (fun p i => innerLoop i p) (seq k cnt) p in
    length q = length p /\ q ≡ₚ p /\ props.dominated (k + cnt) q.
Proof.
  induction cnt as [|cnt IH]; intros k p Hlen Hdom; cbn [seq fold_left]; cbv zeta.
  - rewrite Nat.add_0_r. auto.
  - destruct (innerLoop_spec k p ltac:(lia)) as (Hl & Hperm & Hbefore & Hfrom & Hdone).
    destruct (IH (S k) (innerLoop k p) ltac:(rewrite Hl; lia)) as (Hl' & Hperm' & Hdom').
    { intros a b x y Ha Hab Hx Hy.
      destruct (decide (a = k)) as [->|Hak].
      - exact (Hdone b x y Hab Hx Hy).
      - rewrite Hbefore in Hx by lia.
        destruct (decide (b < k)%nat) as [Hbk|Hbk].
        + rewrite Hbefore in Hy by lia. exact (Hdom a b x y ltac:(lia) Hab Hx Hy).
        + pose proof (lookup_lt_Some _ _ _ Hy) as Hb. rewrite Hl in Hb.
          destruct (Hfrom b ltac:(lia) Hb) as (b' & H1 & H2 & H3).
          rewrite H3 in Hy. exact (Hdom a b' x y ltac:(lia) ltac:(lia) Hx Hy). }
    split; [congruence|]. split; [rewrite Hperm'; exact Hperm|].
    replace (k + S cnt)%nat with (S k + cnt)%nat by lia. exact Hdom'.
Qed.

Lemma dominated_sorted (p : list Agent) :
  props.dominated (length p) p ->
  StronglySorted (fun x y => GetPriority y <= GetPriority x) p.
Proof.
  induction p as [|x p IH]; intros Hdom; constructor.
  - apply IH. intros a b u v Ha Hab Hu Hv.
    apply (Hdom (S a) (S b) u v); simpl; try lia; assumption.
  - apply Forall_forall. intros y Hy.
    apply list_elem_of_lookup in Hy as [b Hb].
    apply (Hdom 0%nat (S b) x y); simpl; try lia; try reflexivity. exact Hb.
Qed.

(** The sort returns its input rearranged so that priorities never
    increase along the list. *)
Lemma sortByPriority_spec (p : list Agent) :
  sortByPriority p ≡ₚ p /\
  StronglySorted (fun x y => GetPriority y <= GetPriority x) (sortByPriority p).
Proof.
  unfold sortByPriority.
  destruct (outerLoop_from (length p) 0 p ltac:(lia)) as (Hl & Hperm & Hdom).
  { intros a b x y Ha. lia. }
  split; [exact Hperm|].
  apply dominated_sorted. simpl in Hdom. rewrite Hl. exact Hdom.
Qed.

End ExchangeSort.

(** C7 (as the code has it).  After every registration and every
    unregistration the list the scheduler dispatches on a tick holds
    exactly the agents of the registry, sorted by priority with the
    higher priority first.  The order among agents of equal priority is
    whatever the map order and the exchanges of the sort leave. *)
Theorem C7_dispatch_sorted :
  forall (ord : Order agents.Agent) (sch : agents.AgentScheduler),
    is_order ord ->
    (forall agent,
        let sch' := agents.registerInternal ord agent sch in
        StronglySorted (fun x y => agents.GetPriority y <= agents.GetPriority x)
                       (agents.scheduleAgents sch') /\
        agents.scheduleAgents sch' ≡ₚ List.map snd (map_to_list (agents.agents sch'))) /\
    (forall agentID,
        let sch' := agents.unregisterInternal ord agentID sch in
        StronglySorted (fun x y => agents.GetPriority y <= agents.GetPriority x)
                       (agents.scheduleAgents sch') /\
        agents.scheduleAgents sch' ≡ₚ List.map snd (map_to_list (agents.agents sch'))).
Proof.
  intros ord sch Hord.
  assert (H : forall sch0 : agents.AgentScheduler,
             let sch' := agents.rebuildPriorityQueue ord sch0 in
             StronglySorted (fun x y => agents.GetPriority y <= agents.GetPriority x)
                            (agents.scheduleAgents sch') /\
             agents.scheduleAgents sch' ≡ₚ List.map snd (map_to_list (agents.agents sch'))).
  { intros sch0. cbv zeta. unfold agents.scheduleAgents, agents.rebuildPriorityQueue.
    cbn [agents.priority agents.agents].
    rewrite firstn_all.
    destruct (sortByPriority_spec (ord (List.map snd (map_to_list (agents.agents sch0)))))
      as [Hperm Hsorted].
    split; [exact Hsorted|]. rewrite Hperm. apply Hord. }
  split.
  - intros agent. unfold agents.registerInternal. apply H.
  - intros agentID. unfold agents.unregisterInternal. apply H.
Qed.

Lemma C7_dispatch_sorted_witness :
  StronglySorted (fun x y => agents.GetPriority y <= agents.GetPriority x)
                 (agents.scheduleAgents
                    (agents.registerInternal (fun l => l) scenario.mind
                       (agents.NewAgentScheduler 8))).
Proof.
  apply (proj1 (C7_dispatch_sorted (fun l => l) (agents.NewAgentScheduler 8)
                                   (fun l => Permutation_refl l))
               scenario.mind).
Defined.

(** C7 as stated fails in its tie-break.  Two attention agents of
    priority 8 are registered, [att1] before [att2], then a mind agent of
    priority 10; even when the final rebuild ranges over the registry in
    registration order, the dispatched list has [att2] before [att1]. *)
Lemma C7_counterexample :
  scenario.inRegistrationOrder
    (List.map snd (map_to_list (agents.agents scenario.threeAgents)))
  ≡ₚ List.map snd (map_to_list (agents.agents scenario.threeAgents)) /\
  agents.GetPriority scenario.att1 = agents.GetPriority scenario.att2 /\
  agents.scheduleAgents scenario.threeAgents
  = [scenario.mind; scenario.att2; scenario.att1].
Proof.
  split; [|split].
  - assert (E : List.map snd (map_to_list (agents.agents scenario.threeAgents))
                = [scenario.mind; scenario.att1; scenario.att2])
      by (vm_compute; reflexivity).
    rewrite E. unfold scenario.inRegistrationOrder.
    apply (Permutation_trans (l' := [scenario.att1; scenario.mind; scenario.att2])).
    + apply perm_skip. apply perm_swap.
    + apply perm_swap.
  - reflexivity.
  - vm_compute. reflexivity.
Qed.

(** ** The inference driver *)

Section Driver.
Context {S P : Type} `{AtomSpaceInterface S P}.

Lemma loop_iterations (sc : inference.Sched P) (ie : inference.InferenceEngine)
    (tenantID : string) :
  forall (n i : nat) (s : S) (allNew : list Atom),
    (inference.iterations (inference.loop sc ie tenantID n i s allNew) <= i + n)%nat.
Proof.
  induction n as [|n IH]; intros i s allNew; simpl.
  - lia.
  - destruct (inference.ctxDone sc i); simpl; [lia|].
    destruct (inference.iteration sc ie tenantID i s) as [why|[s' added]]; simpl; [lia|].
    destruct (length added =? 0)%nat; simpl; [lia|].
    specialize (IH (Datatypes.S i) s' (allNew ++ added)). lia.
Qed.

Lemma blocks_false (w : Z) (rules tasks : nat) :
  0 < w -> Z.of_nat rules <= 2000 + w -> (tasks <= rules)%nat ->
  inference.blocks w tasks = false.
Proof.
  intros Hw Hr Ht. unfold inference.blocks.
  destruct (Z.leb_spec w 0); [lia|]. destruct (Z.ltb_spec (2000 + w) (Z.of_nat tasks)); [lia|].
  reflexivity.
Qed.

Lemma iteration_blocked (sc : inference.Sched P) (ie : inference.InferenceEngine)
    (tenantID : string) (i : nat) (s : S) :
  0 < inference.workers ie ->
  Z.of_nat (length (inference.rules ie)) <= 2000 + inference.workers ie ->
  inference.iteration sc ie tenantID i s <> inl inference.StopBlocked.
Proof.
  intros Hw Hr. unfold inference.iteration, inference.iterationOn.
  destruct (length _ =? 0)%nat; [discriminate|].
  destruct (length _ =? 0)%nat; [discriminate|].
  rewrite (blocks_false _ _ _ Hw Hr); [discriminate|].
  apply List.filter_length_le.
Qed.

Lemma loop_returns (sc : inference.Sched P) (ie : inference.InferenceEngine)
    (tenantID : string) :
  0 < inference.workers ie ->
  Z.of_nat (length (inference.rules ie)) <= 2000 + inference.workers ie ->
  forall (n i : nat) (s : S) (allNew : list Atom),
    inference.stop (inference.loop sc ie tenantID n i s allNew) <> inference.StopBlocked.
Proof.
  intros Hw Hr. induction n as [|n IH]; intros i s allNew; simpl.
  - discriminate.
  - destruct (inference.ctxDone sc i); simpl; [discriminate|].
    pose proof (iteration_blocked sc ie tenantID i s Hw Hr) as Hb.
    destruct (inference.iteration sc ie tenantID i s) as [why|[s' added]]; simpl.
    + intros ->. apply Hb. reflexivity.
    + destruct (length added =? 0)%nat; simpl; [discriminate|]. apply IH.
Qed.


End Driver.



(** ** The deduction rule *)

Lemma chain_spec (i j : nat) (link1 link2 x : Atom) :
  In x (inference.chain i link1 j link2) <->
  i <> j /\
  exists A B B' C,
    GetOutgoing link1 = [A; B] /\ GetOutgoing link2 = [B'; C] /\ GetID B = GetID B' /\
    x = inference.deduce link1 link2 A C.
Proof.
  unfold inference.chain.
  destruct (Nat.eqb_spec i j) as [->|Hne].
  - simpl. split; [tauto|]. intros [Hc _]. congruence.
  - destruct (GetOutgoing link1) as [|A [|B [|? ?]]];
      try (simpl; split; [tauto | intros (_ & ? & ? & ? & ? & ? & _); discriminate]).
    destruct (GetOutgoing link2) as [|B' [|C [|? ?]]];
      try (simpl; split; [tauto | intros (_ & ? & ? & ? & ? & _ & ? & _); discriminate]).
    destruct (decide (GetID B = GetID B')) as [E|E]; simpl.
    + split.
      * intros [<-|[]]. split; [exact Hne|]. exists A, B, B', C. auto.
      * intros (_ & A0 & B0 & B0' & C0 & H1 & H2 & _ & ->).
        injection H1 as <- <-. injection H2 as <- <-. left. reflexivity.
    + split; [tauto|].
      intros (_ & A0 & B0 & B0' & C0 & H1 & H2 & H3 & _).
      injection H1 as <- <-. injection H2 as <- <-. contradiction.
Qed.

Lemma chainLinks_spec (links : list Atom) (x : Atom) :
  In x (inference.chainLinks links) <->
  exists i j link1 link2 A B B' C,
    i <> j /\ links !! i = Some link1 /\ links !! j = Some link2 /\
    GetOutgoing link1 = [A; B] /\ GetOutgoing link2 = [B'; C] /\ GetID B = GetID B' /\
    x = inference.deduce link1 link2 A C.
Proof.
  unfold inference.chainLinks. rewrite in_concat. split.
  - intros (l' & Hl' & Hx).
    apply list_elem_of_In, elem_of_lookup_imap in Hl' as (i & link1 & -> & Hi).
    destruct (length (GetOutgoing link1) =? 2)%nat; [|destruct Hx].
    apply in_concat in Hx as (l'' & Hl'' & Hx).
    apply list_elem_of_In, elem_of_lookup_imap in Hl'' as (j & link2 & -> & Hj).
    apply chain_spec in Hx as (Hne & A & B & B' & C & H1 & H2 & H3 & ->).
    exists i, j, link1, link2, A, B, B', C. auto 10.
  - intros (i & j & link1 & link2 & A & B & B' & C & Hne & Hi & Hj & H1 & H2 & H3 & ->).
    eexists. split.
    + apply list_elem_of_In. apply (elem_of_lookup_imap_2 _ links link1 i Hi).
    + cbv beta. rewrite H1. simpl. apply in_concat. eexists. split.
      * apply list_elem_of_In. apply (elem_of_lookup_imap_2 _ links link2 j Hj).
      * cbv beta. apply chain_spec. split; [exact Hne|]. exists A, B, B', C. auto.
Qed.

(** C2 (amended).  [DeductionRule.Apply] succeeds, and emits exactly the
    links of the following form.  Let [links] be the inheritance links of the
    snapshot, in snapshot order.  For two different entries [L1 : A -> B]
    and [L2 : B' -> C] of [links], each with exactly two outgoing atoms
    and with the id of [B] equal to the id of [B'], it emits the
    InheritanceLink [A -> C] named "inheritance", of the tenant of [L1],
    with the content-addressed id of [A -> C], strength [s1 * s2] and
    confidence [c1 * c2 * 0.9]. *)
Theorem C2_deduction_rule :
  forall (atoms : list Atom) (x : Atom),
    let links := inference.inheritanceLinks atoms in
    snd (inference.DeductionRule_Apply atoms) = None /\
    (forall L, In L links <->
               In L atoms /\ GetType L = InheritanceLinkType /\ isLink L = true) /\
    (In x (fst (inference.DeductionRule_Apply atoms)) <->
     exists (i j : nat) (L1 L2 A B B' C : Atom),
       i <> j /\ links !! i = Some L1 /\ links !! j = Some L2 /\
       GetOutgoing L1 = [A; B] /\ GetOutgoing L2 = [B'; C] /\
       GetID B = GetID B' /\
       x = Link {| ID := GenerateAtomID InheritanceLinkType "inheritance" [A; C];
                   AType := InheritanceLinkType;
                   Name := "inheritance";
                   TruthVal :=
                     mkTruthValue
                       (Strength (GetTruthValue L1) * Strength (GetTruthValue L2))%float
                       (Confidence (GetTruthValue L1) * Confidence (GetTruthValue L2) * 0.9)%float;
                   AttentionVal := mkAttentionValue 0 0 0;
                   TenantID := GetTenantID L1 |}
                [A; C]).
Proof.
  intros atoms x. cbv zeta. split; [reflexivity|]. split.
  - intros L. unfold inference.inheritanceLinks. rewrite filter_In.
    rewrite andb_true_iff, Z.eqb_eq. tauto.
  - unfold inference.DeductionRule_Apply. cbn [fst].
    rewrite chainLinks_spec. reflexivity.
Qed.

(** C2, as stated, fails for a link taken with itself.  The link
    Cat -> Cat, which [CreateInheritanceLink] makes when it is given the
    id of Cat twice, forms with itself an ordered pair that meets every
    condition of the claim: it is an InheritanceLink with exactly two
    outgoing atoms, and the id of its second outgoing atom is the id of
    its first.  The claim has the link Cat -> Cat emitted for this pair;
    the rule, which passes over a pair of equal positions, emits
    nothing. *)
Lemma C2_counterexample :
  snd (cognitive.CreateInheritanceLink (GetID scenario.cat) (GetID scenario.cat) "demo"
         (fst (cognitive.CreateConceptNode "Cat" "demo" (cognitive.NewCognitiveEngine None))))
  = inl scenario.catCat /\
  GetType scenario.catCat = InheritanceLinkType /\
  GetOutgoing scenario.catCat = [scenario.cat; scenario.cat] /\
  inference.inheritanceLinks [scenario.cat; scenario.catCat] = [scenario.catCat] /\
  inference.DeductionRule_CanApply [scenario.cat; scenario.catCat] = true /\
  inference.DeductionRule_Apply [scenario.cat; scenario.catCat] = ([], None).
Proof. repeat split; vm_compute; reflexivity. Qed.

(** On the two links of the transitive-deduction store the rule emits
    Cat -> Animal with strength 1 and confidence 0.9. *)
Example deduction_on_demo :
  fst (inference.DeductionRule_Apply [scenario.catMammal; scenario.mammalAnimal])
  = [scenario.catAnimal] /\
  GetTruthValue scenario.catAnimal = mkTruthValue 1.0 0.9.
Proof. split; vm_compute; reflexivity. Qed.

(** ** Inference on the transitive-deduction store *)

(** *** What a snapshot's order cannot change *)

Lemma filter_Permutation_list {A : Type} (f : A -> bool) (l l' : list A) :
  l ≡ₚ l' -> List.filter f l ≡ₚ List.filter f l'.
Proof.
  induction 1 as [|x l l' _ IH|x y l|l l' l'' _ IH1 _ IH2]; simpl.
  - reflexivity.
  - destruct (f x); [constructor|]; exact IH.
  - destruct (f x), (f y); try reflexivity. apply perm_swap.
  - etransitivity; eassumption.
Qed.

Lemma existsb_Permutation {A : Type} (f : A -> bool) (l l' : list A) :
  l ≡ₚ l' -> existsb f l = existsb f l'.
Proof.
  induction 1 as [|x l l' _ IH|x y l|l l' l'' _ IH1 _ IH2]; simpl.
  - reflexivity.
  - rewrite IH. reflexivity.
  - destruct (f x), (f y); reflexivity.
  - congruence.
Qed.

Lemma inheritanceLinks_Permutation (atoms atoms' : list Atom) :
  atoms ≡ₚ atoms' -> inference.inheritanceLinks atoms ≡ₚ inference.inheritanceLinks atoms'.
Proof. apply filter_Permutation_list. Qed.

Lemma CanApply_Permutation (atoms atoms' : list Atom) :
  atoms ≡ₚ atoms' ->
  inference.DeductionRule_CanApply atoms = inference.DeductionRule_CanApply atoms' /\
  inference.InductionRule_CanApply atoms = inference.InductionRule_CanApply atoms' /\
  inference.AbductionRule_CanApply atoms = inference.AbductionRule_CanApply atoms'.
Proof.
  intros Hp.
  unfold inference.DeductionRule_CanApply, inference.InductionRule_CanApply,
    inference.AbductionRule_CanApply.
  rewrite (existsb_Permutation _ _ _ Hp), (Permutation_length Hp).
  rewrite (Permutation_length (filter_Permutation_list _ _ _ Hp)).
  auto.
Qed.

(** The orders of one, two and three elements. *)
Lemma Permutation_one {A : Type} (a : A) (l : list A) : l ≡ₚ [a] -> l = [a].
Proof. intros Hp. apply Permutation_length_1_inv. symmetry. exact Hp. Qed.

Lemma Permutation_two {A : Type} (a b : A) (l : list A) :
  l ≡ₚ [a; b] -> l = [a; b] \/ l = [b; a].
Proof. intros Hp. apply Permutation_length_2_inv. symmetry. exact Hp. Qed.

Lemma Permutation_three {A : Type} (a b c : A) (l : list A) :
  l ≡ₚ [a; b; c] ->
  l = [a; b; c] \/ l = [a; c; b] \/ l = [b; a; c] \/
  l = [b; c; a] \/ l = [c; a; b] \/ l = [c; b; a].
Proof.
  intros Hp.
  destruct (Permutation_vs_cons_inv Hp) as (l1 & l2 & ->).
  symmetry in Hp. apply Permutation_cons_app_inv in Hp.
  apply Permutation_length_2_inv in Hp.
  destruct l1 as [|x [|y [|z l1]]]; simpl in Hp.
  - destruct Hp as [->| ->]; simpl; auto.
  - destruct Hp as [Hp|Hp]; injection Hp as -> ->; simpl; auto 10.
  - destruct Hp as [Hp|Hp]; injection Hp as -> -> ->; simpl; auto 10.
  - destruct Hp as [Hp|Hp]; discriminate Hp.
Qed.

(** *** A rejected [AddAtom] leaves the shard manager as it was *)

Lemma addAtomInternal_rejected (atom : Atom) (s : AtomSpace) (e : Error) :
  snd (addAtomInternal atom s) = Some e -> fst (addAtomInternal atom s) = s.
Proof.
  unfold addAtomInternal. destruct (atoms s !! GetID atom); simpl; [reflexivity|discriminate].
Qed.

Lemma sharding_AddAtom_rejected (atom : Atom) (sm : sharding.ShardManager) (e : Error) :
  snd (sharding.AddAtom atom sm) = Some e -> fst (sharding.AddAtom atom sm) = sm.
Proof.
  unfold sharding.AddAtom.
  destruct (sharding.shards sm !! _) as [shard|] eqn:Hshard; [|reflexivity].
  pose proof (addAtomInternal_rejected atom (sharding.Space shard)) as Hrej.
  destruct (addAtomInternal atom (sharding.Space shard)) as [sp [e'|]]; simpl in *.
  - intros _. rewrite (Hrej e' eq_refl).
    destruct sm as [shards n thr], shard as [sid space ld]. unfold sharding.setShard. simpl in *.
    f_equal. apply list_insert_id. exact Hshard.
  - discriminate.
Qed.

Section DefaultEngine.
Context {S P : Type} `{AtomSpaceInterface S P}.

Lemma iterationOn_default (w : Z) (range : Order (string * list Atom))
    (arrive : Order inference.inferenceResult) (atoms : list Atom) (s : S) :
  inference.iterationOn (cognitive.defaultEngine w) range arrive atoms s =
  if (length atoms =? 0)%nat then inl inference.StopEmpty
  else if (length (props.defaultResults range atoms) =? 0)%nat then inl inference.StopNoTask
       else if inference.blocks w (length (props.defaultResults range atoms))
            then inl inference.StopBlocked
            else inr (inference.collect (arrive (props.defaultResults range atoms)) s).
Proof.
  unfold inference.iterationOn, props.defaultResults.
  change (inference.rules (cognitive.defaultEngine w))
    with [inference.NewDeductionRule; inference.NewInductionRule; inference.NewAbductionRule].
  change (inference.workers (cognitive.defaultEngine w)) with w.
  cbn [List.filter inference.CanApply inference.NewDeductionRule inference.NewInductionRule
       inference.NewAbductionRule].
  destruct (length atoms =? 0)%nat; [reflexivity|].
  destruct (inference.DeductionRule_CanApply atoms),
           (inference.InductionRule_CanApply atoms),
           (inference.AbductionRule_CanApply atoms); reflexivity.
Qed.

(** Reinsertion, one atom at a time. *)
Lemma reinsertAtoms_cons (atom : Atom) (new : list Atom) (s : S) (added : list Atom) :
  inference.reinsertAtoms (atom :: new) (s, added)
  = inference.reinsertAtoms new
      (fst (AddAtom atom s),
       match snd (AddAtom atom s) with None => added ++ [atom] | Some _ => added end).
Proof.
  unfold inference.reinsertAtoms. cbn [fold_left].
  destruct (AddAtom atom s) as [s' [e|]]; reflexivity.
Qed.

Lemma reinsertAtoms_nil (st : S * list Atom) : inference.reinsertAtoms [] st = st.
Proof. reflexivity. Qed.

Lemma collect_collectFrom (results : list inference.inferenceResult) (s : S) :
  inference.collect results s = collectFrom results (s, []).
Proof. reflexivity. Qed.

Lemma collectFrom_cons (new : list Atom) (name : string)
    (results : list inference.inferenceResult) (st : S * list Atom) :
  collectFrom (inference.mkResult new None name :: results) st
  = collectFrom results (inference.reinsertAtoms new st).
Proof. reflexivity. Qed.

Lemma collectFrom_nil (st : S * list Atom) : collectFrom [] st = st.
Proof. reflexivity. Qed.
End DefaultEngine.

(** The outcomes of [AddAtom] and the snapshot of an atom space of its own. *)
Lemma space_accepted (a : Atom) (s : AtomSpace) :
  snd (addAtomInternal a s) = None ->
  fst (AddAtom a s) = fst (addAtomInternal a s) /\ snd (AddAtom a s) = None.
Proof. intros Hs. split; [reflexivity | exact Hs]. Qed.

Lemma space_rejected (a : Atom) (s : AtomSpace) (e : Error) :
  snd (addAtomInternal a s) = Some e ->
  fst (AddAtom a s) = s /\ snd (AddAtom a s) = Some e.
Proof.
  intros Hs. split; [|exact Hs]. exact (addAtomInternal_rejected a s e Hs).
Qed.

Lemma space_Permutation (ord : Order nat) (t : string) (s : AtomSpace) :
  is_order ord ->
  values s (QueryAtoms ord t None s) ≡ₚ props.snapshot t s.
Proof.
  intros Hord. unfold props.snapshot, values.
  apply omap_Permutation.
  change (QueryAtoms ord t None s) with (queryAtomsInternal ord t None s).
  change (QueryAtoms (fun l => l) t None s) with (queryAtomsInternal (fun l => l) t None s).
  unfold queryAtomsInternal.
  apply filter_Permutation_list, Hord.
Qed.

Import scenario.

Lemma ded2 (links : list Atom) :
  links ≡ₚ [mammalAnimal; catMammal] -> inference.chainLinks links = [catAnimal].
Proof.
  intros Hp.
  destruct (Permutation_two _ _ _ Hp) as [->| ->]; vm_compute; reflexivity.
Qed.

Lemma ded3 (links : list Atom) :
  links ≡ₚ [mammalAnimal; catAnimal; catMammal] -> inference.chainLinks links = [catAnimal].
Proof.
  intros Hp.
  destruct (Permutation_three _ _ _ _ Hp) as [->|[->|[->|[->|[->| ->]]]]]; vm_compute; reflexivity.
Qed.

Lemma ind3 (range : Order (string * list Atom)) (links : list Atom) :
  is_order range ->
  links ≡ₚ [mammalAnimal; catAnimal; catMammal] ->
  inference.similarityLinks range (inference.targetGroups links) = [simMammalCat] \/
  inference.similarityLinks range (inference.targetGroups links) = [simCatMammal].
Proof.
  intros Hr Hp. unfold inference.similarityLinks.
  destruct (Permutation_three _ _ _ _ Hp) as [->|[->|[->|[->|[->| ->]]]]];
    match goal with
    | |- context [map_to_list ?g] =>
        let G := eval vm_compute in (map_to_list g) in
        assert (E : map_to_list g = G) by (vm_compute; reflexivity);
        rewrite E; clear E;
        match G with
        | [?g1; ?g2] =>
            destruct (Permutation_two g1 g2 _ (Hr [g1; g2])) as [->| ->]
        end
    end;
    first [ left; vm_compute; reflexivity | right; vm_compute; reflexivity ].
Qed.

Section LoopStep.
Context {S P : Type} `{AtomSpaceInterface S P}.

Lemma loop_step (sc : inference.Sched P) (ie : inference.InferenceEngine) (t : string)
    (n i : nat) (s : S) (allNew : list Atom) :
  inference.ctxDone sc i = false ->
  inference.loop sc ie t (Datatypes.S n) i s allNew =
  match inference.iteration sc ie t i s with
  | inl why => inference.mkOutcome S allNew None s (Datatypes.S i) why
  | inr (s', added) =>
      if (length added =? 0)%nat
      then inference.mkOutcome S allNew None s' (Datatypes.S i) inference.StopFixpoint
      else inference.loop sc ie t n (Datatypes.S i) s' (allNew ++ added)
  end.
Proof. intros Hc. cbn [inference.loop]. rewrite Hc. reflexivity. Qed.
End LoopStep.

Lemma fair_plain {P : Type} : inference.fair (@plain P).
Proof. intros i. repeat split; intros l; reflexivity. Qed.

(** *** The runs of the default engine on the five atoms

    The store and the stores it passes through are variables here; what
    is assumed of them is what a computation shows of the atom space
    that holds the five atoms. *)
Section DemoRun.
Context {S P : Type} `{AtomSpaceInterface S P}.
Variables (s0 s1 s2a s2b s3a s3b : S).
Variables (links2 links3 : list Atom).

Hypothesis any_order : forall (ord : Order P) (t : string) (s : S),
  is_order ord -> values s (QueryAtoms ord t None s) ≡ₚ props.snapshot t s.
Hypothesis two_links : links2 ≡ₚ [mammalAnimal; catMammal].
Hypothesis three_links : links3 ≡ₚ [mammalAnimal; catAnimal; catMammal].

Hypothesis view0 : props.view "demo" s0 5 false links2.
Hypothesis view1 : props.view "demo" s1 6 true links3.
Hypothesis view2a : props.view "demo" s2a 7 true links3.
Hypothesis view2b : props.view "demo" s2b 7 true links3.
Hypothesis view3a : props.view "demo" s3a 8 true links3.
Hypothesis view3b : props.view "demo" s3b 8 true links3.

Hypothesis add0 : fst (AddAtom catAnimal s0) = s1 /\ snd (AddAtom catAnimal s0) = None.
Hypothesis add1_CA : fst (AddAtom catAnimal s1) = s1 /\
                     snd (AddAtom catAnimal s1) = Some (ErrAlreadyExists (GetID catAnimal)).
Hypothesis add1_MC : fst (AddAtom simMammalCat s1) = s2a /\ snd (AddAtom simMammalCat s1) = None.
Hypothesis add1_CM : fst (AddAtom simCatMammal s1) = s2b /\ snd (AddAtom simCatMammal s1) = None.
Hypothesis add2a_CA : fst (AddAtom catAnimal s2a) = s2a /\
                      snd (AddAtom catAnimal s2a) = Some (ErrAlreadyExists (GetID catAnimal)).
Hypothesis add2a_MC : fst (AddAtom simMammalCat s2a) = s2a /\
                      snd (AddAtom simMammalCat s2a) = Some (ErrAlreadyExists (GetID simMammalCat)).
Hypothesis add2a_CM : fst (AddAtom simCatMammal s2a) = s3a /\ snd (AddAtom simCatMammal s2a) = None.
Hypothesis add2b_CA : fst (AddAtom catAnimal s2b) = s2b /\
                      snd (AddAtom catAnimal s2b) = Some (ErrAlreadyExists (GetID catAnimal)).
Hypothesis add2b_CM : fst (AddAtom simCatMammal s2b) = s2b /\
                      snd (AddAtom simCatMammal s2b) = Some (ErrAlreadyExists (GetID simCatMammal)).
Hypothesis add2b_MC : fst (AddAtom simMammalCat s2b) = s3b /\ snd (AddAtom simMammalCat s2b) = None.
Hypothesis add3a_CA : fst (AddAtom catAnimal s3a) = s3a /\
                      snd (AddAtom catAnimal s3a) = Some (ErrAlreadyExists (GetID catAnimal)).
Hypothesis add3a_MC : fst (AddAtom simMammalCat s3a) = s3a /\
                      snd (AddAtom simMammalCat s3a) = Some (ErrAlreadyExists (GetID simMammalCat)).
Hypothesis add3a_CM : fst (AddAtom simCatMammal s3a) = s3a /\
                      snd (AddAtom simCatMammal s3a) = Some (ErrAlreadyExists (GetID simCatMammal)).
Hypothesis add3b_CA : fst (AddAtom catAnimal s3b) = s3b /\
                      snd (AddAtom catAnimal s3b) = Some (ErrAlreadyExists (GetID catAnimal)).
Hypothesis add3b_MC : fst (AddAtom simMammalCat s3b) = s3b /\
                      snd (AddAtom simMammalCat s3b) = Some (ErrAlreadyExists (GetID simMammalCat)).
Hypothesis add3b_CM : fst (AddAtom simCatMammal s3b) = s3b /\
                      snd (AddAtom simCatMammal s3b) = Some (ErrAlreadyExists (GetID simCatMammal)).

(** One iteration of the default engine on a store whose snapshot is
    known up to order. *)
Lemma iteration_view (sc : inference.Sched P) (w : Z) (t : string) (i : nat)
    (s : S) (n : nat) (ind : bool) (links : list Atom) :
  0 < w ->
  inference.fair sc ->
  props.view t s (Datatypes.S n) ind links ->
  exists links' results,
    links' ≡ₚ links /\
    results ≡ₚ
      inference.mkResult (inference.chainLinks links') None "deduction"
      :: (if ind
          then [inference.mkResult
                  (inference.similarityLinks (inference.rangeOrder sc i)
                     (inference.targetGroups links')) None "induction"]
          else [])
      ++ [inference.mkResult [] None "abduction"] /\
    inference.iteration sc (cognitive.defaultEngine w) t i s = inr (collectFrom results (s, [])).
Proof.
  intros Hw Hfair (Hlen & Hded & Hind & Habd & Hlinks).
  destruct (Hfair i) as (Hq & Hr & Ha).
  unfold inference.iteration.
  pose proof (any_order (inference.queryOrder sc i) t s Hq) as Hp.
  set (atoms := values s (QueryAtoms (inference.queryOrder sc i) t None s)) in *.
  destruct (CanApply_Permutation _ _ Hp) as (Ed & Ei & Ea).
  rewrite iterationOn_default, (Permutation_length Hp), Hlen.
  unfold props.defaultResults. rewrite Ed, Ei, Ea, Hded, Hind, Habd.
  cbn [Nat.eqb app length].
  rewrite (blocks_false w 3 _ Hw) by (destruct ind; cbn; lia).
  exists (inference.inheritanceLinks atoms), (inference.arrival sc i
    (inference.mkResult (inference.chainLinks (inference.inheritanceLinks atoms)) None "deduction"
     :: (if ind
         then [inference.mkResult
                 (inference.similarityLinks (inference.rangeOrder sc i)
                    (inference.targetGroups (inference.inheritanceLinks atoms))) None "induction"]
         else [])
     ++ [inference.mkResult [] None "abduction"])).
  split; [rewrite <- Hlinks; apply inheritanceLinks_Permutation, Hp|].
  split; [apply Ha|].
  rewrite <- collect_collectFrom. reflexivity.
Qed.

Ltac reinsert :=
  rewrite reinsertAtoms_cons;
  first [ rewrite (proj1 add0), (proj2 add0)
        | rewrite (proj1 add1_CA), (proj2 add1_CA)
        | rewrite (proj1 add1_MC), (proj2 add1_MC)
        | rewrite (proj1 add1_CM), (proj2 add1_CM)
        | rewrite (proj1 add2a_CA), (proj2 add2a_CA)
        | rewrite (proj1 add2a_MC), (proj2 add2a_MC)
        | rewrite (proj1 add2a_CM), (proj2 add2a_CM)
        | rewrite (proj1 add2b_CA), (proj2 add2b_CA)
        | rewrite (proj1 add2b_MC), (proj2 add2b_MC)
        | rewrite (proj1 add2b_CM), (proj2 add2b_CM)
        | rewrite (proj1 add3a_CA), (proj2 add3a_CA)
        | rewrite (proj1 add3a_MC), (proj2 add3a_MC)
        | rewrite (proj1 add3a_CM), (proj2 add3a_CM)
        | rewrite (proj1 add3b_CA), (proj2 add3b_CA)
        | rewrite (proj1 add3b_MC), (proj2 add3b_MC)
        | rewrite (proj1 add3b_CM), (proj2 add3b_CM) ];
  cbn iota; cbn [app].

Ltac collect_results :=
  repeat first [ rewrite collectFrom_cons | rewrite reinsertAtoms_nil | reinsert ];
  rewrite collectFrom_nil.

Lemma iter0 (sc : inference.Sched P) (w : Z) (i : nat) :
  0 < w ->
  inference.fair sc ->
  inference.iteration sc (cognitive.defaultEngine w) "demo" i s0 = inr (s1, [catAnimal]).
Proof.
  intros Hw Hfair.
  destruct (iteration_view sc w "demo" i s0 _ _ _ Hw Hfair view0)
    as (links & results & Hl & Hres & ->).
  rewrite (ded2 links (Permutation_trans Hl two_links)) in Hres. cbn [app] in Hres.
  destruct (Permutation_two _ _ _ Hres) as [->| ->]; collect_results; reflexivity.
Qed.

Ltac iterate v :=
  let links := fresh "links" in
  let results := fresh "results" in
  let Hl := fresh "Hl" in
  let Hres := fresh "Hres" in
  let Hi := fresh "Hi" in
  intros Hw Hfair;
  match goal with
  | |- context [inference.iteration ?sc (cognitive.defaultEngine ?w) ?t ?i ?s] =>
      destruct (iteration_view sc w t i s _ _ _ Hw Hfair v) as (links & results & Hl & Hres & ->);
      apply (fun Hl => Permutation_trans Hl three_links) in Hl;
      rewrite (ded3 links Hl) in Hres;
      destruct (ind3 (inference.rangeOrder sc i) links (proj1 (proj2 (Hfair i))) Hl) as [Hi|Hi];
      rewrite Hi in Hres; cbn [app] in Hres;
      destruct (Permutation_three _ _ _ _ Hres) as [->|[->|[->|[->|[->| ->]]]]];
      collect_results; auto
  end.

Lemma iter1 (sc : inference.Sched P) (w : Z) (i : nat) :
  0 < w ->
  inference.fair sc ->
  inference.iteration sc (cognitive.defaultEngine w) "demo" i s1 = inr (s2a, [simMammalCat]) \/
  inference.iteration sc (cognitive.defaultEngine w) "demo" i s1 = inr (s2b, [simCatMammal]).
Proof. iterate view1. Qed.

Lemma iter2a (sc : inference.Sched P) (w : Z) (i : nat) :
  0 < w ->
  inference.fair sc ->
  inference.iteration sc (cognitive.defaultEngine w) "demo" i s2a = inr (s2a, []) \/
  inference.iteration sc (cognitive.defaultEngine w) "demo" i s2a = inr (s3a, [simCatMammal]).
Proof. iterate view2a. Qed.

Lemma iter2b (sc : inference.Sched P) (w : Z) (i : nat) :
  0 < w ->
  inference.fair sc ->
  inference.iteration sc (cognitive.defaultEngine w) "demo" i s2b = inr (s2b, []) \/
  inference.iteration sc (cognitive.defaultEngine w) "demo" i s2b = inr (s3b, [simMammalCat]).
Proof. iterate view2b. Qed.

Lemma iter3a (sc : inference.Sched P) (w : Z) (i : nat) :
  0 < w ->
  inference.fair sc ->
  inference.iteration sc (cognitive.defaultEngine w) "demo" i s3a = inr (s3a, []).
Proof. iterate view3a. Qed.

Lemma iter3b (sc : inference.Sched P) (w : Z) (i : nat) :
  0 < w ->
  inference.fair sc ->
  inference.iteration sc (cognitive.defaultEngine w) "demo" i s3b = inr (s3b, []).
Proof. iterate view3b. Qed.

(** The runs of the default engine on the five atoms, under every fair
    schedule that is not cancelled. *)
Lemma run_demo (sc : inference.Sched P) (w : Z) :
  0 < w ->
  inference.fair sc ->
  (forall i, inference.ctxDone sc i = false) ->
  let out := inference.RunInference sc (cognitive.defaultEngine w) "demo" 5 s0 in
  inference.error out = None /\
  inference.stop out = inference.StopFixpoint /\
  ((inference.allNewAtoms out = [catAnimal; simMammalCat] /\ inference.final out = s2a) \/
   (inference.allNewAtoms out = [catAnimal; simCatMammal] /\ inference.final out = s2b) \/
   (inference.allNewAtoms out = [catAnimal; simMammalCat; simCatMammal] /\
    inference.final out = s3a) \/
   (inference.allNewAtoms out = [catAnimal; simCatMammal; simMammalCat] /\
    inference.final out = s3b)).
Proof.
  intros Hw Hfair Hctx. unfold inference.RunInference.
  change (Z.to_nat 5) with 5%nat.
  rewrite (loop_step _ _ _ _ _ _ _ (Hctx _)), (iter0 sc w _ Hw Hfair).
  cbn [length Nat.eqb app].
  rewrite (loop_step _ _ _ _ _ _ _ (Hctx _)).
  destruct (iter1 sc w 1 Hw Hfair) as [-> | ->]; cbn [length Nat.eqb app];
    rewrite (loop_step _ _ _ _ _ _ _ (Hctx _)).
  - destruct (iter2a sc w 2 Hw Hfair) as [-> | ->]; cbn [length Nat.eqb app].
    + do 2 (split; [reflexivity|]). left. split; reflexivity.
    + rewrite (loop_step _ _ _ _ _ _ _ (Hctx _)), (iter3a sc w 3 Hw Hfair).
      do 2 (split; [reflexivity|]). right; right; left. split; reflexivity.
  - destruct (iter2b sc w 2 Hw Hfair) as [-> | ->]; cbn [length Nat.eqb app].
    + do 2 (split; [reflexivity|]). right; left. split; reflexivity.
    + rewrite (loop_step _ _ _ _ _ _ _ (Hctx _)), (iter3b sc w 3 Hw Hfair).
      do 2 (split; [reflexivity|]). right; right; right. split; reflexivity.
Qed.

End DemoRun.

(** *** The atom space of the five atoms *)

Ltac view_by_computation :=
  unfold props.view; split; [|split; [|split; [|split]]]; vm_compute; reflexivity.
Ltac accepted := apply space_accepted; vm_compute; reflexivity.
Ltac rejected := apply space_rejected; vm_compute; reflexivity.

Lemma space_view0 : props.view "demo" demoSpace 5 false [catMammal; mammalAnimal].
Proof. view_by_computation. Qed.
Lemma space_view1 : props.view "demo" space1 6 true [catAnimal; catMammal; mammalAnimal].
Proof. view_by_computation. Qed.
Lemma space_view2a : props.view "demo" space2a 7 true [catAnimal; catMammal; mammalAnimal].
Proof. view_by_computation. Qed.
Lemma space_view2b : props.view "demo" space2b 7 true [catAnimal; catMammal; mammalAnimal].
Proof. view_by_computation. Qed.
Lemma space_view3a : props.view "demo" space3a 8 true [catAnimal; catMammal; mammalAnimal].
Proof. view_by_computation. Qed.
Lemma space_view3b : props.view "demo" space3b 8 true [catAnimal; catMammal; mammalAnimal].
Proof. view_by_computation. Qed.

Lemma space_add0 : fst (AddAtom catAnimal demoSpace) = space1 /\
                   snd (AddAtom catAnimal demoSpace) = None.
Proof. accepted. Qed.
Lemma space_add1_CA : fst (AddAtom catAnimal space1) = space1 /\
                      snd (AddAtom catAnimal space1) = Some (ErrAlreadyExists (GetID catAnimal)).
Proof. rejected. Qed.
Lemma space_add1_MC : fst (AddAtom simMammalCat space1) = space2a /\
                      snd (AddAtom simMammalCat space1) = None.
Proof. accepted. Qed.
Lemma space_add1_CM : fst (AddAtom simCatMammal space1) = space2b /\
                      snd (AddAtom simCatMammal space1) = None.
Proof. accepted. Qed.
Lemma space_add2a_CA : fst (AddAtom catAnimal space2a) = space2a /\
                       snd (AddAtom catAnimal space2a) = Some (ErrAlreadyExists (GetID catAnimal)).
Proof. rejected. Qed.
Lemma space_add2a_MC :
  fst (AddAtom simMammalCat space2a) = space2a /\
  snd (AddAtom simMammalCat space2a) = Some (ErrAlreadyExists (GetID simMammalCat)).
Proof. rejected. Qed.
Lemma space_add2a_CM : fst (AddAtom simCatMammal space2a) = space3a /\
                       snd (AddAtom simCatMammal space2a) = None.
Proof. accepted. Qed.
Lemma space_add2b_CA : fst (AddAtom catAnimal space2b) = space2b /\
                       snd (AddAtom catAnimal space2b) = Some (ErrAlreadyExists (GetID catAnimal)).
Proof. rejected. Qed.
Lemma space_add2b_CM :
  fst (AddAtom simCatMammal space2b) = space2b /\
  snd (AddAtom simCatMammal space2b) = Some (ErrAlreadyExists (GetID simCatMammal)).
Proof. rejected. Qed.
Lemma space_add2b_MC : fst (AddAtom simMammalCat space2b) = space3b /\
                       snd (AddAtom simMammalCat space2b) = None.
Proof. accepted. Qed.
Lemma space_add3a_CA : fst (AddAtom catAnimal space3a) = space3a /\
                       snd (AddAtom catAnimal space3a) = Some (ErrAlreadyExists (GetID catAnimal)).
Proof. rejected. Qed.
Lemma space_add3a_MC :
  fst (AddAtom simMammalCat space3a) = space3a /\
  snd (AddAtom simMammalCat space3a) = Some (ErrAlreadyExists (GetID simMammalCat)).
Proof. rejected. Qed.
Lemma space_add3a_CM :
  fst (AddAtom simCatMammal space3a) = space3a /\
  snd (AddAtom simCatMammal space3a) = Some (ErrAlreadyExists (GetID simCatMammal)).
Proof. rejected. Qed.
Lemma space_add3b_CA : fst (AddAtom catAnimal space3b) = space3b /\
                       snd (AddAtom catAnimal space3b) = Some (ErrAlreadyExists (GetID catAnimal)).
Proof. rejected. Qed.
Lemma space_add3b_MC :
  fst (AddAtom simMammalCat space3b) = space3b /\
  snd (AddAtom simMammalCat space3b) = Some (ErrAlreadyExists (GetID simMammalCat)).
Proof. rejected. Qed.
Lemma space_add3b_CM :
  fst (AddAtom simCatMammal space3b) = space3b /\
  snd (AddAtom simCatMammal space3b) = Some (ErrAlreadyExists (GetID simCatMammal)).
Proof. rejected. Qed.

Lemma space_two_links : [catMammal; mammalAnimal] ≡ₚ [mammalAnimal; catMammal].
Proof. apply perm_swap. Qed.

Lemma space_three_links :
  [catAnimal; catMammal; mammalAnimal] ≡ₚ [mammalAnimal; catAnimal; catMammal].
Proof.
  apply (Permutation_trans (l' := [catAnimal; mammalAnimal; catMammal])).
  - apply perm_skip, perm_swap.
  - apply perm_swap.
Qed.

Lemma run_demoSpace (sc : inference.Sched nat) (w : Z) :
  0 < w ->
  inference.fair sc ->
  (forall i, inference.ctxDone sc i = false) ->
  let out := inference.RunInference sc (cognitive.defaultEngine w) "demo" 5 demoSpace in
  inference.error out = None /\
  inference.stop out = inference.StopFixpoint /\
  ((inference.allNewAtoms out = [catAnimal; simMammalCat] /\ inference.final out = space2a) \/
   (inference.allNewAtoms out = [catAnimal; simCatMammal] /\ inference.final out = space2b) \/
   (inference.allNewAtoms out = [catAnimal; simMammalCat; simCatMammal] /\
    inference.final out = space3a) \/
   (inference.allNewAtoms out = [catAnimal; simCatMammal; simMammalCat] /\
    inference.final out = space3b)).
Proof.
  exact (run_demo demoSpace space1 space2a space2b space3a space3b _ _
           space_Permutation space_two_links space_three_links
           space_view0 space_view1 space_view2a space_view2b space_view3a space_view3b
           space_add0 space_add1_CA space_add1_MC space_add1_CM
           space_add2a_CA space_add2a_MC space_add2a_CM
           space_add2b_CA space_add2b_CM space_add2b_MC
           space_add3a_CA space_add3a_MC space_add3a_CM
           space_add3b_CA space_add3b_MC space_add3b_CM sc w).
Qed.

Lemma demoSpace_snapshot :
  props.snapshot "demo" demoSpace ≡ₚ [cat; mammal; animal; catMammal; mammalAnimal].
Proof.
  assert (E : props.snapshot "demo" demoSpace = [animal; cat; mammal; catMammal; mammalAnimal])
    by (vm_compute; reflexivity).
  rewrite E.
  apply (Permutation_trans (l' := [cat; animal; mammal; catMammal; mammalAnimal])).
  - apply perm_swap.
  - apply perm_skip, perm_swap.
Qed.




(** ** The facade keeps the engines of the tenants *)

Lemma InitializeTenant_inferenceEngines (t : string) (ce : cognitive.CognitiveEngine) :
  cognitive.inferenceEngines ce !! t = None ->
  cognitive.inferenceEngines (fst (cognitive.InitializeTenant t ce))
  = <[t := cognitive.defaultEngine (cognitive.InferenceWorkers (cognitive.config ce))]>
      (cognitive.inferenceEngines ce).
Proof. intros Hn. unfold cognitive.InitializeTenant. rewrite Hn. reflexivity. Qed.

(** C6 (the code departs from it).  A run that left the loop at the
    fixpoint (its last iteration reinserted nothing) is followed by a run
    on the store it left that returns a new atom: the induction rule
    derives the SimilarityLink of Cat and Mammal in the other direction,
    whose content-addressed id is new. *)
Theorem C6_rerun_after_fixpoint_adds_atom :
  let first := inference.RunInference plain (cognitive.defaultEngine 16) "demo" 5 demoStore in
  let second := inference.RunInference reversed (cognitive.defaultEngine 16) "demo" 1
                  (inference.final first) in
  inference.stop first = inference.StopFixpoint /\
  inference.error first = None /\
  inference.allNewAtoms first = [catAnimal; simMammalCat] /\
  inference.error second = None /\
  inference.allNewAtoms second = [simCatMammal].
Proof. cbv zeta. split; [|split; [|split; [|split]]]; vm_compute; reflexivity. Qed.

(* ===================================================================== *)
(** * Further properties of the code                                     *)
(* ===================================================================== *)

(* ---- nested maps ---- *)
Section Buckets.
Context {K : Type} `{Countable K} {V : Type}.

Lemma bucket_insert (M : gmap K (gmap string V)) (k0 : K) (id0 : string) (v0 : V)
    (k : K) (id : string) (v : V) :
  (exists m, <[k0 := <[id0 := v0]> (default ∅ (M !! k0))]> M !! k = Some m /\ m !! id = Some v)
  <-> ((k = k0 /\ id = id0 /\ v = v0) \/
       (~ (k = k0 /\ id = id0) /\ exists m, M !! k = Some m /\ m !! id = Some v)).
Proof.
  split.
  - intros (m & Hm & Hv).
    destruct (decide (k = k0)) as [->|Hk].
    + rewrite lookup_insert_eq in Hm. injection Hm as <-.
      destruct (decide (id = id0)) as [->|Hid].
      * rewrite lookup_insert_eq in Hv. injection Hv as <-. auto.
      * rewrite lookup_insert_ne in Hv by congruence.
        right. split; [tauto|].
        destruct (M !! k0) as [m0|]; simpl in Hv; [eauto|].
        rewrite lookup_empty in Hv. discriminate.
    + rewrite lookup_insert_ne in Hm by congruence. right. split; [tauto|eauto].
  - intros [(-> & -> & ->)|(Hne & m & Hm & Hv)].
    + eexists. rewrite lookup_insert_eq. split; [reflexivity|]. apply lookup_insert_eq.
    + destruct (decide (k = k0)) as [->|Hk].
      * eexists. rewrite lookup_insert_eq. split; [reflexivity|].
        rewrite Hm. simpl. rewrite lookup_insert_ne; [exact Hv|]. intros ->. tauto.
      * exists m. rewrite lookup_insert_ne by congruence. auto.
Qed.

Lemma bucket_delete (M : gmap K (gmap string V)) (k0 : K) (id0 : string)
    (k : K) (id : string) (v : V) :
  (exists m, alter (delete id0) k0 M !! k = Some m /\ m !! id = Some v)
  <-> (~ (k = k0 /\ id = id0) /\ exists m, M !! k = Some m /\ m !! id = Some v).
Proof.
  split.
  - intros (m & Hm & Hv).
    destruct (decide (k = k0)) as [->|Hk].
    + rewrite lookup_alter_eq in Hm.
      destruct (M !! k0) as [m0|]; simpl in Hm; [|discriminate].
      injection Hm as <-.
      destruct (decide (id = id0)) as [->|Hid].
      * rewrite lookup_delete_eq in Hv. discriminate.
      * rewrite lookup_delete_ne in Hv by congruence. split; [tauto|eauto].
    + rewrite lookup_alter_ne in Hm by congruence. split; [tauto|eauto].
  - intros (Hne & m & Hm & Hv).
    destruct (decide (k = k0)) as [->|Hk].
    + exists (delete id0 m). rewrite lookup_alter_eq, Hm. split; [reflexivity|].
      rewrite lookup_delete_ne; [exact Hv|]. intros ->. tauto.
    + exists m. rewrite lookup_alter_ne by congruence. auto.
Qed.

(** Removing a bucket that has become empty removes no entry. *)
Lemma bucket_prune (M : gmap K (gmap string V)) (k0 k : K) (id : string) (v : V) :
  (exists m, (if Nat.eqb (size (default ∅ (M !! k0))) 0 then delete k0 M else M) !! k = Some m
             /\ m !! id = Some v)
  <-> (exists m, M !! k = Some m /\ m !! id = Some v).
Proof.
  destruct (Nat.eqb (size (default ∅ (M !! k0))) 0) eqn:Hz; [|tauto].
  apply Nat.eqb_eq, map_size_empty_iff in Hz.
  split.
  - intros (m & Hm & Hv). exists m. split; [|exact Hv].
    destruct (decide (k = k0)) as [->|Hk].
    + rewrite lookup_delete_eq in Hm. discriminate.
    + rewrite lookup_delete_ne in Hm by congruence. exact Hm.
  - intros (m & Hm & Hv). exists m. split; [|exact Hv].
    destruct (decide (k = k0)) as [->|Hk].
    + rewrite Hm in Hz. simpl in Hz. subst m. rewrite lookup_empty in Hv. discriminate.
    + rewrite lookup_delete_ne by congruence. exact Hm.
Qed.
End Buckets.

(* ---- the maps of a store agree ---- *)

Lemma indexed_NewAtomSpace : indexed NewAtomSpace.
Proof.
  unfold indexed, NewAtomSpace, load. simpl.
  split; [|split; [|split]].
  - intros id l Hl. rewrite lookup_empty in Hl. discriminate.
  - intros t id l. split.
    + intros (m & Hm & _). rewrite lookup_empty in Hm. discriminate.
    + intros (Hl & _). rewrite lookup_empty in Hl. discriminate.
  - intros ty id l. split.
    + intros (m & Hm & _). rewrite lookup_empty in Hm. discriminate.
    + intros (Hl & _). rewrite lookup_empty in Hl. discriminate.
  - intros n id. split.
    + intros (m & b & Hm & _). rewrite lookup_empty in Hm. discriminate.
    + intros (l & a & Hl & _). rewrite lookup_empty in Hl. discriminate.
Qed.

Lemma indexed_bound (s : AtomSpace) (id : string) (l : nat) :
  indexed s -> atoms s !! id = Some l -> (l < length (cells s))%nat.
Proof.
  intros (Hp & _) Hl. destruct (Hp _ _ Hl) as (a & Ha & _).
  exact (lookup_lt_Some _ _ _ Ha).
Qed.

Lemma indexed_inj (s : AtomSpace) (id1 id2 : string) (l : nat) :
  indexed s -> atoms s !! id1 = Some l -> atoms s !! id2 = Some l -> id1 = id2.
Proof.
  intros (Hp & _) H1 H2.
  destruct (Hp _ _ H1) as (a1 & Ha1 & <-), (Hp _ _ H2) as (a2 & Ha2 & <-).
  congruence.
Qed.

Lemma indexed_addAtomInternal (atom : Atom) (s : AtomSpace) :
  indexed s -> indexed (fst (addAtomInternal atom s)).
Proof.
  intros Hix. unfold addAtomInternal.
  destruct (atoms s !! GetID atom) as [l0|] eqn:Hfresh; [exact Hix|].
  pose proof (indexed_bound s) as Hbound. specialize (fun id l => Hbound id l Hix).
  destruct Hix as (Hp & Hten & Hty & Hnm).
  assert (Hnew : load {| cells := cells s ++ [atom]; atoms := <[GetID atom := length (cells s)]> (atoms s);
                         byTenant := <[GetTenantID atom := <[GetID atom := length (cells s)]>
                                        (default ∅ (byTenant s !! GetTenantID atom))]> (byTenant s);
                         byType := <[GetType atom := <[GetID atom := length (cells s)]>
                                        (default ∅ (byType s !! GetType atom))]> (byType s);
                         indices := <[GetName atom := <[GetID atom := true]>
                                        (default ∅ (indices s !! GetName atom))]> (indices s) |}
                      (length (cells s)) = Some atom).
  { unfold load. simpl. rewrite lookup_app_r by lia. rewrite Nat.sub_diag. reflexivity. }
  set (s' := {| cells := cells s ++ [atom] |}) in *.
  assert (Hold : forall l a, load s l = Some a -> load s' l = Some a).
  { intros l a Ha. unfold load, s'. simpl. apply lookup_app_l_Some. exact Ha. }
  assert (Hback : forall l a, (l < length (cells s))%nat -> load s' l = Some a -> load s l = Some a).
  { intros l a Hlt Ha. unfold load, s' in *. simpl in Ha. rewrite lookup_app_l in Ha by exact Hlt.
    exact Ha. }
  assert (Hatoms : forall id l,
             atoms s' !! id = Some l <->
             (id = GetID atom /\ l = length (cells s)) \/ (id <> GetID atom /\ atoms s !! id = Some l)).
  { intros id l. unfold s'. simpl. destruct (decide (id = GetID atom)) as [->|Hne].
    - rewrite lookup_insert_eq. split.
      + intros [= <-]. auto.
      + intros [(_ & ->)|(Hc & _)]; [reflexivity|congruence].
    - rewrite lookup_insert_ne by congruence. split; [auto|].
      intros [(Hc & _)|(_ & Hl)]; [congruence|exact Hl]. }
  assert (Hbt : byTenant s' = <[GetTenantID atom := <[GetID atom := length (cells s)]>
                                 (default ∅ (byTenant s !! GetTenantID atom))]> (byTenant s))
    by reflexivity.
  assert (Hby : byType s' = <[GetType atom := <[GetID atom := length (cells s)]>
                                 (default ∅ (byType s !! GetType atom))]> (byType s))
    by reflexivity.
  assert (Hin : indices s' = <[GetName atom := <[GetID atom := true]>
                                 (default ∅ (indices s !! GetName atom))]> (indices s))
    by reflexivity.
  clearbody s'. cbn [fst]. unfold indexed.
  split; [|split; [|split]].
  - intros id l Hl. apply Hatoms in Hl as [(-> & ->)|(Hne & Hl)].
    + exists atom. auto.
    + destruct (Hp _ _ Hl) as (a & Ha & Hid). exists a. auto.
  - intros t id l. rewrite Hbt, bucket_insert, Hatoms, Hten. split.
    + intros [(-> & -> & ->)|(Hne & Hl & a & Ha & Hta)].
      * split; [auto|]. exists atom. auto.
      * split; [|exists a; auto]. right. split; [congruence|exact Hl].
    + intros ([(-> & ->)|(Hne & Hl)] & a & Ha & Hta).
      * left. rewrite Hnew in Ha. injection Ha as <-. auto.
      * right. split; [tauto|]. split; [exact Hl|]. exists a. split; [|exact Hta].
        apply Hback; [exact (Hbound _ _ Hl)|exact Ha].
  - intros ty id l. rewrite Hby, bucket_insert, Hatoms, Hty. split.
    + intros [(-> & -> & ->)|(Hne & Hl & a & Ha & Hta)].
      * split; [auto|]. exists atom. auto.
      * split; [|exists a; auto]. right. split; [congruence|exact Hl].
    + intros ([(-> & ->)|(Hne & Hl)] & a & Ha & Hta).
      * left. rewrite Hnew in Ha. injection Ha as <-. auto.
      * right. split; [tauto|]. split; [exact Hl|]. exists a. split; [|exact Hta].
        apply Hback; [exact (Hbound _ _ Hl)|exact Ha].
  - intros n id. rewrite Hin. split.
    + intros (m & b & Hm & Hb).
      assert (Hex : exists m, <[GetName atom := <[GetID atom := true]>
                        (default ∅ (indices s !! GetName atom))]> (indices s) !! n = Some m
                        /\ m !! id = Some b) by eauto.
      apply bucket_insert in Hex as [(-> & -> & ->)|(Hne & m0 & Hm0 & Hb0)].
      * exists (length (cells s)), atom. split; [apply Hatoms; auto|auto].
      * destruct (proj1 (Hnm n id)) as (l & a & Hl & Ha & Hn); [eauto|].
        exists l, a. split; [|auto]. apply Hatoms. right. split; [congruence|exact Hl].
    + intros (l & a & Hl & Ha & Hn).
      apply Hatoms in Hl as [(-> & ->)|(Hne & Hl)].
      * rewrite Hnew in Ha. injection Ha as <-.
        destruct (proj2 (bucket_insert (indices s) (GetName atom) (GetID atom) true
                           n (GetID atom) true)) as (m & Hm & Hb); [left; auto|].
        exists m, true. auto.
      * apply Hback in Ha; [|exact (Hbound _ _ Hl)].
        destruct (proj2 (Hnm n id)) as (m0 & b & Hm0 & Hb0); [eauto|].
        destruct (proj2 (bucket_insert (indices s) (GetName atom) (GetID atom) true n id b))
          as (m & Hm & Hb); [right; split; [tauto|eauto]|].
        exists m, b. auto.
Qed.

Lemma indexed_updateAtomInternal (atomID tenantID : string)
    (updater : Atom -> Atom * option Error) (s : AtomSpace) :
  keepsIdentity updater ->
  indexed s -> indexed (fst (updateAtomInternal atomID tenantID updater s)).
Proof.
  intros Hkeep Hix. unfold updateAtomInternal.
  destruct (atoms s !! atomID) as [l0|] eqn:Hl0; [|exact Hix].
  destruct (load s l0) as [atom|] eqn:Hatom; [|exact Hix].
  destruct (decide (GetTenantID atom = tenantID)) as [Ht|]; [|exact Hix].
  specialize (Hkeep atom). destruct (updater atom) as [atom' err].
  cbn [fst] in *. destruct Hkeep as (Kid & Kten & Kty & Knm).
  assert (Hload : forall l, load (store l0 atom' s) l
                            = if decide (l = l0) then Some atom' else load s l).
  { intros l. unfold load, store. simpl. destruct (decide (l = l0)) as [->|Hne].
    - apply list_lookup_insert_eq. exact (lookup_lt_Some _ _ _ Hatom).
    - apply list_lookup_insert_ne. congruence. }
  assert (Hsame : forall (f : Atom -> string) l,
             f atom' = f atom ->
             forall x, (exists a, load (store l0 atom' s) l = Some a /\ f a = x)
                       <-> (exists a, load s l = Some a /\ f a = x)).
  { intros f l Hf x. rewrite Hload. destruct (decide (l = l0)) as [->|Hne]; [|tauto].
    rewrite Hatom. split; intros (a & [= <-] & Hx); eexists; (split; [reflexivity|congruence]). }
  assert (HsameZ : forall l x, (exists a, load (store l0 atom' s) l = Some a /\ GetType a = x)
                               <-> (exists a, load s l = Some a /\ GetType a = x)).
  { intros l x. rewrite Hload. destruct (decide (l = l0)) as [->|Hne]; [|tauto].
    rewrite Hatom. split; intros (a & [= <-] & Hx); eexists; (split; [reflexivity|congruence]). }
  destruct Hix as (Hp & Hten & Hty & Hnm).
  unfold indexed. change (atoms (store l0 atom' s)) with (atoms s).
  change (byTenant (store l0 atom' s)) with (byTenant s).
  change (byType (store l0 atom' s)) with (byType s).
  change (indices (store l0 atom' s)) with (indices s).
  split; [|split; [|split]].
  - intros id l Hl. apply (Hsame GetID l Kid id). exact (Hp _ _ Hl).
  - intros t id l. rewrite Hten, (Hsame GetTenantID l Kten t). tauto.
  - intros ty id l. rewrite Hty, (HsameZ l ty). tauto.
  - intros n id. rewrite Hnm. split; intros (l & a & Hl & Ha).
    + destruct (proj2 (Hsame GetName l Knm n)) as (a2 & Ha2 & Hn2); [exists a; exact Ha|].
      exists l, a2. auto.
    + destruct (proj1 (Hsame GetName l Knm n)) as (a2 & Ha2 & Hn2); [exists a; exact Ha|].
      exists l, a2. auto.
Qed.

Lemma indexed_deleteAtomInternal (atomID tenantID : string) (s : AtomSpace) :
  indexed s -> indexed (fst (deleteAtomInternal atomID tenantID s)).
Proof.
  intros Hix. unfold deleteAtomInternal.
  destruct (atoms s !! atomID) as [l0|] eqn:Hl0; [|exact Hix].
  destruct (load s l0) as [atom|] eqn:Hatom; [|exact Hix].
  destruct (decide (GetTenantID atom = tenantID)) as [Ht|]; [|exact Hix].
  pose proof (indexed_inj s) as Hinj. specialize (fun a b l => Hinj a b l Hix).
  destruct Hix as (Hp & Hten & Hty & Hnm).
  assert (Hid : GetID atom = atomID).
  { destruct (Hp _ _ Hl0) as (a & Ha & Hid). congruence. }
  cbn [fst]. unfold indexed, load. cbn [cells atoms byTenant byType indices].
  fold (load s).
  assert (Hatoms : forall id l, delete atomID (atoms s) !! id = Some l
                                <-> id <> atomID /\ atoms s !! id = Some l).
  { intros id l. destruct (decide (id = atomID)) as [->|Hne].
    - rewrite lookup_delete_eq. split; [discriminate|tauto].
    - rewrite lookup_delete_ne by congruence. tauto. }
  split; [|split; [|split]].
  - intros id l Hl. apply Hatoms in Hl as (_ & Hl). exact (Hp _ _ Hl).
  - intros t id l. rewrite bucket_delete, Hatoms, Hten. split.
    + intros (Hne & Hl & a & Ha & Hta). split; [|eauto]. split; [|exact Hl].
      intros ->. apply Hne. split; [|reflexivity].
      assert (l = l0) by congruence. subst l. congruence.
    + intros ((Hne & Hl) & Hex). tauto.
  - intros ty id l. rewrite bucket_delete, Hatoms, Hty. split.
    + intros (Hne & Hl & a & Ha & Hta). split; [|eauto]. split; [|exact Hl].
      intros ->. apply Hne. split; [|reflexivity].
      assert (l = l0) by congruence. subst l. congruence.
    + intros ((Hne & Hl) & Hex). tauto.
  - intros n id. split.
    + intros (m & b & Hm & Hb).
      assert (Hex : exists m, (if Nat.eqb (size (default ∅
                       (alter (delete atomID) (GetName atom) (indices s) !! GetName atom))) 0
                     then delete (GetName atom) (alter (delete atomID) (GetName atom) (indices s))
                     else alter (delete atomID) (GetName atom) (indices s)) !! n = Some m
                   /\ m !! id = Some b) by eauto.
      apply bucket_prune, bucket_delete in Hex as (Hne & m0 & Hm0 & Hb0).
      destruct (proj1 (Hnm n id)) as (l & a & Hl & Ha & Hn); [eauto|].
      exists l, a. split; [|auto]. apply Hatoms. split; [|exact Hl].
      intros ->. apply Hne. split; [|reflexivity].
      assert (l = l0) by congruence. subst l. congruence.
    + intros (l & a & Hl & Ha & Hn). apply Hatoms in Hl as (Hne & Hl).
      destruct (proj2 (Hnm n id)) as (m0 & b & Hm0 & Hb0); [eauto|].
      destruct (proj2 (bucket_prune (alter (delete atomID) (GetName atom) (indices s))
                         (GetName atom) n id b)) as (m & Hm & Hb).
      { apply bucket_delete. split; [tauto|eauto]. }
      exists m, b. auto.
Qed.

Lemma indexed_serve (r : Request) (s : AtomSpace) :
  throughInterface r -> indexed s -> indexed (fst (serve r s)).
Proof.
  destruct r; simpl; intros Hr Hix.
  - apply indexed_addAtomInternal, Hix.
  - apply indexed_updateAtomInternal; assumption.
  - apply indexed_deleteAtomInternal, Hix.
Qed.

Lemma indexed_serveAll (rs : list Request) (s : AtomSpace) :
  Forall throughInterface rs -> indexed s -> indexed (serveAll rs s).
Proof.
  unfold serveAll. revert s.
  induction rs as [|r rs IH]; intros s Hrs Hix; [exact Hix|].
  cbn [fold_left]. apply IH.
  - exact (Forall_inv_tail Hrs).
  - apply indexed_serve; [exact (Forall_inv Hrs)|exact Hix].
Qed.

Lemma keepsIdentity_setTruth (tv : TruthValue) : keepsIdentity (setTruth tv).
Proof. intros a. destruct a; repeat split. Qed.

(** X1.  The four maps of an [AtomSpace] never disagree.  After any
    sequence of AddAtom, UpdateAtom and DeleteAtom requests on a new
    store, with updaters that work through the [Atom] interface, the
    primary map points to the atom of each id, and the tenant index, the
    type index and the name index hold exactly the atoms of the primary
    map, each under its own tenant, type and name. *)
Theorem AtomSpace_indices_agree (rs : list Request) :
  Forall throughInterface rs -> indexed (serveAll rs NewAtomSpace).
Proof. intros Hrs. apply indexed_serveAll; [exact Hrs|apply indexed_NewAtomSpace]. Qed.

Lemma AtomSpace_indices_agree_witness :
  indexed (serveAll [ReqAdd n1; ReqAdd n3; ReqUpdate "n1" "t" (setTruth (mkTruthValue 0.5 0.5));
                     ReqDelete "n3" "u"] NewAtomSpace).
Proof.
  apply AtomSpace_indices_agree.
  repeat (apply List.Forall_cons; [first [exact I | apply keepsIdentity_setTruth]|]).
  apply List.Forall_nil.
Defined.

Lemma In_bucket {V : Type} (m : gmap string V) (v : V) :
  In v (List.map snd (map_to_list m)) <-> exists id, m !! id = Some v.
Proof.
  rewrite in_map_iff. split.
  - intros ([id v'] & <- & Hin). exists id.
    apply list_elem_of_In, elem_of_map_to_list in Hin. exact Hin.
  - intros (id & Hid). exists (id, v). split; [reflexivity|].
    apply list_elem_of_In, elem_of_map_to_list. exact Hid.
Qed.

Lemma default_bucket {K : Type} `{Countable K} {V : Type} (M : gmap K (gmap string V))
    (k : K) (id : string) (v : V) :
  default ∅ (M !! k) !! id = Some v <-> exists m, M !! k = Some m /\ m !! id = Some v.
Proof.
  destruct (M !! k) as [m|]; simpl.
  - split; [eauto|]. intros (m' & [= <-] & Hv). exact Hv.
  - rewrite lookup_empty. split; [discriminate|]. intros (m' & Hm & _). discriminate.
Qed.

Lemma In_order {A : Type} (ord : Order A) (l : list A) (x : A) :
  is_order ord -> In x (ord l) <-> In x l.
Proof.
  intros Hord. split; apply Permutation_in; [apply Hord|symmetry; apply Hord].
Qed.

Lemma queryAtomsInternal_spec (ord : Order nat) (t : string) (filter : option (Atom -> bool))
    (s : AtomSpace) (l : nat) :
  is_order ord -> indexed s ->
  In l (queryAtomsInternal ord t filter s) <->
  exists a, atoms s !! GetID a = Some l /\ load s l = Some a /\
            GetTenantID a = t /\ keeps filter a = true.
Proof.
  intros Hord (Hp & Hten & _). unfold queryAtomsInternal.
  rewrite filter_In, (In_order ord _ _ Hord), In_bucket. split.
  - intros ((id & Hid) & Hk).
    apply default_bucket, Hten in Hid as (Hl & a & Ha & Hta).
    rewrite Ha in Hk. exists a. destruct (Hp _ _ Hl) as (a' & Ha' & Hida).
    assert (a' = a) by congruence. subst a'. subst id. auto.
  - intros (a & Hl & Ha & Hta & Hk). split.
    + exists (GetID a). apply default_bucket, Hten. eauto.
    + rewrite Ha. exact Hk.
Qed.

(** X2.  Tenant isolation of queries.  On a store whose maps agree,
    QueryAtoms for a tenant returns exactly the stored atoms of that
    tenant that pass the filter: no atom of another tenant is ever
    listed, and no atom of the tenant is left out, whatever order the map
    is ranged over. *)
Theorem QueryAtoms_exactly_the_tenant (ord : Order nat) (t : string)
    (filter : option (Atom -> bool)) (rs : list Request) (l : nat) :
  is_order ord ->
  Forall throughInterface rs ->
  let s := serveAll rs NewAtomSpace in
  In l (QueryAtoms ord t filter s) <->
  exists a, atoms s !! GetID a = Some l /\ load s l = Some a /\
            GetTenantID a = t /\ keeps filter a = true.
Proof.
  intros Hord Hrs s. apply queryAtomsInternal_spec; [exact Hord|].
  apply indexed_serveAll; [exact Hrs|apply indexed_NewAtomSpace].
Qed.

Lemma QueryAtoms_exactly_the_tenant_witness :
  In 2%nat (QueryAtoms (fun l => l) "u" None small) <->
  exists a, atoms small !! GetID a = Some 2%nat /\ load small 2 = Some a /\
            GetTenantID a = "u" /\ keeps None a = true.
Proof.
  apply (QueryAtoms_exactly_the_tenant (fun l => l) "u" None
           [ReqAdd n1; ReqAdd n2; ReqAdd n3] 2).
  - intros l. reflexivity.
  - repeat (apply List.Forall_cons; [exact I|]). apply List.Forall_nil.
Defined.

Lemma addAtomInternal_GetAtom (a : Atom) (s : AtomSpace) :
  atoms s !! GetID a = None ->
  snd (addAtomInternal a s) = None /\
  GetAtom (GetID a) (GetTenantID a) (fst (addAtomInternal a s)) = inl (length (cells s)) /\
  load (fst (addAtomInternal a s)) (length (cells s)) = Some a /\
  (forall t', t' <> GetTenantID a ->
              GetAtom (GetID a) t' (fst (addAtomInternal a s)) = inr (ErrTenantMismatch t')).
Proof.
  intros Hfresh. unfold addAtomInternal. rewrite Hfresh.
  cbn [fst snd]. unfold GetAtom, load. cbn [atoms cells].
  rewrite lookup_insert_eq, lookup_app_r, Nat.sub_diag by lia. cbn [lookup list_lookup].
  split; [reflexivity|]. split; [rewrite decide_True by reflexivity; reflexivity|].
  split; [reflexivity|].
  intros t' Hne. rewrite decide_False by congruence. reflexivity.
Qed.

(** X3.  AddAtom / GetAtom round trip.  An atom whose id is not in the
    store is accepted, and GetAtom with its id and its tenant then
    returns a pointer to it; GetAtom with its id and any other tenant
    fails with the tenant-mismatch error. *)
Theorem AddAtom_then_GetAtom (a : Atom) (s : AtomSpace) :
  atoms s !! GetID a = None ->
  let s' := fst (AddAtom a s) in
  snd (AddAtom a s) = None /\
  (exists l, GetAtom (GetID a) (GetTenantID a) s' = inl l /\ load s' l = Some a) /\
  (forall t', t' <> GetTenantID a ->
              GetAtom (GetID a) t' s' = inr (ErrTenantMismatch t')).
Proof.
  intros Hfresh. cbn [AddAtom AtomSpace_interface].
  destruct (addAtomInternal_GetAtom a s Hfresh) as (Hok & Hget & Hload & Hother).
  split; [exact Hok|]. split; [eauto|exact Hother].
Qed.

Lemma AddAtom_then_GetAtom_witness :
  snd (AddAtom n1 NewAtomSpace) = None /\
  (exists l, GetAtom (GetID n1) (GetTenantID n1) (fst (AddAtom n1 NewAtomSpace)) = inl l /\
             load (fst (AddAtom n1 NewAtomSpace)) l = Some n1) /\
  (forall t', t' <> GetTenantID n1 ->
              GetAtom (GetID n1) t' (fst (AddAtom n1 NewAtomSpace)) = inr (ErrTenantMismatch t')).
Proof. apply (AddAtom_then_GetAtom n1 NewAtomSpace). reflexivity. Defined.

(** X4.  Ids are unique across tenants.  Once an atom has been offered
    to a store, every atom with the same id is rejected with the
    already-exists error and the store stays as it was, also when the
    second atom belongs to another tenant or differs in name, type or
    truth value. *)
Theorem AddAtom_same_id_rejected (a b : Atom) (s : AtomSpace) :
  GetID b = GetID a ->
  AddAtom b (fst (AddAtom a s)) = (fst (AddAtom a s), Some (ErrAlreadyExists (GetID a))).
Proof.
  intros Hid. cbn [AddAtom AtomSpace_interface].
  assert (Hin : is_Some (atoms (fst (addAtomInternal a s)) !! GetID a)).
  { unfold addAtomInternal. destruct (atoms s !! GetID a) as [l|] eqn:Hl; cbn [fst atoms].
    - rewrite Hl. eauto.
    - rewrite lookup_insert_eq. eauto. }
  destruct Hin as (l & Hl).
  unfold addAtomInternal at 1. rewrite Hid, Hl. reflexivity.
Qed.

Lemma AddAtom_same_id_rejected_witness :
  AddAtom (NewNode "n1" "Other" "u" PredicateNodeType) (fst (AddAtom n1 NewAtomSpace))
  = (fst (AddAtom n1 NewAtomSpace), Some (ErrAlreadyExists (GetID n1))).
Proof.
  apply (AddAtom_same_id_rejected n1 (NewNode "n1" "Other" "u" PredicateNodeType) NewAtomSpace).
  reflexivity.
Defined.

(** X5.  DeleteAtom.  A failed DeleteAtom (unknown id, or an atom of
    another tenant) leaves the store as it was.  After a successful one
    GetAtom of that id fails with the not-found error for every tenant,
    the lookups of all other ids are as before, and an atom with that id
    can be added again. *)
Theorem DeleteAtom_then_GetAtom (atomID tenantID : string) (s : AtomSpace) :
  let s' := fst (DeleteAtom atomID tenantID s) in
  (snd (DeleteAtom atomID tenantID s) <> None -> s' = s) /\
  (snd (DeleteAtom atomID tenantID s) = None ->
   (forall t, GetAtom atomID t s' = inr (ErrNotFound atomID)) /\
   (forall id t, id <> atomID -> GetAtom id t s' = GetAtom id t s) /\
   (forall a, GetID a = atomID -> snd (AddAtom a s') = None)).
Proof.
  cbn [DeleteAtom AddAtom AtomSpace_interface]. unfold deleteAtomInternal.
  destruct (atoms s !! atomID) as [l0|] eqn:Hl0; [|split; [reflexivity|discriminate]].
  destruct (load s l0) as [atom|] eqn:Hatom; [|split; [reflexivity|discriminate]].
  destruct (decide (GetTenantID atom = tenantID)) as [Ht|]; [|split; [reflexivity|discriminate]].
  cbn [fst snd]. split; [congruence|]. intros _.
  split; [|split].
  - intros t. unfold GetAtom. cbn [atoms]. rewrite lookup_delete_eq. reflexivity.
  - intros id t Hne. unfold GetAtom, load. cbn [atoms cells].
    rewrite lookup_delete_ne by congruence. reflexivity.
  - intros a Ha. unfold addAtomInternal. cbn [atoms]. rewrite Ha, lookup_delete_eq. reflexivity.
Qed.

Lemma GetAtomsByName_spec (ord : Order string) (t n : string) (s : AtomSpace) (l : nat) :
  is_order ord -> indexed s ->
  In l (GetAtomsByName ord t n s) <->
  exists a, atoms s !! GetID a = Some l /\ load s l = Some a /\
            GetTenantID a = t /\ GetName a = n.
Proof.
  intros Hord (Hp & _ & _ & Hnm). unfold GetAtomsByName.
  rewrite <- list_elem_of_In, list_elem_of_omap. split.
  - intros (id & Hin & Hl).
    destruct (atoms s !! id) as [l'|] eqn:Hl'; [|discriminate].
    destruct (load s l') as [a|] eqn:Ha; [|discriminate].
    destruct (decide (GetTenantID a = t)) as [Hta|]; [|discriminate].
    injection Hl as ->.
    apply list_elem_of_In, (In_order ord _ _ Hord), in_map_iff in Hin as ([id' b] & Hfst & Hin).
    simpl in Hfst. subst id'.
    apply list_elem_of_In, elem_of_map_to_list, default_bucket in Hin.
    destruct (proj1 (Hnm n id)) as (l2 & a2 & Hl2 & Ha2 & Hn2); [destruct Hin; eauto|].
    assert (l2 = l) by congruence. subst l2. assert (a2 = a) by congruence. subst a2.
    destruct (Hp _ _ Hl') as (a3 & Ha3 & Hid3). assert (a3 = a) by congruence. subst a3.
    exists a. subst id. auto.
  - intros (a & Hl & Ha & Hta & Hn).
    exists (GetID a). split.
    + destruct (proj2 (Hnm n (GetID a))) as (m & b & Hm & Hb); [eauto|].
      apply list_elem_of_In, (In_order ord _ _ Hord), in_map_iff.
      exists (GetID a, b). split; [reflexivity|].
      apply list_elem_of_In, elem_of_map_to_list, default_bucket. eauto.
    + rewrite Hl, Ha. rewrite decide_True by exact Hta. reflexivity.
Qed.

(** X6.  The name index and the tenant index answer alike.
    GetAtomsByName, which reads the name index and the primary map,
    returns the same atoms as QueryAtoms with a filter on the name, which
    reads the tenant index. *)
Theorem GetAtomsByName_agrees_with_QueryAtoms (ord : Order string) (ord' : Order nat)
    (t n : string) (rs : list Request) (l : nat) :
  is_order ord -> is_order ord' ->
  Forall throughInterface rs ->
  let s := serveAll rs NewAtomSpace in
  In l (GetAtomsByName ord t n s) <->
  In l (QueryAtoms ord' t (Some (fun a => bool_decide (GetName a = n))) s).
Proof.
  intros Hord Hord' Hrs s.
  assert (Hix : indexed s) by (apply indexed_serveAll; [exact Hrs|apply indexed_NewAtomSpace]).
  rewrite (GetAtomsByName_spec ord t n s l Hord Hix).
  cbn [QueryAtoms AtomSpace_interface].
  rewrite (queryAtomsInternal_spec ord' t _ s l Hord' Hix).
  split; intros (a & Hl & Ha & Hta & Hn); exists a; (split; [exact Hl|split; [exact Ha|split; [exact Hta|]]]).
  - simpl. apply bool_decide_eq_true. exact Hn.
  - simpl in Hn. apply bool_decide_eq_true in Hn. exact Hn.
Qed.

Lemma GetAtomsByName_agrees_with_QueryAtoms_witness :
  In 0%nat (GetAtomsByName (fun l => l) "t" "N" small) <->
  In 0%nat (QueryAtoms (fun l => l) "t" (Some (fun a => bool_decide (GetName a = "N"))) small).
Proof.
  apply (GetAtomsByName_agrees_with_QueryAtoms (fun l => l) (fun l => l) "t" "N"
           [ReqAdd n1; ReqAdd n2; ReqAdd n3] 0).
  - intros l. reflexivity.
  - intros l. reflexivity.
  - repeat (apply List.Forall_cons; [exact I|]). apply List.Forall_nil.
Defined.

(** X7.  GetStats counts what QueryAtoms lists: the entry total_atoms
    for a tenant is the number of atoms QueryAtoms returns for the tenant
    with no filter. *)
Theorem GetStats_total_atoms (ord : Order nat) (t : string) (rs : list Request) :
  is_order ord ->
  Forall throughInterface rs ->
  let s := serveAll rs NewAtomSpace in
  total_atoms (GetStats t s) = Z.of_nat (length (QueryAtoms ord t None s)).
Proof.
  intros Hord Hrs s.
  assert (Hix : indexed s) by (apply indexed_serveAll; [exact Hrs|apply indexed_NewAtomSpace]).
  cbn [QueryAtoms AtomSpace_interface]. unfold GetStats, queryAtomsInternal. cbn [total_atoms].
  f_equal.
  rewrite (Permutation_length
                (filter_Permutation_list _ _ _ (Hord (List.map snd (map_to_list
                   (default ∅ (byTenant s !! t))))))).
  rewrite forallb_filter_id.
  - rewrite length_map, length_map_to_list. reflexivity.
  - apply forallb_forall. intros l Hl.
    apply In_bucket in Hl as (id & Hid).
    destruct Hix as (_ & Hten & _).
    apply default_bucket, Hten in Hid as (_ & a & Ha & _). rewrite Ha. reflexivity.
Qed.

Lemma GetStats_total_atoms_witness :
  total_atoms (GetStats "t" small) = Z.of_nat (length (QueryAtoms (fun l => l) "t" None small)).
Proof.
  apply (GetStats_total_atoms (fun l => l) "t" [ReqAdd n1; ReqAdd n2; ReqAdd n3]).
  - intros l. reflexivity.
  - repeat (apply List.Forall_cons; [exact I|]). apply List.Forall_nil.
Defined.

(* ---- the shard manager ---- *)

Lemma GetShardID_range (sm : sharding.ShardManager) (atomID tenantID : string) :
  0 < sharding.numShards sm ->
  0 <= sharding.GetShardID sm atomID tenantID < sharding.numShards sm.
Proof. intros Hn. apply Z.mod_pos_bound. exact Hn. Qed.

Lemma routed_shard (sm : sharding.ShardManager) (atomID tenantID : string) :
  0 < sharding.numShards sm ->
  length (sharding.shards sm) = Z.to_nat (sharding.numShards sm) ->
  exists shard, sharding.shards sm !! Z.to_nat (sharding.GetShardID sm atomID tenantID) = Some shard.
Proof.
  intros Hn Hlen. apply lookup_lt_is_Some_2. rewrite Hlen.
  pose proof (GetShardID_range sm atomID tenantID Hn). lia.
Qed.

Lemma managed_NewShardManager (n : Z) : 0 < n -> managed (sharding.NewShardManager n).
Proof.
  intros Hn. unfold managed, sharding.NewShardManager. cbn [sharding.numShards sharding.shards].
  split; [exact Hn|]. split; [rewrite length_map, length_seq; reflexivity|].
  intros i shard Hi. apply list_lookup_fmap_Some in Hi as (k & -> & _).
  cbn [sharding.Space sharding.Load]. split; [apply indexed_NewAtomSpace|].
  split; [reflexivity|]. intros id l a. unfold NewAtomSpace. cbn [atoms].
  rewrite lookup_empty. discriminate.
Qed.

(** What changes when the space of one shard is replaced. *)
Lemma managed_setShard (sm : sharding.ShardManager) (i : nat) (shard : sharding.Shard)
    (sp : AtomSpace) (load' : Z) :
  managed sm ->
  sharding.shards sm !! i = Some shard ->
  indexed sp ->
  load' = Z.of_nat (size (atoms sp)) ->
  (forall id l a, atoms sp !! id = Some l -> load sp l = Some a ->
                  Z.to_nat (sharding.GetShardID sm id (GetTenantID a)) = i) ->
  managed (sharding.setShard i (sharding.mkShard (sharding.ShardID shard) sp load') sm).
Proof.
  intros (Hn & Hlen & Hsh) Hi Hix Hload Hroute.
  unfold managed, sharding.setShard. cbn [sharding.numShards sharding.shards].
  split; [exact Hn|]. split; [rewrite length_insert; exact Hlen|].
  intros j shard' Hj.
  destruct (decide (j = i)) as [->|Hne].
  - rewrite list_lookup_insert_eq in Hj by exact (lookup_lt_Some _ _ _ Hi).
    injection Hj as <-. cbn [sharding.Space sharding.Load]. auto.
  - rewrite list_lookup_insert_ne in Hj by congruence. exact (Hsh _ _ Hj).
Qed.

Lemma addAtomInternal_outcome (atom : Atom) (s : AtomSpace) :
  (atoms s !! GetID atom = None /\ snd (addAtomInternal atom s) = None /\
   atoms (fst (addAtomInternal atom s)) = <[GetID atom := length (cells s)]> (atoms s) /\
   cells (fst (addAtomInternal atom s)) = cells s ++ [atom]) \/
  (is_Some (atoms s !! GetID atom) /\
   addAtomInternal atom s = (s, Some (ErrAlreadyExists (GetID atom)))).
Proof.
  unfold addAtomInternal. destruct (atoms s !! GetID atom) as [l|] eqn:Hl.
  - right. split; [eauto|reflexivity].
  - left. auto.
Qed.

Lemma managed_AddAtom (atom : Atom) (sm : sharding.ShardManager) :
  managed sm -> managed (fst (sharding.AddAtom atom sm)).
Proof.
  intros Hm. unfold sharding.AddAtom.
  destruct (sharding.shards sm !! _) as [shard|] eqn:Hi; [|exact Hm].
  pose proof Hm as (Hn & Hlen & Hsh). destruct (Hsh _ _ Hi) as (Hix & Hload & Hroute).
  destruct (addAtomInternal_outcome atom (sharding.Space shard))
    as [(Hfresh & Hok & Hatoms & Hcells)|(Hdup & Hrej)].
  - pose proof (indexed_addAtomInternal atom _ Hix) as Hix'.
    destruct (addAtomInternal atom (sharding.Space shard)) as [sp err].
    cbn [fst snd] in *. subst err. cbn [fst].
    apply managed_setShard; [exact Hm|exact Hi|exact Hix'| |].
    + rewrite Hatoms, map_size_insert_None by exact Hfresh. lia.
    + intros id l a Hl Ha. rewrite Hatoms in Hl.
      destruct (decide (id = GetID atom)) as [->|Hne].
      * rewrite lookup_insert_eq in Hl. injection Hl as <-.
        unfold load in Ha. rewrite Hcells, lookup_app_r, Nat.sub_diag in Ha by lia.
        injection Ha as <-. reflexivity.
      * rewrite lookup_insert_ne in Hl by congruence.
        apply (Hroute id l a Hl). unfold load in *. rewrite Hcells in Ha.
        rewrite lookup_app_l in Ha; [exact Ha|]. exact (indexed_bound _ _ _ Hix Hl).
  - rewrite Hrej. cbn [fst]. apply managed_setShard; auto.
Qed.

Lemma managed_UpdateAtom (atomID tenantID : string) (updater : Atom -> Atom * option Error)
    (sm : sharding.ShardManager) :
  keepsIdentity updater ->
  managed sm -> managed (fst (sharding.UpdateAtom atomID tenantID updater sm)).
Proof.
  intros Hkeep Hm. unfold sharding.UpdateAtom.
  destruct (sharding.shards sm !! _) as [shard|] eqn:Hi; [|exact Hm].
  pose proof Hm as (Hn & Hlen & Hsh). destruct (Hsh _ _ Hi) as (Hix & Hload & Hroute).
  pose proof (indexed_updateAtomInternal atomID tenantID updater _ Hkeep Hix) as Hix'.
  assert (Hfr : atoms (fst (updateAtomInternal atomID tenantID updater (sharding.Space shard)))
                = atoms (sharding.Space shard) /\
                forall l a, load (fst (updateAtomInternal atomID tenantID updater
                                         (sharding.Space shard))) l = Some a ->
                            exists a0, load (sharding.Space shard) l = Some a0 /\
                                       GetTenantID a = GetTenantID a0).
  { unfold updateAtomInternal.
    destruct (atoms (sharding.Space shard) !! atomID) as [l0|]; [|eauto].
    destruct (load (sharding.Space shard) l0) as [atom|] eqn:Hatom; [|eauto].
    destruct (decide (GetTenantID atom = tenantID)); [|eauto].
    specialize (Hkeep atom). destruct (updater atom) as [atom' err]. cbn [fst] in *.
    split; [reflexivity|]. intros l a. unfold load, store. cbn [cells].
    destruct (decide (l = l0)) as [->|Hne].
    - rewrite list_lookup_insert_eq by exact (lookup_lt_Some _ _ _ Hatom).
      intros [= <-]. exists atom. split; [exact Hatom|tauto].
    - rewrite list_lookup_insert_ne by congruence. eauto. }
  destruct Hfr as (Hatoms & Hcells).
  destruct (updateAtomInternal atomID tenantID updater (sharding.Space shard)) as [sp err].
  cbn [fst] in *.
  apply managed_setShard; [exact Hm|exact Hi|exact Hix'|rewrite Hatoms; exact Hload|].
  intros id l a Hl Ha. rewrite Hatoms in Hl.
  destruct (Hcells l a Ha) as (a0 & Ha0 & ->). exact (Hroute id l a0 Hl Ha0).
Qed.

Lemma deleteAtomInternal_outcome (atomID tenantID : string) (s : AtomSpace) :
  (is_Some (atoms s !! atomID) /\ snd (deleteAtomInternal atomID tenantID s) = None /\
   atoms (fst (deleteAtomInternal atomID tenantID s)) = delete atomID (atoms s) /\
   cells (fst (deleteAtomInternal atomID tenantID s)) = cells s) \/
  (exists e, deleteAtomInternal atomID tenantID s = (s, Some e)).
Proof.
  unfold deleteAtomInternal. destruct (atoms s !! atomID) as [l|] eqn:Hl; [|eauto].
  destruct (load s l) as [atom|]; [|eauto].
  destruct (decide (GetTenantID atom = tenantID)); [|eauto].
  left. cbn [fst snd atoms cells]. eauto.
Qed.

Lemma size_delete_present {V : Type} (m : gmap string V) (i : string) (x : V) :
  m !! i = Some x -> Z.of_nat (size (delete i m)) = Z.of_nat (size m) - 1.
Proof.
  intros Hi. rewrite <- (insert_delete_id m i x Hi) at 2.
  rewrite map_size_insert_None by apply lookup_delete_eq. lia.
Qed.

Lemma managed_DeleteAtom (atomID tenantID : string) (sm : sharding.ShardManager) :
  managed sm -> managed (fst (sharding.DeleteAtom atomID tenantID sm)).
Proof.
  intros Hm. unfold sharding.DeleteAtom.
  destruct (sharding.shards sm !! _) as [shard|] eqn:Hi; [|exact Hm].
  pose proof Hm as (Hn & Hlen & Hsh). destruct (Hsh _ _ Hi) as (Hix & Hload & Hroute).
  destruct (deleteAtomInternal_outcome atomID tenantID (sharding.Space shard))
    as [((l0 & Hl0) & Hok & Hatoms & Hcells)|(e & Hrej)].
  - pose proof (indexed_deleteAtomInternal atomID tenantID _ Hix) as Hix'.
    destruct (deleteAtomInternal atomID tenantID (sharding.Space shard)) as [sp err].
    cbn [fst snd] in *. subst err. cbn [fst].
    apply managed_setShard; [exact Hm|exact Hi|exact Hix'| |].
    + rewrite Hatoms, Hload. symmetry. exact (size_delete_present _ _ _ Hl0).
    + intros id l a Hl Ha. rewrite Hatoms in Hl.
      apply lookup_delete_Some in Hl as (_ & Hl).
      apply (Hroute id l a Hl). unfold load in *. rewrite Hcells in Ha. exact Ha.
  - rewrite Hrej. cbn [fst]. apply managed_setShard; auto.
Qed.

Lemma managed_route (r : Request) (sm : sharding.ShardManager) :
  throughInterface r -> managed sm -> managed (fst (route r sm)).
Proof.
  destruct r; simpl; intros Hr Hm.
  - apply managed_AddAtom, Hm.
  - apply managed_UpdateAtom; assumption.
  - apply managed_DeleteAtom, Hm.
Qed.

Lemma managed_routeAll (rs : list Request) (sm : sharding.ShardManager) :
  Forall throughInterface rs -> managed sm -> managed (routeAll rs sm).
Proof.
  unfold routeAll. revert sm.
  induction rs as [|r rs IH]; intros sm Hrs Hm; [exact Hm|].
  cbn [fold_left]. apply IH.
  - exact (Forall_inv_tail Hrs).
  - apply managed_route; [exact (Forall_inv Hrs)|exact Hm].
Qed.

(** X8.  The load of a shard is the number of atoms it holds.  After any
    sequence of AddAtom, UpdateAtom and DeleteAtom requests routed by a
    new manager, the load counter of every shard equals the size of the
    primary map of its atom space: rejected requests do not move it. *)
Theorem ShardManager_load_counts_atoms (n : Z) (rs : list Request) :
  0 < n ->
  Forall throughInterface rs ->
  Forall (fun shard => sharding.Load shard = Z.of_nat (size (atoms (sharding.Space shard))))
         (sharding.shards (routeAll rs (sharding.NewShardManager n))).
Proof.
  intros Hn Hrs.
  destruct (managed_routeAll rs _ Hrs (managed_NewShardManager n Hn)) as (_ & _ & Hsh).
  apply Forall_lookup. intros i shard Hi. apply (Hsh i shard Hi).
Qed.

Lemma ShardManager_load_counts_atoms_witness :
  Forall (fun shard => sharding.Load shard = Z.of_nat (size (atoms (sharding.Space shard))))
         (sharding.shards (routeAll [ReqAdd n1; ReqAdd n1; ReqAdd n2; ReqDelete "n2" "u";
                                     ReqDelete "n1" "t"]
                                    (sharding.NewShardManager 8))).
Proof.
  apply ShardManager_load_counts_atoms; [reflexivity|].
  repeat (apply List.Forall_cons; [exact I|]). apply List.Forall_nil.
Defined.

Lemma sharding_GetAtom_inl (atomID tenantID : string) (sm : sharding.ShardManager)
    (p : nat * nat) :
  sharding.GetAtom atomID tenantID sm = inl p <->
  exists shard,
    fst p = Z.to_nat (sharding.GetShardID sm atomID tenantID) /\
    sharding.shards sm !! fst p = Some shard /\
    GetAtom atomID tenantID (sharding.Space shard) = inl (snd p).
Proof.
  unfold sharding.GetAtom. destruct p as [i l]. cbn [fst snd]. split.
  - destruct (sharding.shards sm !! _) as [shard|] eqn:Hi; [|discriminate].
    destruct (GetAtom atomID tenantID (sharding.Space shard)) as [l'|e] eqn:Hg; [|discriminate].
    intros [= <- <-]. exists shard. auto.
  - intros (shard & -> & Hi & Hg). rewrite Hi, Hg. reflexivity.
Qed.

Lemma GetAtom_inl (atomID tenantID : string) (s : AtomSpace) (l : nat) :
  GetAtom atomID tenantID s = inl l <->
  atoms s !! atomID = Some l /\ exists a, load s l = Some a /\ GetTenantID a = tenantID.
Proof.
  unfold GetAtom. split.
  - destruct (atoms s !! atomID) as [l'|]; [|discriminate].
    destruct (load s l') as [a|] eqn:Ha; [|discriminate].
    destruct (decide (GetTenantID a = tenantID)) as [Ht|]; [|discriminate].
    intros [= <-]. eauto.
  - intros (-> & a & -> & Ht). rewrite decide_True by exact Ht. reflexivity.
Qed.

(** X9.  Round trip through the shard manager.  On a manager reached
    from a new one, an atom that AddAtom accepts is found again by
    GetAtom with its id and tenant, and the pointer returned leads to the
    atom as it was added. *)
Theorem ShardManager_AddAtom_then_GetAtom (n : Z) (rs : list Request) (a : Atom) :
  0 < n ->
  Forall throughInterface rs ->
  let sm := routeAll rs (sharding.NewShardManager n) in
  snd (sharding.AddAtom a sm) = None ->
  exists p, sharding.GetAtom (GetID a) (GetTenantID a) (fst (sharding.AddAtom a sm)) = inl p /\
            sharding.deref (fst (sharding.AddAtom a sm)) p = Some a.
Proof.
  intros Hn Hrs sm.
  pose proof (managed_routeAll rs _ Hrs (managed_NewShardManager n Hn)) as (Hpos & Hlen & Hsh).
  fold sm in Hpos, Hlen, Hsh.
  destruct (routed_shard sm (GetID a) (GetTenantID a) Hpos Hlen) as (shard & Hi).
  unfold sharding.AddAtom. rewrite Hi.
  destruct (addAtomInternal_outcome a (sharding.Space shard))
    as [(Hfresh & _)|(_ & Hrej)]; [|rewrite Hrej; discriminate].
  destruct (addAtomInternal_GetAtom a _ Hfresh) as (Hok & Hget & Hload & _).
  destruct (addAtomInternal a (sharding.Space shard)) as [sp err]. cbn [fst snd] in *.
  subst err. cbn [fst snd]. intros _.
  exists (Z.to_nat (sharding.GetShardID sm (GetID a) (GetTenantID a)),
          length (cells (sharding.Space shard))).
  assert (Hnew : sharding.shards
                   (sharding.setShard (Z.to_nat (sharding.GetShardID sm (GetID a) (GetTenantID a)))
                      (sharding.mkShard (sharding.ShardID shard) sp (sharding.Load shard + 1)) sm)
                 !! Z.to_nat (sharding.GetShardID sm (GetID a) (GetTenantID a))
                 = Some (sharding.mkShard (sharding.ShardID shard) sp (sharding.Load shard + 1))).
  { unfold sharding.setShard. cbn [sharding.shards].
    apply list_lookup_insert_eq. exact (lookup_lt_Some _ _ _ Hi). }
  split.
  - apply sharding_GetAtom_inl. eexists. cbn [fst snd].
    split; [reflexivity|]. split; [exact Hnew|exact Hget].
  - unfold sharding.deref. cbn [fst snd]. rewrite Hnew. exact Hload.
Qed.

Lemma ShardManager_AddAtom_then_GetAtom_witness :
  exists p, sharding.GetAtom (GetID n2) (GetTenantID n2)
              (fst (sharding.AddAtom n2 (routeAll [ReqAdd n1] (sharding.NewShardManager 8))))
            = inl p /\
            sharding.deref
              (fst (sharding.AddAtom n2 (routeAll [ReqAdd n1] (sharding.NewShardManager 8)))) p
            = Some n2.
Proof.
  apply (ShardManager_AddAtom_then_GetAtom 8 [ReqAdd n1] n2).
  - reflexivity.
  - repeat (apply List.Forall_cons; [exact I|]). apply List.Forall_nil.
  - vm_compute. reflexivity.
Defined.

Lemma In_concat_imap {A B : Type} (f : nat -> A -> list B) (l : list A) (y : B) :
  In y (concat (imap f l)) <-> exists i x, l !! i = Some x /\ In y (f i x).
Proof.
  rewrite in_concat. split.
  - intros (ys & Hys & Hy).
    apply list_elem_of_In, elem_of_lookup_imap in Hys as (i & x & -> & Hx). eauto.
  - intros (i & x & Hx & Hy). exists (f i x). split; [|exact Hy].
    apply list_elem_of_In, elem_of_lookup_imap. eauto.
Qed.

Lemma sharding_QueryAtoms_spec (sm : sharding.ShardManager) (ord : Order (nat * nat))
    (t : string) (filter : option (Atom -> bool)) (p : nat * nat) :
  managed sm ->
  is_order ord ->
  In p (sharding.QueryAtoms ord t filter sm) <->
  exists a, sharding.deref sm p = Some a /\
            sharding.GetAtom (GetID a) t sm = inl p /\
            keeps filter a = true.
Proof.
  intros (Hpos & Hlen & Hsh) Hord.
  unfold sharding.QueryAtoms. rewrite (In_order ord _ _ Hord), In_concat_imap. split.
  - intros (i & shard & Hi & Hin). apply in_map_iff in Hin as (l & <- & Hin).
    destruct (Hsh _ _ Hi) as (Hix & _ & Hroute).
    apply (queryAtomsInternal_spec (fun l => l) t filter _ l) in Hin;
      [|intros x; reflexivity|exact Hix].
    destruct Hin as (a & Hl & Ha & Hta & Hk).
    exists a. unfold sharding.deref. cbn [fst snd]. rewrite Hi.
    split; [exact Ha|]. split; [|exact Hk].
    apply sharding_GetAtom_inl. exists shard. cbn [fst snd].
    split; [rewrite <- Hta; symmetry; exact (Hroute _ _ _ Hl Ha)|].
    split; [exact Hi|]. apply GetAtom_inl. eauto.
  - intros (a & Hd & Hg & Hk).
    apply sharding_GetAtom_inl in Hg as (shard & Hfst & Hi & Hg).
    apply GetAtom_inl in Hg as (Hl & a' & Ha' & Hta).
    unfold sharding.deref in Hd. rewrite Hi in Hd.
    assert (a' = a) by congruence. subst a'.
    exists (fst p), shard. split; [exact Hi|].
    apply in_map_iff. exists (snd p). split; [destruct p; reflexivity|].
    destruct (Hsh _ _ Hi) as (Hix & _).
    apply (queryAtomsInternal_spec (fun l => l) t filter _ (snd p));
      [intros x; reflexivity|exact Hix|]. eauto.
Qed.

(** X10.  QueryAtoms and GetAtom of the manager agree.  On a manager
    reached from a new one, QueryAtoms for a tenant lists exactly the
    pointers that GetAtom returns for the atoms of that tenant which pass
    the filter, in whatever order the shards answer: atoms of other
    tenants are never listed, and no atom of the tenant is missed. *)
Theorem ShardManager_QueryAtoms_exactly_the_tenant (n : Z) (rs : list Request)
    (ord : Order (nat * nat)) (t : string) (filter : option (Atom -> bool)) (p : nat * nat) :
  0 < n ->
  Forall throughInterface rs ->
  is_order ord ->
  let sm := routeAll rs (sharding.NewShardManager n) in
  In p (sharding.QueryAtoms ord t filter sm) <->
  exists a, sharding.deref sm p = Some a /\
            sharding.GetAtom (GetID a) t sm = inl p /\
            keeps filter a = true.
Proof.
  intros Hn Hrs Hord sm. apply sharding_QueryAtoms_spec; [|exact Hord].
  apply managed_routeAll; [exact Hrs|apply managed_NewShardManager; exact Hn].
Qed.

Lemma ShardManager_QueryAtoms_exactly_the_tenant_witness :
  In (3%nat, 0%nat)
     (sharding.QueryAtoms (fun l => l) "t" None
        (routeAll [ReqAdd n1; ReqAdd n3] (sharding.NewShardManager 8))) <->
  exists a, sharding.deref (routeAll [ReqAdd n1; ReqAdd n3] (sharding.NewShardManager 8))
              (3%nat, 0%nat) = Some a /\
            sharding.GetAtom (GetID a) "t"
              (routeAll [ReqAdd n1; ReqAdd n3] (sharding.NewShardManager 8)) = inl (3%nat, 0%nat) /\
            keeps None a = true.
Proof.
  apply (ShardManager_QueryAtoms_exactly_the_tenant 8 [ReqAdd n1; ReqAdd n3]
           (fun l => l) "t" None (3%nat, 0%nat)).
  - reflexivity.
  - repeat (apply List.Forall_cons; [exact I|]). apply List.Forall_nil.
  - intros l. reflexivity.
Defined.

Lemma numShards_route (r : Request) (sm : sharding.ShardManager) :
  sharding.numShards (fst (route r sm)) = sharding.numShards sm.
Proof.
  destruct r; simpl.
  - unfold sharding.AddAtom. destruct (sharding.shards sm !! _); [|reflexivity].
    destruct (addAtomInternal _ _) as [sp [e|]]; reflexivity.
  - unfold sharding.UpdateAtom. destruct (sharding.shards sm !! _); [|reflexivity].
    destruct (updateAtomInternal _ _ _ _) as [sp e]; reflexivity.
  - unfold sharding.DeleteAtom. destruct (sharding.shards sm !! _); [|reflexivity].
    destruct (deleteAtomInternal _ _ _) as [sp [e|]]; reflexivity.
Qed.

Lemma numShards_routeAll (rs : list Request) (sm : sharding.ShardManager) :
  sharding.numShards (routeAll rs sm) = sharding.numShards sm.
Proof.
  unfold routeAll. revert sm. induction rs as [|r rs IH]; intros sm; [reflexivity|].
  cbn [fold_left]. rewrite IH. apply numShards_route.
Qed.

(** X11.  Routing never leaves the table.  With a positive shard count
    the shard index of every id and tenant lies in [0, numShards), and on
    a manager reached from a new one GetShard finds a shard for every id
    and tenant. *)
Theorem routing_stays_in_range (n : Z) (rs : list Request) (atomID tenantID : string) :
  0 < n ->
  Forall throughInterface rs ->
  let sm := routeAll rs (sharding.NewShardManager n) in
  0 <= sharding.GetShardID sm atomID tenantID < n /\
  is_Some (sharding.GetShard sm atomID tenantID).
Proof.
  intros Hn Hrs sm.
  pose proof (managed_routeAll rs _ Hrs (managed_NewShardManager n Hn)) as (Hpos & Hlen & _).
  fold sm in Hpos, Hlen.
  assert (Hnum : sharding.numShards sm = n) by apply numShards_routeAll.
  split.
  - rewrite <- Hnum. apply GetShardID_range. exact Hpos.
  - destruct (routed_shard sm atomID tenantID Hpos Hlen) as (shard & Hi).
    unfold sharding.GetShard. rewrite Hi. eauto.
Qed.

Lemma routing_stays_in_range_witness :
  0 <= sharding.GetShardID (routeAll [ReqAdd n1] (sharding.NewShardManager 8)) "x" "a" < 8 /\
  is_Some (sharding.GetShard (routeAll [ReqAdd n1] (sharding.NewShardManager 8)) "x" "a").
Proof.
  apply (routing_stays_in_range 8 [ReqAdd n1] "x" "a").
  - reflexivity.
  - repeat (apply List.Forall_cons; [exact I|]). apply List.Forall_nil.
Defined.

(* ---- one id, two tenants ---- *)

Lemma sharding_AddAtom_present (atom : Atom) (sm : sharding.ShardManager) :
  0 < sharding.numShards sm ->
  length (sharding.shards sm) = Z.to_nat (sharding.numShards sm) ->
  let sm' := fst (sharding.AddAtom atom sm) in
  sharding.numShards sm' = sharding.numShards sm /\
  length (sharding.shards sm') = length (sharding.shards sm) /\
  exists shard,
    sharding.shards sm' !! Z.to_nat (sharding.GetShardID sm (GetID atom) (GetTenantID atom))
    = Some shard /\
    is_Some (atoms (sharding.Space shard) !! GetID atom).
Proof.
  intros Hn Hlen.
  destruct (routed_shard sm (GetID atom) (GetTenantID atom) Hn Hlen) as (shard & Hi).
  unfold sharding.AddAtom. rewrite Hi.
  assert (Hin : is_Some (atoms (fst (addAtomInternal atom (sharding.Space shard))) !! GetID atom)).
  { destruct (addAtomInternal_outcome atom (sharding.Space shard))
      as [(_ & _ & -> & _)|(Hdup & ->)]; [|exact Hdup].
    rewrite lookup_insert_eq. eauto. }
  destruct (addAtomInternal atom (sharding.Space shard)) as [sp err]. cbn [fst] in Hin.
  destruct err as [e|]; cbn [fst]; unfold sharding.setShard; cbn [sharding.numShards sharding.shards];
    (split; [reflexivity|]); (split; [apply length_insert|]);
    eexists; (split; [apply list_lookup_insert_eq; exact (lookup_lt_Some _ _ _ Hi)|exact Hin]).
Qed.

(** X12.  One concept, two tenants, one shard.  The id of a concept
    node depends on its name only, and a shard keeps one primary map for
    all tenants.  With eight shards, when two tenant ids differ in one
    byte whose low three bits agree (so that they route every id alike),
    a concept created for the first tenant makes CreateConceptNode of the
    same name fail for the second tenant with the already-exists error. *)
Theorem same_concept_collides_across_tenants (p q name : string) (c c' : ascii)
    (ce : cognitive.CognitiveEngine) :
  sharding.numShards (cognitive.shardManager ce) = 8 ->
  length (sharding.shards (cognitive.shardManager ce)) = 8%nat ->
  byte c mod 8 = byte c' mod 8 ->
  let t := String.append p (String c q) in
  let t' := String.append p (String c' q) in
  snd (cognitive.CreateConceptNode name t' (fst (cognitive.CreateConceptNode name t ce)))
  = inr (ErrAlreadyExists (GenerateAtomID ConceptNodeType name [])).
Proof.
  intros Hnum Hlen Hlow t t'.
  unfold cognitive.CreateConceptNode.
  set (atomID := GenerateAtomID ConceptNodeType name []).
  set (node := NewNode atomID name t ConceptNodeType).
  set (node' := NewNode atomID name t' ConceptNodeType).
  assert (Hfst : cognitive.shardManager
                   (fst (match cognitive.AddAtom node ce with
                         | (ce', Some e) => (ce', inr e)
                         | (ce', None) => (ce', inl node)
                         end)) = fst (sharding.AddAtom node (cognitive.shardManager ce))).
  { unfold cognitive.AddAtom. destruct (sharding.AddAtom node _) as [sm [e|]]; reflexivity. }
  set (ce1 := fst (match cognitive.AddAtom node ce with
                   | (ce', Some e) => (ce', inr e)
                   | (ce', None) => (ce', inl node)
                   end)) in *.
  destruct (sharding_AddAtom_present node (cognitive.shardManager ce))
    as (Hnum1 & Hlen1 & shard & Hi & (l & Hl)); [lia|rewrite Hnum, Hlen; reflexivity|].
  rewrite <- Hfst in Hnum1, Hlen1, Hi.
  unfold cognitive.AddAtom, sharding.AddAtom.
  assert (Hsame : Z.to_nat (sharding.GetShardID (cognitive.shardManager ce1) (GetID node')
                              (GetTenantID node'))
                  = Z.to_nat (sharding.GetShardID (cognitive.shardManager ce) (GetID node)
                                (GetTenantID node))).
  { unfold sharding.GetShardID, sharding.getShardIDInternal. rewrite Hnum1, Hnum.
    f_equal. symmetry. apply Sum64_one_byte. exact Hlow. }
  rewrite Hsame, Hi.
  unfold addAtomInternal. change (GetID node') with atomID. change (GetID node) with atomID in Hl.
  rewrite Hl. reflexivity.
Qed.

Lemma same_concept_collides_across_tenants_witness :
  snd (cognitive.CreateConceptNode "Cat" "i"
         (fst (cognitive.CreateConceptNode "Cat" "a" (cognitive.NewCognitiveEngine None))))
  = inr (ErrAlreadyExists (GenerateAtomID ConceptNodeType "Cat" [])).
Proof.
  apply (same_concept_collides_across_tenants "" "" "Cat" "a" "i"
           (cognitive.NewCognitiveEngine None)).
  all: reflexivity.
Defined.

(* ---- rebalancing ---- *)

Lemma minmax_fold (l : list sharding.Shard) (mn mx : Z) :
  let r := fold_left minmaxStep l (mn, mx) in
  fst r <= mn /\ mx <= snd r /\
  (forall sh, In sh l -> fst r <= sharding.Load sh <= snd r) /\
  (fst r = mn \/ exists sh, In sh l /\ fst r = sharding.Load sh) /\
  (snd r = mx \/ exists sh, In sh l /\ snd r = sharding.Load sh).
Proof.
  revert mn mx. induction l as [|sh l IH]; intros mn mx; cbn [fold_left].
  - cbn [fst snd]. split; [lia|]. split; [lia|]. split; [intros sh []|]. auto.
  - unfold minmaxStep at 2. cbv beta iota zeta.
    specialize (IH (if sharding.Load sh <? mn then sharding.Load sh else mn)
                   (if mx <? sharding.Load sh then sharding.Load sh else mx)).
    cbv zeta in IH.
    destruct (fold_left minmaxStep l _) as [mn' mx'] eqn:Hf. cbn [fst snd] in *.
    destruct IH as (Hmn & Hmx & Hall & Hin1 & Hin2).
    assert (Hsh : In sh (sh :: l)) by (left; reflexivity).
    split; [destruct (sharding.Load sh <? mn) eqn:E; [apply Z.ltb_lt in E|]; lia|].
    split; [destruct (mx <? sharding.Load sh) eqn:E; [apply Z.ltb_lt in E|]; lia|].
    split.
    { intros sh' [<-|Hsh']; [|apply Hall; exact Hsh'].
      destruct (Z.ltb_spec (sharding.Load sh) mn), (Z.ltb_spec mx (sharding.Load sh)); lia. }
    split.
    + destruct Hin1 as [->|(sh' & Hsh' & ->)].
      * destruct (sharding.Load sh <? mn); [right; exists sh; auto|left; reflexivity].
      * right. exists sh'. split; [right; exact Hsh'|reflexivity].
    + destruct Hin2 as [->|(sh' & Hsh' & ->)].
      * destruct (mx <? sharding.Load sh); [right; exists sh; auto|left; reflexivity].
      * right. exists sh'. split; [right; exact Hsh'|reflexivity].
Qed.

Lemma needsRebalance_minmax (sm : sharding.ShardManager) :
  sharding.needsRebalance sm =
  match sharding.shards sm with
  | [] => false
  | first :: _ =>
      sharding.rebalanceThreshold sm
      <? snd (fold_left minmaxStep (sharding.shards sm) (sharding.Load first, sharding.Load first))
         - fst (fold_left minmaxStep (sharding.shards sm) (sharding.Load first, sharding.Load first))
  end.
Proof.
  unfold sharding.needsRebalance. destruct (sharding.shards sm) as [|first rest]; [reflexivity|].
  match goal with
  | |- (let '(_, _) := ?X in _) = _ =>
      change X with (fold_left minmaxStep (first :: rest)
                       (sharding.Load first, sharding.Load first))
  end.
  destruct (fold_left minmaxStep (first :: rest) _) as [mn mx]. reflexivity.
Qed.

(** X13.  needsRebalance compares the extremes.  It answers true
    exactly when two shards of the manager differ in load by more than
    the rebalance threshold; a manager without shards never needs
    rebalancing. *)
Theorem needsRebalance_spec (sm : sharding.ShardManager) :
  sharding.needsRebalance sm = true <->
  exists sh1 sh2, In sh1 (sharding.shards sm) /\ In sh2 (sharding.shards sm) /\
                  sharding.rebalanceThreshold sm < sharding.Load sh2 - sharding.Load sh1.
Proof.
  rewrite needsRebalance_minmax.
  destruct (sharding.shards sm) as [|first rest] eqn:Hs.
  - split; [discriminate|]. intros (sh1 & _ & [] & _).
  - pose proof (minmax_fold (first :: rest) (sharding.Load first) (sharding.Load first)) as Hmm.
    cbv zeta in Hmm.
    destruct (fold_left minmaxStep (first :: rest) _) as [mn mx]. cbn [fst snd] in *.
    destruct Hmm as (_ & _ & Hall & Hin1 & Hin2).
    rewrite Z.ltb_lt. split.
    + intros Hlt.
      assert (H1 : exists sh, In sh (first :: rest) /\ mn = sharding.Load sh).
      { destruct Hin1 as [->|H1]; [exists first; split; [left; reflexivity|reflexivity]|exact H1]. }
      assert (H2 : exists sh, In sh (first :: rest) /\ mx = sharding.Load sh).
      { destruct Hin2 as [->|H2]; [exists first; split; [left; reflexivity|reflexivity]|exact H2]. }
      destruct H1 as (sh1 & Hsh1 & ->), H2 as (sh2 & Hsh2 & ->). eauto.
    + intros (sh1 & sh2 & Hsh1 & Hsh2 & Hlt).
      pose proof (Hall _ Hsh1). pose proof (Hall _ Hsh2). lia.
Qed.

(* ---- what a run of the engine does to the store ---- *)

Lemma sharding_AddAtom_deref (atom : Atom) (sm : sharding.ShardManager) (p : nat * nat) (a : Atom) :
  sharding.deref sm p = Some a -> sharding.deref (fst (sharding.AddAtom atom sm)) p = Some a.
Proof.
  intros Hd. unfold sharding.AddAtom.
  destruct (sharding.shards sm !! _) as [shard|] eqn:Hi; [|exact Hd].
  assert (Hcells : forall l x, load (sharding.Space shard) l = Some x ->
                               load (fst (addAtomInternal atom (sharding.Space shard))) l = Some x).
  { intros l x Hl.
    destruct (addAtomInternal_outcome atom (sharding.Space shard))
      as [(_ & _ & _ & Hc)|(_ & ->)]; [|exact Hl].
    unfold load. rewrite Hc. apply lookup_app_l_Some. exact Hl. }
  destruct (addAtomInternal atom (sharding.Space shard)) as [sp err]. cbn [fst] in Hcells.
  assert (Hgoal : forall ld, sharding.deref
            (sharding.setShard (Z.to_nat (sharding.GetShardID sm (GetID atom) (GetTenantID atom)))
               (sharding.mkShard (sharding.ShardID shard) sp ld) sm) p = Some a).
  { intros ld. unfold sharding.deref, sharding.setShard in *. cbn [sharding.shards].
    destruct (decide (fst p = Z.to_nat (sharding.GetShardID sm (GetID atom) (GetTenantID atom))))
      as [Heq|Hne].
    - rewrite Heq in *. rewrite Hi in Hd.
      rewrite list_lookup_insert_eq by exact (lookup_lt_Some _ _ _ Hi).
      cbn [sharding.Space]. apply Hcells. exact Hd.
    - rewrite list_lookup_insert_ne by congruence. exact Hd. }
  destruct err; cbn [fst]; apply Hgoal.
Qed.

Lemma sharding_AddAtom_stored (atom : Atom) (sm : sharding.ShardManager) :
  snd (sharding.AddAtom atom sm) = None ->
  exists p, sharding.deref (fst (sharding.AddAtom atom sm)) p = Some atom.
Proof.
  unfold sharding.AddAtom.
  destruct (sharding.shards sm !! _) as [shard|] eqn:Hi; [|discriminate].
  destruct (addAtomInternal_outcome atom (sharding.Space shard))
    as [(Hfresh & _)|(_ & Hrej)]; [|rewrite Hrej; discriminate].
  destruct (addAtomInternal_GetAtom atom _ Hfresh) as (Hok & _ & Hload & _).
  destruct (addAtomInternal atom (sharding.Space shard)) as [sp err]. cbn [fst snd] in *.
  subst err. intros _. cbn [fst].
  exists (Z.to_nat (sharding.GetShardID sm (GetID atom) (GetTenantID atom)),
          length (cells (sharding.Space shard))).
  unfold sharding.deref, sharding.setShard. cbn [fst snd sharding.shards].
  rewrite list_lookup_insert_eq by exact (lookup_lt_Some _ _ _ Hi). exact Hload.
Qed.

(** What holds of a run is shown by an invariant [I] of the store that
    [AddAtom] keeps and a property [Q] of the atoms added. *)
Section RunInvariant.
Context {S P : Type} `{AtomSpaceInterface S P}.
Variable I : S -> Prop.
Variable Q : S -> Atom -> Prop.
Hypothesis I_AddAtom : forall atom s, I s -> I (fst (AddAtom atom s)).
Hypothesis Q_AddAtom : forall atom s, I s -> snd (AddAtom atom s) = None -> Q (fst (AddAtom atom s)) atom.
Hypothesis Q_mono : forall atom s x, I s -> Q s x -> Q (fst (AddAtom atom s)) x.

Lemma reinsertAtoms_invariant (new : list Atom) (s : S) (added old : list Atom) :
  I s -> Forall (Q s) added -> Forall (Q s) old ->
  I (fst (inference.reinsertAtoms new (s, added))) /\
  Forall (Q (fst (inference.reinsertAtoms new (s, added))))
         (snd (inference.reinsertAtoms new (s, added))) /\
  Forall (Q (fst (inference.reinsertAtoms new (s, added)))) old.
Proof.
  revert s added. induction new as [|atom new IH]; intros s added Hs Hadded Hold.
  - rewrite reinsertAtoms_nil. auto.
  - rewrite reinsertAtoms_cons.
    assert (Hmono : forall l, Forall (Q s) l -> Forall (Q (fst (AddAtom atom s))) l).
    { intros l Hl. eapply Forall_impl; [exact Hl|]. intros x Hx. apply Q_mono; assumption. }
    apply IH; [apply I_AddAtom; exact Hs| |apply Hmono; exact Hold].
    destruct (snd (AddAtom atom s)) as [e|] eqn:He; [apply Hmono; exact Hadded|].
    apply Forall_app. split; [apply Hmono; exact Hadded|].
    apply List.Forall_cons; [|apply List.Forall_nil]. apply Q_AddAtom; assumption.
Qed.

Lemma collectFrom_invariant (results : list inference.inferenceResult) (st : S * list Atom)
    (old : list Atom) :
  I (fst st) -> Forall (Q (fst st)) (snd st) -> Forall (Q (fst st)) old ->
  I (fst (collectFrom results st)) /\
  Forall (Q (fst (collectFrom results st))) (snd (collectFrom results st)) /\
  Forall (Q (fst (collectFrom results st))) old.
Proof.
  revert st. induction results as [|r results IH]; intros st Hs Hadded Hold; [auto|].
  unfold collectFrom. cbn [fold_left]. fold (collectFrom results).
  destruct (inference.err r) as [e|]; [apply IH; assumption|].
  destruct st as [s added]. cbn [fst snd] in *.
  destruct (reinsertAtoms_invariant (inference.newAtoms r) s added old Hs Hadded Hold)
    as (Hs' & Hadded' & Hold').
  apply IH; assumption.
Qed.

Lemma loop_invariant (sc : inference.Sched P) (ie : inference.InferenceEngine) (t : string)
    (n i : nat) (s : S) (allNew : list Atom) :
  I s -> Forall (Q s) allNew ->
  I (inference.final (inference.loop sc ie t n i s allNew)) /\
  Forall (Q (inference.final (inference.loop sc ie t n i s allNew)))
         (inference.allNewAtoms (inference.loop sc ie t n i s allNew)).
Proof.
  revert i s allNew. induction n as [|n IH]; intros i s allNew Hs Hall; [cbn; auto|].
  cbn [inference.loop]. destruct (inference.ctxDone sc i); [cbn; auto|].
  unfold inference.iteration, inference.iterationOn.
  destruct (length _ =? 0)%nat; [cbn; auto|].
  destruct (length _ =? 0)%nat; [cbn; auto|].
  destruct (inference.blocks _ _); [cbn; auto|].
  rewrite collect_collectFrom.
  match goal with |- context [collectFrom ?rs (s, [])] =>
    destruct (collectFrom_invariant rs (s, []) allNew Hs (List.Forall_nil _) Hall)
      as (Hs' & Hadded & Hold);
    destruct (collectFrom rs (s, [])) as [s' added]
  end.
  cbn [fst snd] in *.
  destruct (length added =? 0)%nat.
  - cbn. auto.
  - apply IH; [exact Hs'|]. apply Forall_app. auto.
Qed.

End RunInvariant.

(** X14.  Inference only adds.  Whatever the engine, the schedule and
    the cap, a run of RunInference over the shard manager leaves every
    atom that was stored before where it was and as it was, and every
    atom it returns as new is stored when it returns. *)
Theorem RunInference_only_adds (sc : inference.Sched (nat * nat))
    (ie : inference.InferenceEngine) (t : string) (maxIterations : Z)
    (sm : sharding.ShardManager) :
  let out := inference.RunInference sc ie t maxIterations sm in
  (forall p a, sharding.deref sm p = Some a ->
               sharding.deref (inference.final out) p = Some a) /\
  (forall a, In a (inference.allNewAtoms out) ->
             exists p, sharding.deref (inference.final out) p = Some a).
Proof.
  cbv zeta. unfold inference.RunInference.
  destruct (loop_invariant
              (fun s => forall p a, sharding.deref sm p = Some a -> sharding.deref s p = Some a)
              (fun s x => exists p, sharding.deref s p = Some x))
    with (sc := sc) (ie := ie) (t := t) (n := Z.to_nat maxIterations) (i := 0%nat)
         (s := sm) (allNew := @nil Atom) as (Hkeep & Hnew).
  - intros atom s Hs p a Hp. apply sharding_AddAtom_deref, Hs, Hp.
  - intros atom s _ Hok. apply sharding_AddAtom_stored. exact Hok.
  - intros atom s x _ (p & Hp). exists p. apply sharding_AddAtom_deref. exact Hp.
  - auto.
  - apply List.Forall_nil.
  - split; [exact Hkeep|]. intros a Ha. rewrite List.Forall_forall in Hnew. apply Hnew, Ha.
Qed.

Section Errors.
Context {S P : Type} `{AtomSpaceInterface S P}.

Lemma loop_error (sc : inference.Sched P) (ie : inference.InferenceEngine) (t : string)
    (n i : nat) (s : S) (allNew : list Atom) :
  let out := inference.loop sc ie t n i s allNew in
  (inference.error out = None /\ inference.stop out <> inference.StopCancelled) \/
  (inference.error out = Some ErrCanceled /\ inference.stop out = inference.StopCancelled /\
   exists k, inference.ctxDone sc k = true).
Proof.
  revert i s allNew. induction n as [|n IH]; intros i s allNew; cbv zeta.
  - left. cbn. split; [reflexivity|discriminate].
  - cbn [inference.loop]. destruct (inference.ctxDone sc i) eqn:Hc.
    + right. cbn. eauto.
    + unfold inference.iteration, inference.iterationOn.
      destruct (length _ =? 0)%nat; [left; cbn; split; [reflexivity|discriminate]|].
      destruct (length _ =? 0)%nat; [left; cbn; split; [reflexivity|discriminate]|].
      destruct (inference.blocks _ _); [left; cbn; split; [reflexivity|discriminate]|].
      destruct (inference.collect _ s) as [s' added].
      destruct (length added =? 0)%nat; [left; cbn; split; [reflexivity|discriminate]|].
      apply IH.
Qed.

(** X15.  The only error of RunInference is cancellation.  A run ends
    without error, or with the context's error after the context was
    found done at the head of an iteration; the errors that rules return
    are dropped and never reach the caller.  When the context is never
    done the run ends without error. *)
Theorem RunInference_only_error_is_cancellation (sc : inference.Sched P)
    (ie : inference.InferenceEngine) (t : string) (maxIterations : Z) (s : S) :
  let out := inference.RunInference sc ie t maxIterations s in
  (inference.error out = None \/
   (inference.error out = Some ErrCanceled /\ inference.stop out = inference.StopCancelled)) /\
  ((forall i, inference.ctxDone sc i = false) -> inference.error out = None).
Proof.
  cbv zeta. unfold inference.RunInference.
  destruct (loop_error sc ie t (Z.to_nat maxIterations) 0 s [])
    as [(He & _)|(He & Hs & k & Hk)].
  - split; [left; exact He|]. intros _. exact He.
  - split; [right; auto|]. intros Hnever. rewrite Hnever in Hk. discriminate.
Qed.
End Errors.

(* ---- the induction rule ---- *)

Lemma before_length {A : Type} (x y : A) (l : list A) : before x y l -> (2 <= length l)%nat.
Proof. intros (l1 & l2 & l3 & ->). rewrite !length_app. simpl. rewrite length_app. simpl. lia. Qed.

Lemma before_cons {A : Type} (a x y : A) (l : list A) :
  before x y (a :: l) <-> (a = x /\ In y l) \/ before x y l.
Proof.
  split.
  - intros (l1 & l2 & l3 & Hl). destruct l1 as [|b l1]; simpl in Hl.
    + injection Hl as -> ->. left. split; [reflexivity|]. apply in_or_app. right. left. reflexivity.
    + injection Hl as -> ->. right. exists l1, l2, l3. reflexivity.
  - intros [(-> & Hy)|(l1 & l2 & l3 & ->)].
    + apply in_split in Hy as (m1 & m2 & ->). exists [], m1, m2. reflexivity.
    + exists (a :: l1), l2, l3. reflexivity.
Qed.

Lemma before_filter {A : Type} (f : A -> bool) (x y : A) (l : list A) :
  before x y (List.filter f l) <-> before x y l /\ f x = true /\ f y = true.
Proof.
  induction l as [|a l IH]; simpl.
  - split.
    + intros (l1 & l2 & l3 & Hl). destruct l1; discriminate.
    + intros ((l1 & l2 & l3 & Hl) & _). destruct l1; discriminate.
  - destruct (f a) eqn:Hfa.
    + rewrite !before_cons, IH, filter_In. split.
      * intros [(-> & Hy & Hfy)|(Hb & Hfx & Hfy)]; [|tauto].
        split; [left; auto|auto].
      * intros ([(-> & Hy)|Hb] & Hfx & Hfy); [left; auto|right; auto].
    + rewrite before_cons, IH. split; [tauto|].
      intros ([(-> & Hy)|Hb] & Hfx & Hfy); [congruence|auto].
Qed.

Lemma before_lookup {A : Type} (x y : A) (l : list A) :
  before x y l <-> exists i j, (i < j)%nat /\ l !! i = Some x /\ l !! j = Some y.
Proof.
  split.
  - intros (l1 & l2 & l3 & ->).
    exists (length l1), (length l1 + Datatypes.S (length l2))%nat. split; [lia|]. split.
    + rewrite lookup_app_r by lia. rewrite Nat.sub_diag. reflexivity.
    + rewrite lookup_app_r by lia.
      replace (length l1 + Datatypes.S (length l2) - length l1)%nat
        with (Datatypes.S (length l2)) by lia.
      simpl. rewrite lookup_app_r by lia. rewrite Nat.sub_diag. reflexivity.
  - intros (i & j & Hij & Hi & Hj).
    pose proof (take_drop_middle l i x Hi) as Hsplit.
    assert (Hj' : drop (Datatypes.S i) l !! (j - Datatypes.S i)%nat = Some y).
    { rewrite lookup_drop. replace (Datatypes.S i + (j - Datatypes.S i))%nat with j by lia.
      exact Hj. }
    pose proof (take_drop_middle _ _ y Hj') as Hsplit'.
    exists (take i l), (take (j - Datatypes.S i) (drop (Datatypes.S i) l)),
           (drop (Datatypes.S (j - Datatypes.S i)) (drop (Datatypes.S i) l)).
    rewrite Hsplit'. symmetry. exact Hsplit.
Qed.

Lemma groupPairs_spec (group : list Atom) (x : Atom) :
  In x (inference.groupPairs group) <->
  exists L1 L2, before L1 L2 group /\ In x (inference.similar L1 L2).
Proof.
  induction group as [|L rest IH]; simpl.
  - split; [intros []|]. intros (L1 & L2 & (l1 & l2 & l3 & Hl) & _). destruct l1; discriminate.
  - rewrite in_app_iff, in_flat_map, IH. split.
    + intros [(L2 & HL2 & Hx)|(L1 & L2 & Hb & Hx)].
      * exists L, L2. split; [apply before_cons; left; auto|exact Hx].
      * exists L1, L2. split; [apply before_cons; right; exact Hb|exact Hx].
    + intros (L1 & L2 & Hb & Hx). apply before_cons in Hb as [(-> & HL2)|Hb].
      * left. eauto.
      * right. eauto.
Qed.

Lemma targetGroups_spec (links : list Atom) (k : string) :
  inference.targetGroups links !! k =
  match List.filter (grouped k) links with
  | [] => None
  | g => Some g
  end.
Proof.
  unfold inference.targetGroups.
  induction links as [|link links IH] using rev_ind.
  - simpl. apply lookup_empty.
  - rewrite fold_left_app, List.filter_app. cbn [fold_left List.filter].
    unfold grouped at 2, targetOf.
    destruct (GetOutgoing link) as [|a [|target [|c rest]]] eqn:Hout;
      try (rewrite bool_decide_eq_false_2 by discriminate; rewrite app_nil_r; exact IH).
    destruct (decide (GetID target = k)) as [<-|Hne].
    + rewrite bool_decide_eq_true_2 by reflexivity.
      rewrite lookup_insert_eq, IH.
      destruct (List.filter (grouped (GetID target)) links) as [|g0 g]; reflexivity.
    + rewrite bool_decide_eq_false_2 by congruence.
      rewrite lookup_insert_ne by exact Hne. rewrite app_nil_r. exact IH.
Qed.

Lemma similarityLinks_spec (ord : Order (string * list Atom)) (links : list Atom) (x : Atom) :
  is_order ord ->
  In x (inference.similarityLinks ord (inference.targetGroups links)) <->
  exists L1 L2 k, before L1 L2 links /\ targetOf L1 = Some k /\ targetOf L2 = Some k /\
                  In x (inference.similar L1 L2).
Proof.
  intros Hord. unfold inference.similarityLinks. rewrite in_flat_map. split.
  - intros ([k g] & Hin & Hx).
    apply (In_order ord _ _ Hord), list_elem_of_In, elem_of_map_to_list in Hin.
    rewrite targetGroups_spec in Hin.
    destruct (2 <=? length g)%nat; [|destruct Hx].
    apply groupPairs_spec in Hx as (L1 & L2 & Hb & Hx).
    assert (Hg : g = List.filter (grouped k) links).
    { destruct (List.filter (grouped k) links); [discriminate|congruence]. }
    rewrite Hg in Hb. apply before_filter in Hb as (Hb & H1 & H2).
    apply bool_decide_eq_true in H1, H2. exists L1, L2, k. auto.
  - intros (L1 & L2 & k & Hb & H1 & H2 & Hx).
    assert (Hbf : before L1 L2 (List.filter (grouped k) links)).
    { apply before_filter. split; [exact Hb|]. split; apply bool_decide_eq_true; assumption. }
    exists (k, List.filter (grouped k) links). split.
    + apply (In_order ord _ _ Hord), list_elem_of_In, elem_of_map_to_list.
      rewrite targetGroups_spec.
      destruct (List.filter (grouped k) links) eqn:Hf; [|reflexivity].
      apply before_length in Hbf. simpl in Hbf. lia.
    + pose proof (before_length _ _ _ Hbf) as Hlen.
      apply Nat.leb_le in Hlen. rewrite Hlen. apply groupPairs_spec. eauto.
Qed.

(** X16.  The induction rule.  [InductionRule.Apply] succeeds and emits
    exactly the links of the following form.  Let [links] be the
    inheritance links of the snapshot, in snapshot order.  For two
    entries [L1 : A -> T] at an earlier and [L2 : B -> T'] at a later
    position of [links], each with exactly two outgoing atoms and with
    the id of [T] equal to the id of [T'], it emits the SimilarityLink
    named "similarity" from [A] to [B], in this direction, of the tenant
    of [L1], with the content-addressed id of the pair [A, B] and truth
    value (0.7, 0.8). *)
Theorem InductionRule_Apply_spec (ord : Order (string * list Atom)) (atoms : list Atom)
    (x : Atom) :
  is_order ord ->
  let links := inference.inheritanceLinks atoms in
  snd (inference.InductionRule_Apply ord atoms) = None /\
  (In x (fst (inference.InductionRule_Apply ord atoms)) <->
   exists (i j : nat) (L1 L2 A B T T' : Atom),
     (i < j)%nat /\ links !! i = Some L1 /\ links !! j = Some L2 /\
     GetOutgoing L1 = [A; T] /\ GetOutgoing L2 = [B; T'] /\
     GetID T = GetID T' /\
     x = Link {| ID := GenerateAtomID SimilarityLinkType "similarity" [A; B];
                 AType := SimilarityLinkType;
                 Name := "similarity";
                 TruthVal := mkTruthValue 0.7 0.8;
                 AttentionVal := mkAttentionValue 0 0 0;
                 TenantID := GetTenantID L1 |}
              [A; B]).
Proof.
  intros Hord links. split; [reflexivity|].
  unfold inference.InductionRule_Apply. cbn [fst]. fold links.
  rewrite (similarityLinks_spec ord links x Hord). split.
  - intros (L1 & L2 & k & Hb & H1 & H2 & Hx).
    apply before_lookup in Hb as (i & j & Hij & Hi & Hj).
    unfold targetOf in H1, H2. unfold inference.similar in Hx.
    destruct (GetOutgoing L1) as [|A [|T [|c1 r1]]] eqn:Ho1; try discriminate.
    destruct (GetOutgoing L2) as [|B [|T' [|c2 r2]]] eqn:Ho2; try discriminate.
    injection H1 as H1. injection H2 as H2.
    destruct Hx as [<-|[]].
    exists i, j, L1, L2, A, B, T, T'.
    split; [exact Hij|]. split; [exact Hi|]. split; [exact Hj|].
    split; [exact Ho1|]. split; [exact Ho2|]. split; [congruence|]. reflexivity.
  - intros (i & j & L1 & L2 & A & B & T & T' & Hij & Hi & Hj & Ho1 & Ho2 & Hid & ->).
    exists L1, L2, (GetID T). split; [apply before_lookup; eauto|].
    unfold targetOf, inference.similar. rewrite Ho1, Ho2.
    split; [reflexivity|]. split; [congruence|]. left. reflexivity.
Qed.

Lemma InductionRule_Apply_spec_witness :
  snd (inference.InductionRule_Apply (fun l => l) [mammalAnimal; catAnimal]) = None /\
  (In simMammalCat (fst (inference.InductionRule_Apply (fun l => l) [mammalAnimal; catAnimal])) <->
   exists (i j : nat) (L1 L2 A B T T' : Atom),
     (i < j)%nat /\ inference.inheritanceLinks [mammalAnimal; catAnimal] !! i = Some L1 /\
     inference.inheritanceLinks [mammalAnimal; catAnimal] !! j = Some L2 /\
     GetOutgoing L1 = [A; T] /\ GetOutgoing L2 = [B; T'] /\
     GetID T = GetID T' /\
     simMammalCat
     = Link {| ID := GenerateAtomID SimilarityLinkType "similarity" [A; B];
               AType := SimilarityLinkType;
               Name := "similarity";
               TruthVal := mkTruthValue 0.7 0.8;
               AttentionVal := mkAttentionValue 0 0 0;
               TenantID := GetTenantID L1 |}
            [A; B]).
Proof.
  apply (InductionRule_Apply_spec (fun l => l) [mammalAnimal; catAnimal] simMammalCat).
  intros l. reflexivity.
Defined.

(* ---- inferred atoms stay in the tenant ---- *)

Lemma sharding_GetAtom_tenant (atomID tenantID : string) (sm : sharding.ShardManager)
    (p : nat * nat) (a : Atom) :
  sharding.GetAtom atomID tenantID sm = inl p -> sharding.deref sm p = Some a ->
  GetTenantID a = tenantID.
Proof.
  intros Hg Hd. apply sharding_GetAtom_inl in Hg as (shard & _ & Hi & Hg).
  apply GetAtom_inl in Hg as (_ & a' & Ha' & Ht).
  unfold sharding.deref in Hd. rewrite Hi in Hd. congruence.
Qed.

Lemma snapshot_of_tenant (sm : sharding.ShardManager) (ord : Order (nat * nat)) (t : string)
    (a : Atom) :
  managed sm -> is_order ord ->
  In a (values sm (QueryAtoms ord t None sm)) -> GetTenantID a = t.
Proof.
  intros Hm Hord Ha. unfold values in Ha.
  apply list_elem_of_In, list_elem_of_omap in Ha as (p & Hp & Hd).
  apply list_elem_of_In, (sharding_QueryAtoms_spec sm ord t None p Hm Hord) in Hp
    as (a' & Hd' & Hg & _).
  change (deref sm p) with (sharding.deref sm p) in Hd.
  assert (a' = a) by congruence. subst a'.
  exact (sharding_GetAtom_tenant _ _ _ _ _ Hg Hd).
Qed.

Lemma defaultResults_tenant (range : Order (string * list Atom)) (atoms : list Atom)
    (t : string) (r : inference.inferenceResult) (x : Atom) :
  is_order range ->
  (forall a, In a atoms -> GetTenantID a = t) ->
  In r (defaultResults range atoms) -> In x (inference.newAtoms r) -> GetTenantID x = t.
Proof.
  intros Hrange Hatoms Hr Hx.
  assert (Hlinks : forall i L, inference.inheritanceLinks atoms !! i = Some L -> GetTenantID L = t).
  { intros i L Hi. apply Hatoms.
    apply list_elem_of_lookup_2, list_elem_of_In in Hi.
    unfold inference.inheritanceLinks in Hi. apply filter_In in Hi. tauto. }
  unfold defaultResults in Hr.
  apply in_app_or in Hr as [Hr|Hr]; [|apply in_app_or in Hr as [Hr|Hr]].
  - destruct (inference.DeductionRule_CanApply atoms); [|destruct Hr].
    destruct Hr as [<-|[]]. cbn [inference.newAtoms] in Hx.
    apply chainLinks_spec in Hx
      as (i & j & L1 & L2 & A & B & B' & C & _ & Hi & _ & _ & _ & _ & ->).
    exact (Hlinks _ _ Hi).
  - destruct (inference.InductionRule_CanApply atoms); [|destruct Hr].
    destruct Hr as [<-|[]]. cbn [inference.newAtoms] in Hx.
    apply (similarityLinks_spec range _ x Hrange) in Hx as (L1 & L2 & k & Hb & _ & _ & Hx).
    apply before_lookup in Hb as (i & j & _ & Hi & _).
    unfold inference.similar in Hx.
    destruct (GetOutgoing L1) as [|s1 r1]; [destruct Hx|].
    destruct (GetOutgoing L2) as [|s2 r2]; [destruct Hx|].
    destruct Hx as [<-|[]]. exact (Hlinks _ _ Hi).
  - destruct (inference.AbductionRule_CanApply atoms); [|destruct Hr].
    destruct Hr as [<-|[]]. destruct Hx.
Qed.

Section Collected.
Context {S P : Type} `{AtomSpaceInterface S P}.

Lemma reinsertAtoms_from (new : list Atom) (st : S * list Atom) (x : Atom) :
  In x (snd (inference.reinsertAtoms new st)) -> In x (snd st) \/ In x new.
Proof.
  revert st. induction new as [|atom new IH]; intros [s added] Hx.
  - rewrite reinsertAtoms_nil in Hx. auto.
  - rewrite reinsertAtoms_cons in Hx. apply IH in Hx as [Hx|Hx]; [|right; right; exact Hx].
    cbn [snd] in *. destruct (snd (AddAtom atom s)); [auto|].
    apply in_app_or in Hx as [Hx|[<-|[]]]; [auto|right; left; reflexivity].
Qed.

Lemma collectFrom_from (results : list inference.inferenceResult) (st : S * list Atom)
    (x : Atom) :
  In x (snd (collectFrom results st)) ->
  In x (snd st) \/ exists r, In r results /\ In x (inference.newAtoms r).
Proof.
  revert st. induction results as [|r results IH]; intros st Hx; [auto|].
  unfold collectFrom in Hx. cbn [fold_left] in Hx. fold (collectFrom results) in Hx.
  apply IH in Hx as [Hx|(r' & Hr' & Hx)]; [|right; exists r'; split; [right; exact Hr'|exact Hx]].
  destruct (inference.err r); [auto|].
  apply reinsertAtoms_from in Hx as [Hx|Hx]; [auto|].
  right. exists r. split; [left; reflexivity|exact Hx].
Qed.

Lemma collectFrom_keeps (I : S -> Prop) (results : list inference.inferenceResult)
    (st : S * list Atom) :
  (forall atom s, I s -> I (fst (AddAtom atom s))) ->
  I (fst st) -> I (fst (collectFrom results st)).
Proof.
  intros Hadd. revert st. induction results as [|r results IH]; intros st Hs; [exact Hs|].
  unfold collectFrom. cbn [fold_left]. fold (collectFrom results).
  apply IH. destruct (inference.err r); [exact Hs|].
  destruct st as [s added]. cbn [fst] in Hs. clear IH. revert s added Hs.
  induction (inference.newAtoms r) as [|atom new IHn]; intros s added Hs.
  - rewrite reinsertAtoms_nil. exact Hs.
  - rewrite reinsertAtoms_cons. apply IHn, Hadd, Hs.
Qed.
End Collected.

Lemma loop_default_tenant (sc : inference.Sched (nat * nat)) (w : Z) (t : string)
    (n i : nat) (sm : sharding.ShardManager) (allNew : list Atom) :
  inference.fair sc -> managed sm ->
  (forall a, In a allNew -> GetTenantID a = t) ->
  forall a, In a (inference.allNewAtoms
                    (inference.loop sc (cognitive.defaultEngine w) t n i sm allNew)) ->
            GetTenantID a = t.
Proof.
  intros Hfair. revert i sm allNew.
  induction n as [|n IH]; intros i sm allNew Hm Hall; [exact Hall|].
  cbn [inference.loop]. destruct (inference.ctxDone sc i); [exact Hall|].
  unfold inference.iteration. rewrite iterationOn_default.
  destruct (length _ =? 0)%nat; [exact Hall|].
  destruct (length _ =? 0)%nat; [exact Hall|].
  destruct (inference.blocks _ _); [exact Hall|].
  rewrite collect_collectFrom.
  destruct (Hfair i) as (Hq & Hr & Ha).
  match goal with |- context [collectFrom ?rs (sm, [])] =>
    pose proof (collectFrom_keeps managed rs (sm, []) managed_AddAtom Hm) as Hm';
    pose proof (fun x => collectFrom_from rs (sm, []) x) as Hfrom;
    destruct (collectFrom rs (sm, [])) as [sm' added]
  end.
  cbn [fst snd] in *.
  destruct (length added =? 0)%nat; [exact Hall|].
  apply IH; [exact Hm'|].
  intros a Hin. apply in_app_or in Hin as [Hin|Hin]; [apply Hall, Hin|].
  apply Hfrom in Hin as [[]|(r & Hr' & Hx)].
  apply (proj1 (In_order _ _ _ Ha)) in Hr'.
  apply (defaultResults_tenant _ _ t r a Hr) in Hr'; [exact Hr'| |exact Hx].
  intros a0 Ha0. exact (snapshot_of_tenant sm _ t a0 Hm Hq Ha0).
Qed.

(** X17.  Inference stays inside the tenant.  On a manager reached from
    a new one, under every fair schedule and for every cap, each atom
    that RunInference with the default rules returns for a tenant carries
    that tenant's id: no atom is ever derived into another tenant. *)
Theorem RunInference_stays_in_tenant (n : Z) (rs : list Request)
    (sc : inference.Sched (nat * nat)) (w : Z) (t : string) (maxIterations : Z) :
  0 < n ->
  Forall throughInterface rs ->
  inference.fair sc ->
  Forall (fun a => GetTenantID a = t)
         (inference.allNewAtoms
            (inference.RunInference sc (cognitive.defaultEngine w) t maxIterations
               (routeAll rs (sharding.NewShardManager n)))).
Proof.
  intros Hn Hrs Hfair. apply List.Forall_forall. intros a Hin.
  apply (loop_default_tenant sc w t _ _ _ [] Hfair) in Hin; [exact Hin| |intros x []].
  apply managed_routeAll; [exact Hrs|apply managed_NewShardManager; exact Hn].
Qed.

Lemma RunInference_stays_in_tenant_witness :
  Forall (fun a => GetTenantID a = "demo")
         (inference.allNewAtoms
            (inference.RunInference plain (cognitive.defaultEngine 16) "demo" 5
               (routeAll [ReqAdd cat; ReqAdd mammal; ReqAdd animal; ReqAdd catMammal;
                          ReqAdd mammalAnimal; ReqAdd n1]
                         (sharding.NewShardManager 8)))).
Proof.
  apply (RunInference_stays_in_tenant 8 _ plain 16 "demo" 5).
  - reflexivity.
  - repeat (apply List.Forall_cons; [exact I|]). apply List.Forall_nil.
  - apply fair_plain.
Defined.

(* ---- attention ---- *)

Lemma decay_facts (z : Z) :
  int16 z ->
  int16 (agents.decay z) /\ Z.abs (agents.decay z) <= Z.abs z /\
  (z <> 0 -> Z.abs (agents.decay z) < Z.abs z) /\
  (0 <= z -> 0 <= agents.decay z) /\ (z <= 0 -> agents.decay z <= 0).
Proof.
  intros Hz. rewrite (decay_quot z Hz). pose proof (decay_bound z Hz) as Hb.
  unfold int16 in *.
  destruct (Z.le_gt_cases 0 z) as [Hpos|Hneg].
  - assert (H0 : 0 <= Z.quot (z * 95) 100) by (apply Z.quot_pos; lia).
    assert (H1 : Z.quot (z * 95) 100 * 100 <= z * 95).
    { rewrite Z.quot_div_nonneg by lia. pose proof (Z.mul_div_le (z * 95) 100). lia. }
    repeat split; try lia.
  - assert (Hq : Z.quot (z * 95) 100 = - Z.quot ((- z) * 95) 100).
    { rewrite <- Z.quot_opp_l by lia. f_equal. lia. }
    assert (H0 : 0 <= Z.quot ((- z) * 95) 100) by (apply Z.quot_pos; lia).
    assert (H1 : Z.quot ((- z) * 95) 100 * 100 <= (- z) * 95).
    { rewrite Z.quot_div_nonneg by lia. pose proof (Z.mul_div_le ((- z) * 95) 100). lia. }
    rewrite Hq. repeat split; try lia.
Qed.

Lemma decay_iter (n : nat) (z : Z) :
  int16 z -> Z.abs z <= Z.of_nat n -> Nat.iter n agents.decay z = 0.
Proof.
  revert z. induction n as [|n IH]; intros z Hz Hn.
  - simpl. lia.
  - rewrite Nat.iter_succ_r.
    destruct (decay_facts z Hz) as (Hd & Hle & Hlt & _).
    apply IH; [exact Hd|].
    destruct (Z.eq_dec z 0) as [->|Hne]; [|specialize (Hlt Hne); lia].
    simpl in Hle. lia.
Qed.

(** X18.  Attention fades.  The decay of a 16-bit sti, its product with
    0.95 in float64 converted back to int16, keeps the sign, never grows
    in magnitude, and strictly shrinks a non-zero value; repeated as many
    times as the magnitude of sti it reaches zero, so the short-term
    importance of an atom that is not boosted fades out after finitely
    many runs. *)
Theorem decay_fades (z : Z) :
  int16 z ->
  Z.abs (agents.decay z) <= Z.abs z /\
  (z <> 0 -> Z.abs (agents.decay z) < Z.abs z) /\
  (0 <= z -> 0 <= agents.decay z) /\ (z <= 0 -> agents.decay z <= 0) /\
  Nat.iter (Z.to_nat (Z.abs z)) agents.decay z = 0.
Proof.
  intros Hz. destruct (decay_facts z Hz) as (_ & H1 & H2 & H3 & H4).
  repeat (split; [assumption|]). apply decay_iter; [exact Hz|lia].
Qed.

Lemma decay_fades_witness :
  Z.abs (agents.decay 100) <= Z.abs 100 /\
  (100 <> 0 -> Z.abs (agents.decay 100) < Z.abs 100) /\
  (0 <= 100 -> 0 <= agents.decay 100) /\ (100 <= 0 -> agents.decay 100 <= 0) /\
  Nat.iter (Z.to_nat (Z.abs 100)) agents.decay 100 = 0.
Proof. apply (decay_fades 100). unfold int16. lia. Defined.

Lemma indexed_wellFormed (s : AtomSpace) : indexed s -> wellFormed s.
Proof.
  intros Hix. pose proof (indexed_bound s) as Hb. pose proof (indexed_inj s) as Hi.
  pose proof Hix as (Hp & Hten & Hty & Hnm).
  split; [intros id l; apply Hb, Hix|].
  split; [intros id1 id2 l; apply Hi, Hix|].
  split; [intros t m id l Hm Hl; apply (proj1 (Hten t id l)); eauto|].
  split; [intros ty m id l Hm Hl; apply (proj1 (Hty ty id l)); eauto|].
  intros n m id b Hm Hb'. destruct (proj1 (Hnm n id)) as (l & a & Hl & _); eauto.
Qed.

Lemma attendAll_maps (ps : list nat) (s : AtomSpace) :
  atoms (agents.attendAll ps s) = atoms s /\
  byTenant (agents.attendAll ps s) = byTenant s /\
  byType (agents.attendAll ps s) = byType s /\
  indices (agents.attendAll ps s) = indices s.
Proof.
  unfold agents.attendAll. revert s.
  induction ps as [|p ps IH]; intros s; cbn [fold_left]; [auto|].
  destruct (IH (match deref s p with
                | Some atom => assign p (SetAttentionValue (agents.attend atom) atom) s
                | None => s
                end)) as (H1 & H2 & H3 & H4).
  rewrite H1, H2, H3, H4. destruct (deref s p); auto.
Qed.

(** X19.  AttentionAgent.Run touches attention values only.  On a store
    whose maps agree, a run of the agent leaves the four maps as they
    are, changes no id, tenant, type, name, truth value or outgoing list
    of any atom, and leaves every atom of another tenant exactly as it
    was. *)
Theorem AttentionAgent_Run_touches_attention_only (ord : Order nat) (b : agents.BaseAgent)
    (rs : list Request) (l : nat) (a : Atom) :
  is_order ord ->
  Forall throughInterface rs ->
  let s := serveAll rs NewAtomSpace in
  let s' := fst (fst (agents.AttentionAgent_Run ord b s)) in
  atoms s' = atoms s /\ byTenant s' = byTenant s /\
  byType s' = byType s /\ indices s' = indices s /\
  (load s l = Some a ->
   exists a', load s' l = Some a' /\
              GetID a' = GetID a /\ GetTenantID a' = GetTenantID a /\
              GetType a' = GetType a /\ GetName a' = GetName a /\
              GetTruthValue a' = GetTruthValue a /\ GetOutgoing a' = GetOutgoing a /\
              (GetTenantID a <> agents.TenantID b -> a' = a)).
Proof.
  intros Hord Hrs s s'.
  assert (Hix : indexed s) by (apply indexed_serveAll; [exact Hrs|apply indexed_NewAtomSpace]).
  unfold s', agents.AttentionAgent_Run. cbn [fst].
  destruct (attendAll_maps (QueryAtoms ord (agents.TenantID b) None s) s) as (H1 & H2 & H3 & H4).
  repeat (split; [assumption|]).
  intros Ha.
  rewrite (attendAll_spec _ s
             (queryAtomsInternal_NoDup ord _ None s Hord (indexed_wellFormed s Hix)) l).
  rewrite Ha. destruct (bool_decide _) eqn:Hin.
  - apply bool_decide_eq_true, list_elem_of_In in Hin.
    apply (queryAtomsInternal_spec ord _ None s l Hord Hix) in Hin as (a0 & _ & Ha0 & Ht & _).
    assert (a0 = a) by congruence. subst a0.
    eexists. split; [reflexivity|]. destruct a; cbn; repeat split; try reflexivity.
    + intros Hne. cbn in Ht. congruence.
    + intros Hne. cbn in Ht. congruence.
  - exists a. repeat split; reflexivity.
Qed.

Lemma AttentionAgent_Run_touches_attention_only_witness :
  atoms (fst (fst (agents.AttentionAgent_Run (fun l => l) attentionAgent small))) = atoms small /\
  byTenant (fst (fst (agents.AttentionAgent_Run (fun l => l) attentionAgent small)))
  = byTenant small /\
  byType (fst (fst (agents.AttentionAgent_Run (fun l => l) attentionAgent small))) = byType small /\
  indices (fst (fst (agents.AttentionAgent_Run (fun l => l) attentionAgent small)))
  = indices small /\
  (load small 0 = Some n1 ->
   exists a', load (fst (fst (agents.AttentionAgent_Run (fun l => l) attentionAgent small))) 0
              = Some a' /\
              GetID a' = GetID n1 /\ GetTenantID a' = GetTenantID n1 /\
              GetType a' = GetType n1 /\ GetName a' = GetName n1 /\
              GetTruthValue a' = GetTruthValue n1 /\ GetOutgoing a' = GetOutgoing n1 /\
              (GetTenantID n1 <> agents.TenantID attentionAgent -> a' = n1)).
Proof.
  apply (AttentionAgent_Run_touches_attention_only (fun l => l) attentionAgent
           [ReqAdd n1; ReqAdd n2; ReqAdd n3] 0 n1).
  - intros l. reflexivity.
  - repeat (apply List.Forall_cons; [exact I|]). apply List.Forall_nil.
Defined.

(* ---- pipelines ---- *)

Lemma runStages_outcome {W : Type} (ctxDone : nat -> bool)
    (stages : list (pipeline.PipelineStage W)) (i : nat) (input : pipeline.Value) (w : W) :
  (exists v, snd (pipeline.runStages ctxDone stages i input w) = inl v /\
             snd (fst (pipeline.runStages ctxDone stages i input w))
             = pipeline.PipelineStateCompleted) \/
  (exists e, snd (pipeline.runStages ctxDone stages i input w) = inr e /\
             snd (fst (pipeline.runStages ctxDone stages i input w))
             = pipeline.PipelineStateFailed).
Proof.
  revert i input w. induction stages as [|stage rest IH]; intros i input w; cbn [pipeline.runStages].
  - left. eauto.
  - destruct (ctxDone i); [right; eauto|].
    destruct (pipeline.Execute stage input w) as [w' [output|e]]; [apply IH|right; eauto].
Qed.

Lemma runStages_app {W : Type} (ctxDone : nat -> bool)
    (pre post : list (pipeline.PipelineStage W)) (i : nat) (input : pipeline.Value) (w : W) :
  pipeline.runStages ctxDone (pre ++ post) i input w =
  match pipeline.runStages ctxDone pre i input w with
  | (w', _, inl v) => pipeline.runStages ctxDone post (i + length pre) v w'
  | (w', st, inr e) => (w', st, inr e)
  end.
Proof.
  revert i input w. induction pre as [|stage pre IH]; intros i input w.
  - cbn. rewrite Nat.add_0_r. reflexivity.
  - cbn [app pipeline.runStages length]. destruct (ctxDone i); [reflexivity|].
    destruct (pipeline.Execute stage input w) as [w' [output|e]]; [|reflexivity].
    rewrite IH. replace (Datatypes.S i + length pre)%nat with (i + Datatypes.S (length pre))%nat by lia.
    reflexivity.
Qed.

(** X20.  How Pipeline.Execute ends.  Execute changes nothing of the
    pipeline but its state; it returns a value and leaves the state
    Completed, or returns an error and leaves the state Failed, and never
    leaves the pipeline Created, Running or Paused.  A pipeline without
    stages returns its input. *)
Theorem Pipeline_Execute_outcome {W : Type} (ctxDone : nat -> bool) (input : pipeline.Value)
    (p : pipeline.Pipeline W) (w : W) :
  let p' := snd (fst (pipeline.PipelineExecute ctxDone input p w)) in
  let r := snd (pipeline.PipelineExecute ctxDone input p w) in
  pipeline.ID p' = pipeline.ID p /\ pipeline.Name p' = pipeline.Name p /\
  pipeline.TenantID p' = pipeline.TenantID p /\ pipeline.Stages p' = pipeline.Stages p /\
  ((pipeline.State p' = pipeline.PipelineStateCompleted /\ exists v, r = inl v) \/
   (pipeline.State p' = pipeline.PipelineStateFailed /\ exists e, r = inr e)) /\
  (pipeline.Stages p = [] -> r = inl input).
Proof.
  cbv zeta. unfold pipeline.PipelineExecute.
  change (pipeline.Stages (pipeline.setState pipeline.PipelineStateRunning p))
    with (pipeline.Stages p).
  pose proof (runStages_outcome ctxDone (pipeline.Stages p) 0 input w) as Hout.
  assert (Hnil : pipeline.Stages p = [] ->
                 snd (pipeline.runStages ctxDone (pipeline.Stages p) 0 input w) = inl input).
  { intros ->. reflexivity. }
  destruct (pipeline.runStages ctxDone (pipeline.Stages p) 0 input w) as [[w' st] r].
  cbn [fst snd] in *. repeat (split; [reflexivity|]). split; [|exact Hnil].
  destruct Hout as [(v & -> & ->)|(e & -> & ->)]; [left|right]; eauto.
Qed.

(** X21.  A failing stage stops the pipeline.  When the stages before
    it complete and the context is not done, the error of a stage is
    returned wrapped with the stage's name, the pipeline is left Failed,
    the world is as the failing stage left it, and no later stage runs:
    the outcome does not depend on the stages that follow. *)
Theorem Pipeline_Execute_stops_at_failure {W : Type} (ctxDone : nat -> bool)
    (input v : pipeline.Value) (p : pipeline.Pipeline W)
    (pre post : list (pipeline.PipelineStage W)) (stage : pipeline.PipelineStage W)
    (w w1 w2 : W) (e : Error) :
  pipeline.Stages p = pre ++ stage :: post ->
  pipeline.runStages ctxDone pre 0 input w = (w1, pipeline.PipelineStateCompleted, inl v) ->
  ctxDone (length pre) = false ->
  pipeline.Execute stage v w1 = (w2, inr e) ->
  pipeline.PipelineExecute ctxDone input p w
  = (w2, pipeline.setState pipeline.PipelineStateFailed p,
     inr (ErrStageFailed (pipeline.GetName stage) e)).
Proof.
  intros Hst Hpre Hctx Hfail. unfold pipeline.PipelineExecute.
  change (pipeline.Stages (pipeline.setState pipeline.PipelineStateRunning p))
    with (pipeline.Stages p).
  rewrite Hst, runStages_app, Hpre. cbn [pipeline.runStages Nat.add].
  rewrite Hctx, Hfail. reflexivity.
Qed.

Lemma Pipeline_Execute_stops_at_failure_witness :
  pipeline.PipelineExecute (fun _ => false) pipeline.VNil
    (pipeline.AddStage (pipeline.NewAttentionAllocationStage (fun l => l) "t")
       (pipeline.AddStage (pipeline.NewAtomIngestionStage "t")
          (pipeline.NewPipeline "p1" "P" "t")))
    small
  = (small,
     pipeline.setState pipeline.PipelineStateFailed
       (pipeline.AddStage (pipeline.NewAttentionAllocationStage (fun l => l) "t")
          (pipeline.AddStage (pipeline.NewAtomIngestionStage "t")
             (pipeline.NewPipeline "p1" "P" "t"))),
     inr (ErrStageFailed "atom-ingestion" ErrBadInput)).
Proof.
  apply (Pipeline_Execute_stops_at_failure (fun _ => false) pipeline.VNil pipeline.VNil _
           [] [pipeline.NewAttentionAllocationStage (fun l => l) "t"]
           (pipeline.NewAtomIngestionStage "t") small small small ErrBadInput);
    reflexivity.
Defined.

Lemma serveDelete_DeletePipeline {W : Type} (id : string) (waiting : list string)
    (po : pipeline.PipelineOrchestrator W) :
  pipeline.deleteChan po = waiting ->
  pipeline.GetPipeline id
    (Nat.iter (Datatypes.S (length waiting)) pipeline.serveDelete (pipeline.DeletePipeline id po))
  = inr (ErrPipelineNotFound id).
Proof.
  revert po. induction waiting as [|x waiting IH]; intros po Hq.
  - cbn [length Nat.iter nat_rect]. unfold pipeline.serveDelete, pipeline.DeletePipeline.
    cbn [pipeline.deleteChan]. rewrite Hq. cbn [app].
    unfold pipeline.GetPipeline, pipeline.deletePipelineInternal. cbn [pipeline.pipelines].
    rewrite lookup_delete_eq. reflexivity.
  - cbn [length]. rewrite Nat.iter_succ_r.
    replace (pipeline.serveDelete (pipeline.DeletePipeline id po))
      with (pipeline.DeletePipeline id
              (pipeline.deletePipelineInternal x
                 (pipeline.mkOrchestrator W (pipeline.pipelines po) waiting
                    (pipeline.workers po)))).
    + apply IH. reflexivity.
    + unfold pipeline.serveDelete, pipeline.DeletePipeline. cbn [pipeline.deleteChan].
      rewrite Hq. reflexivity.
Qed.

(** X22.  The registry of the orchestrator.  The creation that the
    manager goroutine performs for CreatePipeline fails under an id that
    is taken and changes nothing; under a free id it makes GetPipeline
    return the pipeline and leaves the other ids alone.  DeletePipeline
    only sends the id to the delete channel: when it returns, the
    registry is as it was and GetPipeline answers as before.  The id is
    not found once the manager goroutine has served the channel up to it,
    nothing else being served in between, and in general right after
    deletePipelineInternal.  ExecutePipeline of
    an unknown id fails with the not-found error, touching neither the
    world nor the registry. *)
Theorem orchestrator_registry {W : Type} (p : pipeline.Pipeline W)
    (po : pipeline.PipelineOrchestrator W) :
  (is_Some (pipeline.pipelines po !! pipeline.ID p) ->
   pipeline.createPipelineInternal p po = (po, Some (ErrPipelineExists (pipeline.ID p)))) /\
  (pipeline.pipelines po !! pipeline.ID p = None ->
   snd (pipeline.createPipelineInternal p po) = None /\
   pipeline.GetPipeline (pipeline.ID p) (fst (pipeline.createPipelineInternal p po)) = inl p /\
   forall id, id <> pipeline.ID p ->
              pipeline.GetPipeline id (fst (pipeline.createPipelineInternal p po))
              = pipeline.GetPipeline id po) /\
  (forall id id',
      pipeline.pipelines (pipeline.DeletePipeline id po) = pipeline.pipelines po /\
      pipeline.deleteChan (pipeline.DeletePipeline id po) = pipeline.deleteChan po ++ [id] /\
      pipeline.GetPipeline id' (pipeline.DeletePipeline id po) = pipeline.GetPipeline id' po) /\
  (forall id,
      pipeline.GetPipeline id
        (Nat.iter (Datatypes.S (length (pipeline.deleteChan po))) pipeline.serveDelete
                  (pipeline.DeletePipeline id po))
      = inr (ErrPipelineNotFound id)) /\
  (forall id, pipeline.GetPipeline id (pipeline.deletePipelineInternal id po)
              = inr (ErrPipelineNotFound id)) /\
  (forall ctxDone id input (w : W),
      pipeline.pipelines po !! id = None ->
      pipeline.ExecutePipeline ctxDone id input po w = (w, po, inr (ErrPipelineNotFound id))).
Proof.
  split; [|split; [|split; [|split; [|split]]]].
  - unfold pipeline.createPipelineInternal. intros (q & ->). reflexivity.
  - unfold pipeline.createPipelineInternal, pipeline.GetPipeline.
    intros ->. cbn [fst snd pipeline.pipelines]. split; [reflexivity|].
    rewrite lookup_insert_eq. split; [reflexivity|].
    intros id Hne. rewrite lookup_insert_ne by congruence. reflexivity.
  - intros id id'. repeat split.
  - intros id. apply serveDelete_DeletePipeline. reflexivity.
  - intros id. unfold pipeline.GetPipeline, pipeline.deletePipelineInternal.
    cbn [pipeline.pipelines]. rewrite lookup_delete_eq. reflexivity.
  - intros ctxDone id input w Hn. unfold pipeline.ExecutePipeline. rewrite Hn. reflexivity.
Qed.

(** A pipeline that is registered is still returned right after
    DeletePipeline, and no longer once the manager has served the id. *)
Example delete_is_deferred :
  let po := fst (pipeline.createPipelineInternal
                   (pipeline.NewPipeline "p1" "P" "t")
                   (pipeline.NewPipelineOrchestrator (W := AtomSpace) 8)) in
  pipeline.GetPipeline "p1" (pipeline.DeletePipeline "p1" po)
  = inl (pipeline.NewPipeline "p1" "P" "t") /\
  pipeline.GetPipeline "p1" (pipeline.serveDelete (pipeline.DeletePipeline "p1" po))
  = inr (ErrPipelineNotFound "p1").
Proof. split; vm_compute; reflexivity. Qed.

(* ---- ingestion ---- *)

Lemma present_rejected (sm : sharding.ShardManager) (a : Atom) :
  present sm a -> sharding.AddAtom a sm = (sm, Some (ErrAlreadyExists (GetID a))).
Proof.
  intros (shard & Hi & (l & Hl)).
  assert (Hsnd : snd (sharding.AddAtom a sm) = Some (ErrAlreadyExists (GetID a))).
  { unfold sharding.AddAtom. rewrite Hi. unfold addAtomInternal. rewrite Hl. reflexivity. }
  rewrite (surjective_pairing (sharding.AddAtom a sm)), Hsnd.
  rewrite (sharding_AddAtom_rejected a sm _ Hsnd). reflexivity.
Qed.

Lemma sized_AddAtom (a : Atom) (sm : sharding.ShardManager) :
  sized sm -> sized (fst (sharding.AddAtom a sm)).
Proof.
  intros (Hn & Hlen).
  destruct (sharding_AddAtom_present a sm Hn Hlen) as (Hnum & Hlen' & _).
  split; [rewrite Hnum; exact Hn|rewrite Hlen', Hnum; exact Hlen].
Qed.

Lemma present_AddAtom_self (a : Atom) (sm : sharding.ShardManager) :
  sized sm -> present (fst (sharding.AddAtom a sm)) a.
Proof.
  intros (Hn & Hlen).
  destruct (sharding_AddAtom_present a sm Hn Hlen) as (Hnum & _ & shard & Hi & Hin).
  exists shard. split; [|exact Hin].
  unfold sharding.GetShardID, sharding.getShardIDInternal in *. rewrite Hnum. exact Hi.
Qed.

Lemma present_AddAtom_other (a b : Atom) (sm : sharding.ShardManager) :
  present sm b -> present (fst (sharding.AddAtom a sm)) b.
Proof.
  intros (shard & Hi & Hin). unfold sharding.AddAtom.
  destruct (sharding.shards sm !! Z.to_nat (sharding.GetShardID sm (GetID a) (GetTenantID a)))
    as [shardA|] eqn:Ha; [|exists shard; auto].
  assert (Hsub : forall id, is_Some (atoms (sharding.Space shardA) !! id) ->
                            is_Some (atoms (fst (addAtomInternal a (sharding.Space shardA))) !! id)).
  { intros id Hid.
    destruct (addAtomInternal_outcome a (sharding.Space shardA))
      as [(_ & _ & -> & _)|(_ & ->)]; [|exact Hid].
    destruct (decide (id = GetID a)) as [->|Hne].
    - rewrite lookup_insert_eq. eauto.
    - rewrite lookup_insert_ne by congruence. exact Hid. }
  destruct (addAtomInternal a (sharding.Space shardA)) as [sp err]. cbn [fst] in Hsub.
  assert (Hgoal : forall ld, present
            (sharding.setShard (Z.to_nat (sharding.GetShardID sm (GetID a) (GetTenantID a)))
               (sharding.mkShard (sharding.ShardID shardA) sp ld) sm) b).
  { intros ld. unfold present, sharding.setShard, sharding.GetShardID, sharding.getShardIDInternal
      in *. cbn [sharding.shards sharding.numShards].
    destruct (decide (Z.to_nat (Fnv.Sum64 (String.append (GetTenantID b)
                                 (String.append ":" (GetID b))) mod sharding.numShards sm)
                      = Z.to_nat (Fnv.Sum64 (String.append (GetTenantID a)
                                   (String.append ":" (GetID a))) mod sharding.numShards sm)))
      as [Heq|Hne].
    - rewrite Heq in *. rewrite Ha in Hi. injection Hi as <-.
      eexists. split; [apply list_lookup_insert_eq; exact (lookup_lt_Some _ _ _ Ha)|].
      cbn [sharding.Space]. apply Hsub, Hin.
    - exists shard. split; [|exact Hin]. rewrite list_lookup_insert_ne by congruence. exact Hi. }
  destruct err; cbn [fst]; apply Hgoal.
Qed.

Lemma ingest_present (atoms0 : list Atom) (sm : sharding.ShardManager) (done : list Atom) :
  sized sm -> Forall (present sm) done ->
  sized (fold_left (fun s atom => fst (sharding.AddAtom atom s)) atoms0 sm) /\
  Forall (present (fold_left (fun s atom => fst (sharding.AddAtom atom s)) atoms0 sm))
         (done ++ atoms0).
Proof.
  revert sm done. induction atoms0 as [|a atoms0 IH]; intros sm done Hs Hdone; cbn [fold_left].
  - rewrite app_nil_r. auto.
  - replace (done ++ a :: atoms0) with ((done ++ [a]) ++ atoms0) by (rewrite <- app_assoc; reflexivity).
    apply IH; [apply sized_AddAtom; exact Hs|].
    apply Forall_app. split.
    + eapply Forall_impl; [exact Hdone|]. intros b Hb. apply present_AddAtom_other. exact Hb.
    + apply List.Forall_cons; [|apply List.Forall_nil]. apply present_AddAtom_self. exact Hs.
Qed.

Lemma ingest_again (atoms0 : list Atom) (sm : sharding.ShardManager) :
  Forall (present sm) atoms0 ->
  fold_left (fun s atom => fst (sharding.AddAtom atom s)) atoms0 sm = sm.
Proof.
  induction atoms0 as [|a atoms0 IH]; intros Hall; cbn [fold_left]; [reflexivity|].
  rewrite (present_rejected sm a (Forall_inv Hall)). cbn [fst].
  apply IH. exact (Forall_inv_tail Hall).
Qed.

(** X23.  Ingestion is idempotent.  On a manager reached from a new one,
    running the atom ingestion stage a second time on the same atoms
    changes nothing: every atom is rejected as a duplicate, the error is
    ignored, and the stage returns its input again.  An input that is not
    a slice of atoms is refused and the store is left as it was. *)
Theorem AtomIngestion_idempotent (n : Z) (rs : list Request) (atoms0 : list Atom) :
  0 < n ->
  Forall throughInterface rs ->
  let sm := routeAll rs (sharding.NewShardManager n) in
  let sm1 := fst (pipeline.AtomIngestionStage_Execute (pipeline.VAtoms atoms0) sm) in
  pipeline.AtomIngestionStage_Execute (pipeline.VAtoms atoms0) sm1
  = (sm1, inl (pipeline.VAtoms atoms0)) /\
  pipeline.AtomIngestionStage_Execute pipeline.VNil sm = (sm, inr ErrBadInput).
Proof.
  intros Hn Hrs sm sm1. split; [|reflexivity].
  destruct (managed_routeAll rs _ Hrs (managed_NewShardManager n Hn)) as (Hpos & Hlen & _).
  fold sm in Hpos, Hlen.
  destruct (ingest_present atoms0 sm [] (conj Hpos Hlen) (List.Forall_nil _)) as (_ & Hall).
  cbn [app] in Hall.
  unfold sm1, pipeline.AtomIngestionStage_Execute. cbn [fst].
  change (fun s atom => fst (AddAtom atom s)) with (fun s atom => fst (sharding.AddAtom atom s)).
  rewrite (ingest_again atoms0 _ Hall). reflexivity.
Qed.

Lemma AtomIngestion_idempotent_witness :
  pipeline.AtomIngestionStage_Execute (pipeline.VAtoms [n1; n2; n1])
    (fst (pipeline.AtomIngestionStage_Execute (pipeline.VAtoms [n1; n2; n1])
            (routeAll [ReqAdd n3] (sharding.NewShardManager 8))))
  = (fst (pipeline.AtomIngestionStage_Execute (pipeline.VAtoms [n1; n2; n1])
            (routeAll [ReqAdd n3] (sharding.NewShardManager 8))),
     inl (pipeline.VAtoms [n1; n2; n1])) /\
  pipeline.AtomIngestionStage_Execute pipeline.VNil
    (routeAll [ReqAdd n3] (sharding.NewShardManager 8))
  = (routeAll [ReqAdd n3] (sharding.NewShardManager 8), inr ErrBadInput).
Proof.
  apply (AtomIngestion_idempotent 8 [ReqAdd n3] [n1; n2; n1]).
  - reflexivity.
  - repeat (apply List.Forall_cons; [exact I|]). apply List.Forall_nil.
Defined.

(* ---- the scheduler's registry ---- *)

(** X24.  The registry of the scheduler.  After an agent is registered
    GetAgent finds it under its id (replacing an agent that had the id
    before) and the other ids are as they were; after it is unregistered
    the id is not found; the dispatch list has one entry for each
    registered id; and GetAgentsByTenant lists exactly the dispatched
    agents of the tenant. *)
Theorem scheduler_registry (ord : Order agents.Agent) (sch : agents.AgentScheduler)
    (agent x : agents.Agent) (t : string) :
  is_order ord ->
  let sch' := agents.registerInternal ord agent sch in
  agents.GetAgent (agents.GetID agent) sch' = Some agent /\
  (forall id, id <> agents.GetID agent -> agents.GetAgent id sch' = agents.GetAgent id sch) /\
  agents.GetAgent (agents.GetID agent) (agents.unregisterInternal ord (agents.GetID agent) sch')
  = None /\
  length (agents.scheduleAgents sch') = size (agents.agents sch') /\
  (In x (agents.GetAgentsByTenant ord t sch') <->
   agents.GetTenantID x = t /\ In x (agents.scheduleAgents sch')).
Proof.
  intros Hord sch'.
  assert (Hdisp : agents.scheduleAgents sch'
                  ≡ₚ List.map snd (map_to_list (agents.agents sch'))).
  { unfold sch', agents.registerInternal, agents.scheduleAgents, agents.rebuildPriorityQueue.
    cbn [agents.priority agents.agents]. rewrite firstn_all.
    destruct (sortByPriority_spec (ord (List.map snd (map_to_list
               (<[agents.GetID agent := agent]> (agents.agents sch)))))) as [Hperm _].
    rewrite Hperm. apply Hord. }
  split; [|split; [|split; [|split]]].
  - unfold sch', agents.GetAgent, agents.registerInternal. cbn [agents.agents].
    apply lookup_insert_eq.
  - intros id Hne. unfold sch', agents.GetAgent, agents.registerInternal. cbn [agents.agents].
    apply lookup_insert_ne. congruence.
  - unfold agents.GetAgent, agents.unregisterInternal. cbn [agents.agents].
    apply lookup_delete_eq.
  - rewrite (Permutation_length Hdisp), length_map. apply length_map_to_list.
  - unfold agents.GetAgentsByTenant. rewrite filter_In, bool_decide_eq_true.
    rewrite (In_order ord _ _ Hord).
    split; intros [H1 H2].
    + split; [exact H2|]. apply (Permutation_in _ (Permutation_sym Hdisp)). exact H1.
    + split; [|exact H1]. apply (Permutation_in _ Hdisp). exact H2.
Qed.

Lemma scheduler_registry_witness :
  agents.GetAgent (agents.GetID att1)
    (agents.registerInternal (fun l => l) att1 (agents.NewAgentScheduler 8)) = Some att1 /\
  (forall id, id <> agents.GetID att1 ->
              agents.GetAgent id (agents.registerInternal (fun l => l) att1 (agents.NewAgentScheduler 8))
              = agents.GetAgent id (agents.NewAgentScheduler 8)) /\
  agents.GetAgent (agents.GetID att1)
    (agents.unregisterInternal (fun l => l) (agents.GetID att1)
       (agents.registerInternal (fun l => l) att1 (agents.NewAgentScheduler 8))) = None /\
  length (agents.scheduleAgents
            (agents.registerInternal (fun l => l) att1 (agents.NewAgentScheduler 8)))
  = size (agents.agents (agents.registerInternal (fun l => l) att1 (agents.NewAgentScheduler 8))) /\
  (In att1 (agents.GetAgentsByTenant (fun l => l) "t1"
              (agents.registerInternal (fun l => l) att1 (agents.NewAgentScheduler 8))) <->
   agents.GetTenantID att1 = "t1" /\
   In att1 (agents.scheduleAgents
              (agents.registerInternal (fun l => l) att1 (agents.NewAgentScheduler 8)))).
Proof.
  apply (scheduler_registry (fun l => l) (agents.NewAgentScheduler 8) att1 att1 "t1").
  intros l. reflexivity.
Defined.

(* ---- the facade ---- *)

Lemma sortByPriority_one (a : agents.Agent) : agents.sortByPriority [a] = [a].
Proof. reflexivity. Qed.

Lemma registered_alone (ord : Order agents.Agent) (agent : agents.Agent)
    (waiting : list agents.Agent) (unreg : list string) (w : Z) :
  is_order ord ->
  agents.registerInternal ord agent (agents.mkScheduler ∅ [] waiting unreg w)
  = agents.mkScheduler {[agents.GetID agent := agent]} [agent] waiting unreg w.
Proof.
  intros Hord. unfold agents.registerInternal, agents.rebuildPriorityQueue.
  cbn [agents.agents agents.priority agents.registerChan agents.unregisterChan agents.workers].
  rewrite insert_empty, map_to_list_singleton. cbn [List.map snd].
  rewrite (Permutation_one agent _ (Hord [agent])), sortByPriority_one. reflexivity.
Qed.



(** X26.  A link joins atoms of its own tenant.  When
    CreateInheritanceLink succeeds, its source and its target are atoms
    stored for the tenant of the link, and the link returned is the
    inheritance link over exactly these two, with the content-addressed
    id of the pair and the default truth value. *)
Theorem CreateInheritanceLink_endpoints (sourceID targetID t : string)
    (ce : cognitive.CognitiveEngine) (link : Atom) :
  snd (cognitive.CreateInheritanceLink sourceID targetID t ce) = inl link ->
  exists ps pt source target,
    cognitive.GetAtom sourceID t ce = inl ps /\
    cognitive.GetAtom targetID t ce = inl pt /\
    sharding.deref (cognitive.shardManager ce) ps = Some source /\
    sharding.deref (cognitive.shardManager ce) pt = Some target /\
    GetTenantID source = t /\ GetTenantID target = t /\
    link = NewLink (GenerateAtomID InheritanceLinkType "inheritance" [source; target])
                   "inheritance" t InheritanceLinkType [source; target].
Proof.
  unfold cognitive.CreateInheritanceLink.
  destruct (cognitive.GetAtom sourceID t ce) as [ps|e] eqn:Hs; [|discriminate].
  destruct (cognitive.GetAtom targetID t ce) as [pt|e] eqn:Ht; [|discriminate].
  destruct (sharding.deref (cognitive.shardManager ce) ps) as [source|] eqn:Hds; [|discriminate].
  destruct (sharding.deref (cognitive.shardManager ce) pt) as [target|] eqn:Hdt; [|discriminate].
  set (newLink := NewLink _ _ _ _ _).
  destruct (cognitive.AddAtom newLink ce) as [ce' [e|]]; [discriminate|].
  cbn [snd]. intros [= <-].
  exists ps, pt, source, target.
  split; [reflexivity|]. split; [reflexivity|]. split; [exact Hds|]. split; [exact Hdt|].
  split; [exact (sharding_GetAtom_tenant _ _ _ _ _ Hs Hds)|].
  split; [exact (sharding_GetAtom_tenant _ _ _ _ _ Ht Hdt)|]. reflexivity.
Qed.

Lemma CreateInheritanceLink_endpoints_witness :
  exists ps pt source target,
    cognitive.GetAtom (GetID cat) "demo"
      (fst (cognitive.CreateConceptNode "Mammal" "demo"
         (fst (cognitive.CreateConceptNode "Cat" "demo" (cognitive.NewCognitiveEngine None)))))
    = inl ps /\
    cognitive.GetAtom (GetID mammal) "demo"
      (fst (cognitive.CreateConceptNode "Mammal" "demo"
         (fst (cognitive.CreateConceptNode "Cat" "demo" (cognitive.NewCognitiveEngine None)))))
    = inl pt /\
    sharding.deref
      (cognitive.shardManager
         (fst (cognitive.CreateConceptNode "Mammal" "demo"
            (fst (cognitive.CreateConceptNode "Cat" "demo" (cognitive.NewCognitiveEngine None))))))
      ps = Some source /\
    sharding.deref
      (cognitive.shardManager
         (fst (cognitive.CreateConceptNode "Mammal" "demo"
            (fst (cognitive.CreateConceptNode "Cat" "demo" (cognitive.NewCognitiveEngine None))))))
      pt = Some target /\
    GetTenantID source = "demo" /\ GetTenantID target = "demo" /\
    catMammal = NewLink (GenerateAtomID InheritanceLinkType "inheritance" [source; target])
                        "inheritance" "demo" InheritanceLinkType [source; target].
Proof.
  apply (CreateInheritanceLink_endpoints (GetID cat) (GetID mammal) "demo"
           (fst (cognitive.CreateConceptNode "Mammal" "demo"
              (fst (cognitive.CreateConceptNode "Cat" "demo" (cognitive.NewCognitiveEngine None)))))
           catMammal).
  vm_compute. reflexivity.
Defined.

(** The errors of CreateInheritanceLink leave the engine as it was. *)
Lemma CreateInheritanceLink_missing (sourceID targetID t : string)
    (ce : cognitive.CognitiveEngine) :
  (forall e, cognitive.GetAtom sourceID t ce = inr e ->
             cognitive.CreateInheritanceLink sourceID targetID t ce
             = (ce, inr (ErrSourceNotFound e))) /\
  (forall p e, cognitive.GetAtom sourceID t ce = inl p ->
               cognitive.GetAtom targetID t ce = inr e ->
               cognitive.CreateInheritanceLink sourceID targetID t ce
               = (ce, inr (ErrTargetNotFound e))).
Proof.
  unfold cognitive.CreateInheritanceLink. split.
  - intros e ->. reflexivity.
  - intros p e -> ->. reflexivity.
Qed.

(* ---- deletion through the manager ---- *)

(** X27.  A deleted atom is gone.  On a manager reached from a new one,
    after DeleteAtom has succeeded for an id and a tenant, GetAtom of the
    id fails with the not-found error for that tenant, and QueryAtoms for
    the tenant lists no atom of that id any more, whatever the filter and
    the order. *)
Theorem deleted_atom_is_gone (n : Z) (rs : list Request) (atomID t : string)
    (ord : Order (nat * nat)) (filter : option (Atom -> bool)) :
  0 < n ->
  Forall throughInterface rs ->
  is_order ord ->
  let sm := routeAll rs (sharding.NewShardManager n) in
  snd (sharding.DeleteAtom atomID t sm) = None ->
  let sm' := fst (sharding.DeleteAtom atomID t sm) in
  sharding.GetAtom atomID t sm' = inr (ErrNotFound atomID) /\
  Forall (fun p => forall a, sharding.deref sm' p = Some a -> GetID a <> atomID)
         (sharding.QueryAtoms ord t filter sm').
Proof.
  intros Hn Hrs Hord sm Hok sm'.
  assert (Hm : managed sm)
    by (apply managed_routeAll; [exact Hrs|apply managed_NewShardManager; exact Hn]).
  assert (Hm' : managed sm') by (apply managed_DeleteAtom; exact Hm).
  assert (Hget : sharding.GetAtom atomID t sm' = inr (ErrNotFound atomID)).
  { unfold sm', sharding.DeleteAtom, sharding.GetAtom in *.
    destruct (sharding.shards sm !! Z.to_nat (sharding.GetShardID sm atomID t))
      as [shard|] eqn:Hi; [|discriminate].
    destruct (deleteAtomInternal_outcome atomID t (sharding.Space shard))
      as [(_ & Hnone & Hatoms & _)|(e & Hrej)]; [|rewrite Hrej in Hok; discriminate].
    destruct (deleteAtomInternal atomID t (sharding.Space shard)) as [sp err].
    cbn [fst snd] in Hnone, Hatoms. subst err. cbn [fst].
    change (sharding.GetShardID (sharding.setShard _ _ sm) atomID t)
      with (sharding.GetShardID sm atomID t).
    unfold sharding.setShard. cbn [sharding.shards].
    rewrite list_lookup_insert_eq by exact (lookup_lt_Some _ _ _ Hi).
    cbn [sharding.Space]. unfold GetAtom. rewrite Hatoms, lookup_delete_eq. reflexivity. }
  split; [exact Hget|].
  apply List.Forall_forall. intros p Hp a Hd Hid.
  apply (sharding_QueryAtoms_spec sm' ord t filter p Hm' Hord) in Hp as (a' & Hd' & Hg & _).
  assert (a' = a) by congruence. subst a'. rewrite Hid, Hget in Hg. discriminate.
Qed.

Lemma deleted_atom_is_gone_witness :
  sharding.GetAtom "n1" "t"
    (fst (sharding.DeleteAtom "n1" "t"
            (routeAll [ReqAdd n1; ReqAdd n2] (sharding.NewShardManager 8))))
  = inr (ErrNotFound "n1") /\
  Forall (fun p => forall a,
            sharding.deref
              (fst (sharding.DeleteAtom "n1" "t"
                      (routeAll [ReqAdd n1; ReqAdd n2] (sharding.NewShardManager 8)))) p = Some a ->
            GetID a <> "n1")
         (sharding.QueryAtoms (fun l => l) "t" None
            (fst (sharding.DeleteAtom "n1" "t"
                    (routeAll [ReqAdd n1; ReqAdd n2] (sharding.NewShardManager 8))))).
Proof.
  apply (deleted_atom_is_gone 8 [ReqAdd n1; ReqAdd n2] "n1" "t" (fun l => l) None).
  - reflexivity.
  - repeat (apply List.Forall_cons; [exact I|]). apply List.Forall_nil.
  - intros l. reflexivity.
  - vm_compute. reflexivity.
Defined.

(* ---- pattern matching ---- *)

(** X28.  MatchPattern.  On a manager reached from a new one, the
    pattern matcher returns exactly the atoms of the tenant that have the
    type of the pattern and, when the pattern has a name, its name; a
    pattern with the empty name matches every atom of its type. *)
Theorem MatchPattern_spec (n : Z) (rs : list Request) (ord : Order (nat * nat)) (t : string)
    (pattern : Atom) (p : nat * nat) :
  0 < n ->
  Forall throughInterface rs ->
  is_order ord ->
  let sm := routeAll rs (sharding.NewShardManager n) in
  In p (inference.MatchPattern ord t pattern sm) <->
  exists a, sharding.deref sm p = Some a /\
            sharding.GetAtom (GetID a) t sm = inl p /\
            GetType a = GetType pattern /\
            (GetName pattern = EmptyString \/ GetName a = GetName pattern).
Proof.
  intros Hn Hrs Hord sm. unfold inference.MatchPattern.
  change (QueryAtoms ord t ?f sm) with (sharding.QueryAtoms ord t f sm).
  rewrite sharding_QueryAtoms_spec;
    [|apply managed_routeAll; [exact Hrs|apply managed_NewShardManager; exact Hn]|exact Hord].
  split; intros (a & Hd & Hg & Hk); exists a; (split; [exact Hd|]); (split; [exact Hg|]).
  - cbn [keeps] in Hk. apply andb_true_iff in Hk as [Hty Hnm].
    apply Z.eqb_eq in Hty. apply orb_true_iff in Hnm.
    rewrite !bool_decide_eq_true in Hnm. auto.
  - destruct Hk as [Hty Hnm]. cbn [keeps]. apply andb_true_iff. split; [apply Z.eqb_eq; exact Hty|].
    apply orb_true_iff. rewrite !bool_decide_eq_true. exact Hnm.
Qed.

Lemma MatchPattern_spec_witness :
  In (0%nat, 0%nat)
     (inference.MatchPattern (fun l => l) "t" n2
        (routeAll [ReqAdd n1; ReqAdd n2] (sharding.NewShardManager 8))) <->
  exists a, sharding.deref (routeAll [ReqAdd n1; ReqAdd n2] (sharding.NewShardManager 8))
              (0%nat, 0%nat) = Some a /\
            sharding.GetAtom (GetID a) "t"
              (routeAll [ReqAdd n1; ReqAdd n2] (sharding.NewShardManager 8)) = inl (0%nat, 0%nat) /\
            GetType a = GetType n2 /\
            (GetName n2 = EmptyString \/ GetName a = GetName n2).
Proof.
  apply (MatchPattern_spec 8 [ReqAdd n1; ReqAdd n2] (fun l => l) "t" n2 (0%nat, 0%nat)).
  - reflexivity.
  - repeat (apply List.Forall_cons; [exact I|]). apply List.Forall_nil.
  - intros l. reflexivity.
Defined.

(* ---- content-addressed ids ---- *)

Lemma rounds_length (ks win st : list Z) :
  length st = 8%nat -> length (Sha256.rounds ks win st) = 8%nat.
Proof.
  revert win st. induction ks as [|k ks IH]; intros win st Hst; cbn [Sha256.rounds]; [exact Hst|].
  destruct win as [|w win]; [exact Hst|]. apply IH.
  destruct st as [|a [|b [|c [|d [|e [|f [|g [|h [|]]]]]]]]]; try discriminate. reflexivity.
Qed.

Lemma compress_length (st block : list Z) :
  length st = 8%nat -> length (Sha256.compress st block) = 8%nat.
Proof.
  intros Hst. unfold Sha256.compress.
  rewrite length_map, length_combine, rounds_length, Hst by exact Hst. reflexivity.
Qed.

Lemma blocks_length (bs : list Z) (n : nat) (st : list Z) :
  length st = 8%nat -> length (Sha256.blocks bs n st) = 8%nat.
Proof.
  revert bs st. induction n as [|n IH]; intros bs st Hst; cbn [Sha256.blocks]; [exact Hst|].
  apply IH, compress_length, Hst.
Qed.

Lemma hex_length (s : string) : String.length (Sha256.hex s) = 64%nat.
Proof.
  unfold Sha256.hex, Sha256.digest.
  pose proof (blocks_length (Sha256.pad (Sha256.bytes_of s))
                (Nat.div (length (Sha256.pad (Sha256.bytes_of s))) 64) Sha256.H0 eq_refl) as Hlen.
  destruct (Sha256.blocks _ _ _) as [|a [|b [|c [|d [|e [|f [|g [|h [|]]]]]]]]]; try discriminate.
  unfold Sha256.hexword. cbn [fold_right String.append String.length]. reflexivity.
Qed.

(** X29.  Ids are content-addressed.  GenerateAtomID is a string of 64
    hexadecimal digits that depends on the type, the name and the ids of
    the outgoing atoms only: it is the same for every tenant, truth value
    and attention value, which is why equal concepts of two tenants carry
    the same id. *)
Theorem GenerateAtomID_content_addressed (atomType : AtomType) (name : string)
    (outgoing outgoing' : list Atom) :
  List.map GetID outgoing = List.map GetID outgoing' ->
  GenerateAtomID atomType name outgoing = GenerateAtomID atomType name outgoing' /\
  String.length (GenerateAtomID atomType name outgoing) = 64%nat.
Proof.
  intros Hids. split; [|apply hex_length].
  unfold GenerateAtomID. f_equal. f_equal.
  revert outgoing' Hids. induction outgoing as [|a out IH]; intros [|a' out'] Hids;
    try discriminate; [reflexivity|].
  cbn [List.map] in Hids. injection Hids as Ha Hout.
  cbn [fold_right]. rewrite Ha. f_equal. apply IH. exact Hout.
Qed.

Lemma GenerateAtomID_content_addressed_witness :
  GenerateAtomID InheritanceLinkType "inheritance" [n1; n2]
  = GenerateAtomID InheritanceLinkType "inheritance"
      [SetTruthValue (mkTruthValue 0.5 0.5) n1; NewNode "n2" "Other" "u" PredicateNodeType] /\
  String.length (GenerateAtomID InheritanceLinkType "inheritance" [n1; n2]) = 64%nat.
Proof.
  apply (GenerateAtomID_content_addressed InheritanceLinkType "inheritance" [n1; n2]
           [SetTruthValue (mkTruthValue 0.5 0.5) n1; NewNode "n2" "Other" "u" PredicateNodeType]).
  reflexivity.
Defined.

(** The embedding of SHA-256 on the vectors of FIPS 180-4, and the id
    of the concept Cat. *)
Example sha256_vectors :
  Sha256.hex "abc" = "ba7816bf8f01cfea414140de5dae2223b00361a396177a9cb410ff61f20015ad" /\
  Sha256.hex EmptyString = "e3b0c44298fc1c149afbf4c8996fb92427ae41e4649b934ca495991b7852b855" /\
  GenerateAtomID ConceptNodeType "Cat" []
  = "591cb98a778517d9c6aefd2b5213c71198e7b601bb2f011f90d9571271759b0d".
Proof. split; [|split]; vm_compute; reflexivity. Qed.

(* ---- the attention allocation stage ---- *)

(** X30.  The boost of the attention allocation stage can overflow.  The
    stage adds 5 to the sti of an atom whose confidence exceeds 0.8
    before it decays it; the addition is in 16 bits, so an sti of 32763
    or more wraps around and the atom ends with a large negative
    importance, while every smaller sti ends at the quotient of
    95 times (sti + 5) by 100. *)
Theorem AttentionAllocation_boost_wraps (atom : Atom) :
  int16 (STI (GetAttentionValue atom)) ->
  (0.8 <? Confidence (GetTruthValue atom))%float = true ->
  let sti := STI (GetAttentionValue atom) in
  (sti <= 32762 -> STI (pipeline.allocate atom) = Z.quot ((sti + 5) * 95) 100) /\
  (32763 <= sti -> STI (pipeline.allocate atom) = Z.quot ((sti + 5 - 65536) * 95) 100 /\
                   STI (pipeline.allocate atom) < -31000).
Proof.
  intros Hz Hconf sti. unfold pipeline.allocate. rewrite Hconf. cbn [STI]. fold sti.
  unfold int16 in Hz. fold sti in Hz.
  split; intros Hs.
  - rewrite wrap16_small by (unfold int16; lia). apply decay_quot. unfold int16. lia.
  - assert (Hw : agents.wrap16 (sti + 5) = sti + 5 - 65536).
    { unfold agents.wrap16.
      replace (sti + 5 + 32768) with (sti + 5 - 32768 + 1 * 65536) by lia.
      rewrite Z.mod_add by lia. rewrite Z.mod_small by lia. lia. }
    rewrite Hw, decay_quot by (unfold int16; lia). split; [reflexivity|].
    assert (H1 : Z.quot ((sti + 5 - 65536) * 95) 100 <= Z.quot ((32767 + 5 - 65536) * 95) 100)
      by (apply Z.quot_le_mono; lia).
    change (Z.quot ((32767 + 5 - 65536) * 95) 100) with (-31125) in H1. lia.
Qed.

Lemma AttentionAllocation_boost_wraps_witness :
  (STI (GetAttentionValue (SetAttentionValue (mkAttentionValue 32767 0 0) n1)) <= 32762 ->
   STI (pipeline.allocate (SetAttentionValue (mkAttentionValue 32767 0 0) n1))
   = Z.quot ((STI (GetAttentionValue (SetAttentionValue (mkAttentionValue 32767 0 0) n1)) + 5) * 95)
            100) /\
  (32763 <= STI (GetAttentionValue (SetAttentionValue (mkAttentionValue 32767 0 0) n1)) ->
   STI (pipeline.allocate (SetAttentionValue (mkAttentionValue 32767 0 0) n1))
   = Z.quot ((STI (GetAttentionValue (SetAttentionValue (mkAttentionValue 32767 0 0) n1))
              + 5 - 65536) * 95) 100 /\
   STI (pipeline.allocate (SetAttentionValue (mkAttentionValue 32767 0 0) n1)) < -31000).
Proof.
  apply (AttentionAllocation_boost_wraps (SetAttentionValue (mkAttentionValue 32767 0 0) n1)).
  - unfold int16. simpl. lia.
  - reflexivity.
Defined.
